(** * Gitingest (TypeScript port): ingestion engine

    A shallow embedding of the traversal engine ([ingestion.ts]), the node
    schema ([types/filesystem_schema]), the pattern matcher
    ([utils/ingestion_utils], [utils/query_parser_utils], [query_parsing]),
    the notebook transcoder ([utils/notebook_utils]) and the digest formatter
    ([output_formatters]), together with the properties of the textual
    specification that concern them.

    Conventions.
    - A JavaScript string is the [string] of its UTF-8 bytes; on ASCII text
      bytes and code units coincide.  [js_length] recovers the UTF-16 length
      from the bytes.
    - A JavaScript [number] holding a size or a count is a [Z].
    - A JavaScript [Set<string>] that the code iterates is a duplicate-free
      [list string] in insertion order; the [visited] set, which is only
      queried and extended, is a [gset string].
    - Everything the program asks of its platform (file system, JSON and TOML
      parsers, lower-casing, collation, number formatting) is a field of
      [Host]. *)

From Stdlib Require Import ZArith Ascii String List Sorting.Sorted Permutation.
From stdpp Require Import base decidable option list gmap strings pretty.
From Stdlib Require Import Lia.

Set Warnings "-register-all".

Local Open Scope string_scope.
Local Open Scope list_scope.
Local Open Scope Z_scope.

(** ** JavaScript strings *)

Definition str_eqb (a b : string) : bool := String.eqb a b.

Fixpoint startsWith (s p : string) {struct p} : bool :=
  match p with
  | EmptyString => true
  | String c p' =>
      match s with
      | EmptyString => false
      | String d s' => Ascii.eqb c d && startsWith s' p'
      end
  end.

Fixpoint str_rev_app (s acc : string) : string :=
  match s with
  | EmptyString => acc
  | String c s' => str_rev_app s' (String c acc)
  end.

Definition str_rev (s : string) : string := str_rev_app s EmptyString.

Definition endsWith (s p : string) : bool := startsWith (str_rev s) (str_rev p).

(** [String.prototype.includes] with a one-character argument. *)
Fixpoint includes_char (s : string) (c : ascii) : bool :=
  match s with
  | EmptyString => false
  | String d s' => Ascii.eqb c d || includes_char s' c
  end.

(** [s.split(sep)] for a one-character separator: always at least one piece. *)
Fixpoint split_on (sep : ascii) (s : string) : list string :=
  match s with
  | EmptyString => [EmptyString]
  | String c s' =>
      if Ascii.eqb c sep then EmptyString :: split_on sep s'
      else match split_on sep s' with
           | [] => [String c EmptyString]
           | w :: ws => String c w :: ws
           end
  end.

(** [arr.join(sep)]. *)
Fixpoint join (sep : string) (l : list string) : string :=
  match l with
  | [] => EmptyString
  | [x] => x
  | x :: rest => x +:+ sep +:+ join sep rest
  end.

Definition nonempty (s : string) : bool :=
  match s with EmptyString => false | _ => true end.

Definition is_upper (c : ascii) : bool :=
  let n := nat_of_ascii c in (Nat.leb 65 n) && (Nat.leb n 90).
Definition is_lower (c : ascii) : bool :=
  let n := nat_of_ascii c in (Nat.leb 97 n) && (Nat.leb n 122).
Definition is_digit (c : ascii) : bool :=
  let n := nat_of_ascii c in (Nat.leb 48 n) && (Nat.leb n 57).

(** The class [[a-zA-Z0-9]] of both validators. *)
Definition is_alnum (c : ascii) : bool := is_lower c || is_upper c || is_digit c.

Definition lower_char (c : ascii) : ascii :=
  if is_upper c then ascii_of_nat (nat_of_ascii c + 32) else c.

(** Lower-casing of a text in which only ASCII letters are cased: what
    [String.prototype.toLowerCase] does on ASCII text.  The in-memory
    platforms, whose names are ASCII, lower-case with it. *)
Fixpoint lower_ascii (s : string) : string :=
  match s with
  | EmptyString => EmptyString
  | String c s' => String (lower_char c) (lower_ascii s')
  end.

(** Number of UTF-16 code units of a UTF-8 encoded text: one per leading byte,
    two for the leading byte of a four-byte sequence. *)
Fixpoint js_length (s : string) : Z :=
  match s with
  | EmptyString => 0
  | String c s' =>
      let n := nat_of_ascii c in
      (if Nat.leb 240 n then 2
       else if (Nat.leb 128 n) && (Nat.ltb n 192) then 0
       else 1) + js_length s'
  end.

(** ** Node's [path] module, POSIX flavour

    Paths are split into segments at ['/'].  [normalizeString] is the segment
    walk shared by [path.normalize], [path.join] and [path.resolve]. *)

Definition sep_char : ascii := "/"%char.

Definition isAbsolute (p : string) : bool := startsWith p "/".

Definition segments (p : string) : list string :=
  filter (fun s => nonempty s = true) (split_on sep_char p).

(** The walk keeps the segments seen so far in reverse order. *)
Fixpoint normalize_walk (allowAboveRoot : bool) (acc : list string)
    (segs : list string) : list string :=
  match segs with
  | [] => rev acc
  | s :: rest =>
      if str_eqb s "." then normalize_walk allowAboveRoot acc rest
      else if str_eqb s ".." then
        match acc with
        | top :: acc' =>
            if str_eqb top ".."
            then normalize_walk allowAboveRoot (".." :: acc) rest
            else normalize_walk allowAboveRoot acc' rest
        | [] =>
            if allowAboveRoot
            then normalize_walk allowAboveRoot [".."] rest
            else normalize_walk allowAboveRoot [] rest
        end
      else normalize_walk allowAboveRoot (s :: acc) rest
  end.

Definition normalizeString (p : string) (allowAboveRoot : bool) : string :=
  join "/" (normalize_walk allowAboveRoot [] (segments p)).

Definition path_normalize (p : string) : string :=
  if nonempty p then
    let abs := isAbsolute p in
    let trailing := endsWith p "/" in
    let body := normalizeString p (negb abs) in
    if nonempty body then
      let body' := if trailing then body +:+ "/" else body in
      if abs then "/" +:+ body' else body'
    else if abs then "/" else if trailing then "./" else "."
  else ".".

(** [path.join(...parts)]: the non-empty parts joined by ['/'], normalised. *)
Definition path_join_all (parts : list string) : string :=
  match filter (fun s => nonempty s = true) parts with
  | [] => "."
  | ps => path_normalize (join "/" ps)
  end.

Definition path_join (a b : string) : string := path_join_all [a; b].

(** [path.resolve(p)] with the working directory [cwd] (an absolute path). *)
Definition path_resolve (cwd p : string) : string :=
  let full := if isAbsolute p then p else cwd +:+ "/" +:+ p in
  "/" +:+ normalizeString full false.

Fixpoint drop_common (a b : list string) : list string * list string :=
  match a, b with
  | x :: a', y :: b' => if str_eqb x y then drop_common a' b' else (a, b)
  | _, _ => (a, b)
  end.

(** [path.relative(from, to)]: one [".."] for every segment of [from] below
    the common prefix, then the rest of [to]. *)
Definition path_relative (cwd from to : string) : string :=
  if str_eqb from to then EmptyString
  else
    let f := path_resolve cwd from in
    let t := path_resolve cwd to in
    if str_eqb f t then EmptyString
    else
      let '(fr, tr) := drop_common (segments f) (segments t) in
      join "/" (map (fun _ => "..") fr ++ tr).

(** [path.basename(p)]: the last segment, trailing separators ignored. *)
Definition basename (p : string) : string :=
  match rev (segments p) with
  | [] => EmptyString
  | s :: _ => s
  end.

(** Position-free rendering of [path.extname]: the text from the last ['.']
    of the basename, unless that dot is the first character or the basename
    is [".."]. *)
Fixpoint last_dot_suffix (s : string) : option string :=
  match s with
  | EmptyString => None
  | String c s' =>
      match last_dot_suffix s' with
      | Some e => Some e
      | None => if Ascii.eqb c "."%char then Some s else None
      end
  end.

Definition extname (p : string) : string :=
  match basename p with
  | EmptyString => EmptyString
  | String c rest =>
      if str_eqb (String c rest) ".." then EmptyString
      else match last_dot_suffix rest with
           | Some e => e
           | None => EmptyString
           end
  end.

(** ** Regular expressions built by [matchPattern]

    [matchPattern] turns a glob into the source of a [RegExp].  The sources it
    produces from patterns over letters, digits and [- _ . / + * @ ?] use only
    literal characters, the escaped dot, the wildcard dot and the quantifiers
    [*] and [+]; that fragment is interpreted here.  Any other source, and any
    subject that is not plain ASCII, is handed to the host's engine. *)

Inductive token := TLit (c : ascii) | TDot | TStar | TPlus.

Inductive atom := ALit (c : ascii) | AAny.
Inductive quant := One | Star | Plus.
Definition item : Type := atom * quant.

Definition is_ascii (c : ascii) : bool := Nat.ltb (nat_of_ascii c) 128.

Fixpoint ascii_only (s : string) : bool :=
  match s with
  | EmptyString => true
  | String c s' => is_ascii c && ascii_only s'
  end.

(** Characters with a syntactic role that the fragment does not cover. *)
Definition other_syntax (c : ascii) : bool := includes_char "^$()[]{}|?" c.

(** [None]: the source is outside the fragment. *)
Fixpoint tokenize (src : string) : option (list token) :=
  match src with
  | EmptyString => Some []
  | String c rest =>
      if negb (is_ascii c) then None
      else if Ascii.eqb c "\"%char then
        match rest with
        | String d rest' =>
            if Ascii.eqb d "."%char
            then option_map (cons (TLit "."%char)) (tokenize rest')
            else None
        | EmptyString => None
        end
      else if other_syntax c then None
      else
        let t := if Ascii.eqb c "."%char then TDot
                 else if Ascii.eqb c "*"%char then TStar
                 else if Ascii.eqb c "+"%char then TPlus
                 else TLit c in
        option_map (cons t) (tokenize rest)
  end.

Definition atom_of_token (t : token) : option atom :=
  match t with
  | TLit c => Some (ALit c)
  | TDot => Some AAny
  | TStar | TPlus => None
  end.

(** [None]: the constructor throws a [SyntaxError] (nothing to repeat). *)
Fixpoint parse_tokens (ts : list token) : option (list item) :=
  match ts with
  | [] => Some []
  | t :: rest =>
      match atom_of_token t with
      | None => None
      | Some a =>
          match rest with
          | TStar :: rest' => option_map (cons (a, Star)) (parse_tokens rest')
          | TPlus :: rest' => option_map (cons (a, Plus)) (parse_tokens rest')
          | _ => option_map (cons (a, One)) (parse_tokens rest)
          end
      end
  end.

(** The wildcard dot matches everything but a line terminator. *)
Definition line_terminator (c : ascii) : bool :=
  Ascii.eqb c "010"%char || Ascii.eqb c "013"%char.

Definition atom_accepts (a : atom) (c : ascii) : bool :=
  match a with
  | ALit d => Ascii.eqb d c
  | AAny => negb (line_terminator c)
  end.

(** Anchored match of an item sequence against the whole subject. *)
Fixpoint items_match (r : list item) : string -> bool :=
  match r with
  | [] => fun s => negb (nonempty s)
  | (a, q) :: r' =>
      let star :=
        fix star (s : string) : bool :=
          items_match r' s ||
          match s with
          | String c s' => atom_accepts a c && star s'
          | EmptyString => false
          end in
      match q with
      | One => fun s =>
          match s with
          | String c s' => atom_accepts a c && items_match r' s'
          | EmptyString => false
          end
      | Star => star
      | Plus => fun s =>
          match s with
          | String c s' => atom_accepts a c && star s'
          | EmptyString => false
          end
      end
  end.

(** [s.replace(/c/g, by)] for a single character [c]. *)
Fixpoint replace_char (c : ascii) (by_ : string) (s : string) : string :=
  match s with
  | EmptyString => EmptyString
  | String d s' =>
      if Ascii.eqb d c then by_ +:+ replace_char c by_ s'
      else String d (replace_char c by_ s')
  end.

(** The three [replace] calls of [matchPattern], in source order. *)
Definition regExpPattern (pattern : string) : string :=
  replace_char "?"%char "."
    (replace_char "*"%char ".*"
       (replace_char "."%char "\." pattern)).

(** ** Pattern validation and normalisation *)

(** [utils/query_parser_utils.ts]: [/^[a-zA-Z0-9\-_./+*]+$/.test(pattern)]. *)
Definition utils_class (c : ascii) : bool :=
  is_alnum c || includes_char "-_./+*" c.

Fixpoint all_chars (f : ascii -> bool) (s : string) : bool :=
  match s with
  | EmptyString => true
  | String c s' => f c && all_chars f s'
  end.

Module QueryParserUtils.

Definition isValidPattern (pattern : string) : bool :=
  nonempty pattern && all_chars utils_class pattern.

(** White space, as [String.prototype.trim] and the class [\s] of a regular
    expression have it: the ASCII characters TAB to CR and SPACE, which take
    one byte; U+00A0, which takes two; and U+1680, U+2000 to U+200A, U+2028,
    U+2029, U+202F, U+205F, U+3000 and U+FEFF, which take three. *)
Definition is_space (c : ascii) : bool :=
  let n := nat_of_ascii c in
  (Nat.leb 9 n && Nat.leb n 13) || Nat.eqb n 32.

Definition is_space2 (a b : ascii) : bool :=
  Nat.eqb (nat_of_ascii a) 194 && Nat.eqb (nat_of_ascii b) 160.

Definition is_space3 (a b c : ascii) : bool :=
  let x := nat_of_ascii a in
  let y := nat_of_ascii b in
  let z := nat_of_ascii c in
  Nat.eqb x 225 && Nat.eqb y 154 && Nat.eqb z 128
  || Nat.eqb x 226 && Nat.eqb y 128
     && (Nat.leb 128 z && Nat.leb z 138
         || Nat.eqb z 168 || Nat.eqb z 169 || Nat.eqb z 175)
  || Nat.eqb x 226 && Nat.eqb y 129 && Nat.eqb z 159
  || Nat.eqb x 227 && Nat.eqb y 128 && Nat.eqb z 128
  || Nat.eqb x 239 && Nat.eqb y 187 && Nat.eqb z 191.

(** The number of bytes of the white-space character a text begins with,
    [0] when it begins with none.  [w2] and [w3] recognise the characters of
    two and of three bytes. *)
Definition width_of (w2 : ascii -> ascii -> bool)
    (w3 : ascii -> ascii -> ascii -> bool) (s : string) : nat :=
  match s with
  | String a s1 =>
      if is_space a then 1%nat
      else match s1 with
           | String b s2 =>
               if w2 a b then 2%nat
               else match s2 with
                    | String c _ => if w3 a b c then 3%nat else 0%nat
                    | EmptyString => 0%nat
                    end
           | EmptyString => 0%nat
           end
  | EmptyString => 0%nat
  end.

Definition space_width : string -> nat := width_of is_space2 is_space3.

(** The same for a text that is read from its end. *)
Definition space_width_back : string -> nat :=
  width_of (fun a b => is_space2 b a) (fun a b c => is_space3 c b a).

(** Drop the white-space characters a text begins with; [skip] counts the
    bytes of the current one that are still to be passed over. *)
Fixpoint drop_spaces (width : string -> nat) (skip : nat) (s : string)
    : string :=
  match s with
  | String _ s' =>
      match skip with
      | S k => drop_spaces width k s'
      | O =>
          match width s with
          | S k => drop_spaces width k s'
          | O => s
          end
      end
  | EmptyString => EmptyString
  end.

Definition trim_start (s : string) : string := drop_spaces space_width 0 s.

Definition trim_end (s : string) : string :=
  str_rev (drop_spaces space_width_back 0 (str_rev s)).

Definition trim (s : string) : string := trim_end (trim_start s).

Fixpoint strip_leading_slashes (s : string) : string :=
  match s with
  | String c s' => if Ascii.eqb c sep_char then strip_leading_slashes s' else s
  | EmptyString => EmptyString
  end.

(** [pattern.trim().replace(/^\/+|\/+$/g, '')]. *)
Definition normalizePattern (pattern : string) : string :=
  str_rev (strip_leading_slashes (str_rev (strip_leading_slashes (trim pattern)))).

End QueryParserUtils.

Module QueryParser.

(** [utils/query_parser.ts]:
    [[...pattern].every(c => /[a-zA-Z0-9]/.test(c) || '-_./+*@'.includes(c))]. *)
Definition isValidPattern (pattern : string) : bool :=
  all_chars (fun c => is_alnum c || includes_char "-_./+*@" c) pattern.

Fixpoint strip_leading_sep (s : string) : string :=
  match s with
  | String c s' => if Ascii.eqb c sep_char then strip_leading_sep s' else s
  | EmptyString => EmptyString
  end.

Definition normalizePattern (pattern : string) : string :=
  let p := strip_leading_sep pattern in
  if endsWith p "/" then p +:+ "*" else p.

End QueryParser.

(** ** Failures and outcomes *)

(** The exceptions the program can raise.  [SystemError] is an [Error] thrown
    by the [fs] module, [TypeError] one thrown by the engine on ill-typed
    notebook data. *)
Inductive Exn :=
| Error (message : string)
| InvalidPatternError (pattern : string)
| InvalidNotebookError (message : string)
| SystemError (message : string)
| TypeError (message : string).

Definition exn_name (e : Exn) : string :=
  match e with
  | Error _ | SystemError _ => "Error"
  | InvalidPatternError _ => "InvalidPatternError"
  | InvalidNotebookError _ => "InvalidNotebookError"
  | TypeError _ => "TypeError"
  end.

Definition exn_message (e : Exn) : string :=
  match e with
  | Error m | InvalidNotebookError m | SystemError m | TypeError m => m
  | InvalidPatternError p =>
      "Pattern '" +:+ p +:+ "' contains invalid characters. Only alphanumeric characters, dash (-), "
      +:+ "underscore (_), dot (.), forward slash (/), plus (+), and asterisk (*) are allowed."
  end.

(** [`${exc}`], that is [Error.prototype.toString]. *)
Definition exn_toString (e : Exn) : string :=
  if nonempty (exn_message e)
  then exn_name e +:+ ": " +:+ exn_message e
  else exn_name e.

(** A call returns, throws, or (in the fuelled traversal) runs out of fuel. *)
Inductive Outcome (A : Type) :=
| Ok (a : A)
| Throw (e : Exn)
| OutOfFuel.
Arguments Ok {A} a.
Arguments Throw {A} e.
Arguments OutOfFuel {A}.

Global Instance Outcome_ret : MRet Outcome := fun A a => Ok a.
Global Instance Outcome_bind : MBind Outcome := fun A B f m =>
  match m with
  | Ok a => f a
  | Throw e => Throw e
  | OutOfFuel => OutOfFuel
  end.

(** ** The host platform *)

Inductive HostResult (A : Type) :=
| HOk (a : A)
| HFail (message : string).
Arguments HOk {A} a.
Arguments HFail {A} message.

Definition lift_host {A} (r : HostResult A) : Outcome A :=
  match r with
  | HOk a => Ok a
  | HFail m => Throw (SystemError m)
  end.

Inductive EntryKind := KFile | KDirectory | KOther.

(** What the program reads of an [fs.Stats]. *)
Record Stats := mkStats { st_kind : EntryKind; st_size : Z }.

(** What the program reads of an [fs.Dirent]. *)
Record Dirent := mkDirent { d_name : string; d_isSymbolicLink : bool }.

(** Values produced by [JSON.parse] and by the TOML parser.  A number keeps
    its decimal rendering and its truthiness. *)
Inductive JsValue :=
| VNull
| VBool (b : bool)
| VNum (text : string) (nonzero : bool)
| VStr (s : string)
| VArr (elems : list JsValue)
| VObj (fields : list (string * JsValue)).

(** The platform: POSIX ([os.platform()] is not ['win32']).
    - [readSample p]: the first at most 1024 bytes of [p], [None] when the
      file cannot be opened or read;
    - [readFileSync p enc]: the decoded text of [p];
    - [regexp_other src subject]: [new RegExp(src).test(subject)] for sources
      and subjects outside the interpreted fragment, [None] for a
      [SyntaxError];
    - [localeCompare], [toLocaleString], [toFixed1 n d] (the one-decimal
      rendering of the quotient [n / d]): the engine's collation and number
      formatting;
    - [type_error_message]: the text of the engine's [TypeError]s;
    - [gt_zero v]: the engine's comparison [v > 0] on a parsed value. *)
Record Host := mkHost {
  cwd : string;
  readdir : string -> HostResult (list Dirent);
  realpath : string -> HostResult string;
  stat : string -> HostResult Stats;
  access : string -> bool;
  readSample : string -> option string;
  readFileSync : string -> string -> HostResult string;
  JSON_parse : string -> option JsValue;
  toml_parse : string -> option JsValue;
  toLowerCase : string -> string;
  localeCompare : string -> string -> Z;
  toLocaleString : Z -> string;
  toFixed1 : Z -> Z -> string;
  regexp_other : string -> string -> option bool;
  type_error_message : string -> string;
  gt_zero : JsValue -> bool
}.

(** ** Configuration ([config.ts]) *)

Definition MAX_FILE_SIZE : Z := 10 * 1024 * 1024.
Definition MAX_DIRECTORY_DEPTH : Z := 20.
Definition MAX_FILES : Z := 10000.
Definition MAX_TOTAL_SIZE_BYTES : Z := 500 * 1024 * 1024.

(** ** The query ([types/ingestion_schema]) *)

Record IngestionQuery := mkQuery {
  user_name : option string;
  repo_name : option string;
  local_path : string;
  url : option string;
  slug : string;
  id : string;
  subpath : string;
  type_ : string;
  branch : option string;
  commit : option string;
  max_file_size : Z;
  ignore_patterns : list string;
  include_patterns : option (list string)
}.

Definition set_ignore_patterns (q : IngestionQuery) (ps : list string) : IngestionQuery :=
  mkQuery (user_name q) (repo_name q) (local_path q) (url q) (slug q) (id q)
    (subpath q) (type_ q) (branch q) (commit q) (max_file_size q) ps
    (include_patterns q).

Definition set_max_file_size (q : IngestionQuery) (m : Z) : IngestionQuery :=
  mkQuery (user_name q) (repo_name q) (local_path q) (url q) (slug q) (id q)
    (subpath q) (type_ q) (branch q) (commit q) m (ignore_patterns q)
    (include_patterns q).

(** [Set.prototype.add], [Set.prototype.delete] and [new Set(iterable)]. *)
Definition set_has (s : list string) (x : string) : bool :=
  existsb (str_eqb x) s.

Definition set_add (s : list string) (x : string) : list string :=
  if set_has s x then s else s ++ [x].

Definition set_delete (s : list string) (x : string) : list string :=
  filter (fun y => str_eqb x y = false) s.

Definition set_add_all (s xs : list string) : list string :=
  fold_left set_add xs s.

Definition new_Set (xs : list string) : list string := set_add_all [] xs.

(** Truthiness of an optional string. *)
Definition truthy_str (o : option string) : bool :=
  match o with
  | Some s => nonempty s
  | None => false
  end.

(** [Partial<IngestionQuery>], the argument of [createIngestionQuery]. *)
Record PartialQuery := mkPartial {
  p_user_name : option string;
  p_repo_name : option string;
  p_local_path : option string;
  p_url : option string;
  p_slug : option string;
  p_id : option string;
  p_subpath : option string;
  p_type : option string;
  p_branch : option string;
  p_commit : option string;
  p_max_file_size : option Z;
  p_ignore_patterns : option (list string);
  p_include_patterns : option (list string)
}.

Definition or_str (o : option string) (d : string) : string :=
  match o with
  | Some s => if nonempty s then s else d
  | None => d
  end.

(** [uuid] is the value [uuidv4()] would return if called. *)
Definition createIngestionQuery (uuid : string) (params : PartialQuery) : IngestionQuery :=
  let id := or_str (p_id params) uuid in
  let slug := or_str (p_slug params) ("query-" +:+ id) in
  {| local_path := or_str (p_local_path params) EmptyString;
     slug := slug;
     id := id;
     type_ := or_str (p_type params) "tree";
     subpath := or_str (p_subpath params) "/";
     max_file_size :=
       match p_max_file_size params with
       | Some m => if Z.eqb m 0 then MAX_FILE_SIZE else m
       | None => MAX_FILE_SIZE
       end;
     ignore_patterns :=
       match p_ignore_patterns params with
       | Some s => s
       | None => []
       end;
     user_name := p_user_name params;
     repo_name := p_repo_name params;
     url := p_url params;
     branch := p_branch params;
     commit := p_commit params;
     include_patterns := p_include_patterns params |}.

(** The spread [{...query}]. *)
Definition spread (q : IngestionQuery) : PartialQuery :=
  {| p_user_name := user_name q; p_repo_name := repo_name q;
     p_local_path := Some (local_path q); p_url := url q;
     p_slug := Some (slug q); p_id := Some (id q);
     p_subpath := Some (subpath q); p_type := Some (type_ q);
     p_branch := branch q; p_commit := commit q;
     p_max_file_size := Some (max_file_size q);
     p_ignore_patterns := Some (ignore_patterns q);
     p_include_patterns := include_patterns q |}.

(** ** Pattern matching ([utils/ingestion_utils]) *)

Section Patterns.

Variable h : Host.

(** [new RegExp(`^${body}$`).test(subject)]; [None] when the constructor
    throws. *)
Definition RegExp_test (body subject : string) : option bool :=
  let src := "^" +:+ body +:+ "$" in
  match tokenize body with
  | None => regexp_other h src subject
  | Some ts =>
      match parse_tokens ts with
      | None => None
      | Some r =>
          if ascii_only subject then Some (items_match r subject)
          else regexp_other h src subject
      end
  end.

Definition matchPattern (s pattern : string) : option bool :=
  RegExp_test (regExpPattern pattern) s.

(** The loop of [shouldExclude]; a throw inside it lands in the [catch],
    which answers [true]. *)
Fixpoint exclude_loop (rel : string) (patterns : list string) : bool :=
  match patterns with
  | [] => false
  | p :: rest =>
      if nonempty p then
        match matchPattern rel p with
        | None => true
        | Some true => true
        | Some false => exclude_loop rel rest
        end
      else exclude_loop rel rest
  end.

Definition shouldExclude (filePath basePath : string)
    (ignorePatterns : list string) : bool :=
  let relativePath := path_relative (cwd h) basePath filePath in
  if startsWith relativePath ".." || isAbsolute relativePath then true
  else exclude_loop relativePath ignorePatterns.

(** The loop of [shouldInclude]; here the [catch] answers [false]. *)
Fixpoint include_loop (rel : string) (patterns : list string) : bool :=
  match patterns with
  | [] => false
  | p :: rest =>
      match matchPattern rel p with
      | None => false
      | Some true => true
      | Some false => include_loop rel rest
      end
  end.

Definition shouldInclude (filePath basePath : string)
    (includePatterns : list string) : bool :=
  let relativePath := path_relative (cwd h) basePath filePath in
  if startsWith relativePath ".." || isAbsolute relativePath then false
  else
    let isDirectory := false in
    let relStr := if isDirectory then relativePath +:+ "/" else relativePath in
    include_loop relStr includePatterns.

End Patterns.

(** ** Building the pattern sets of a query ([query_parsing]) *)

Inductive PatternsArg :=
| PString (s : string)
| PSet (s : list string).

Definition patterns_truthy (o : option PatternsArg) : bool :=
  match o with
  | None => false
  | Some (PString s) => nonempty s
  | Some (PSet _) => true
  end.

(** The number of bytes of the separator (a comma or a white-space
    character) a text begins with, [0] when it begins with none. *)
Definition separator_width (s : string) : nat :=
  match s with
  | String c _ =>
      if Ascii.eqb c ","%char then 1%nat else QueryParserUtils.space_width s
  | EmptyString => 0%nat
  end.

(** A separator ends the piece at hand unless a run of separators is under
    way; any other byte goes to the piece at hand. *)
Definition cut (in_run : bool) (pieces : list string) : list string :=
  if in_run then pieces else EmptyString :: pieces.

Definition keep (c : ascii) (pieces : list string) : list string :=
  match pieces with
  | w :: ws => String c w :: ws
  | [] => [String c EmptyString]
  end.

(** [skip] counts the bytes of the current separator that are still to be
    passed over. *)
Fixpoint split_from (skip : nat) (in_run : bool) (s : string) : list string :=
  match s with
  | EmptyString => [EmptyString]
  | String c s' =>
      match skip with
      | S k => split_from k in_run s'
      | O =>
          match separator_width s with
          | S k => cut in_run (split_from k true s')
          | O => keep c (split_from 0 false s')
          end
      end
  end.

(** [s.split(/[,\s]+/)]: cut at every maximal run of separators. *)
Definition split_runs (in_run : bool) (s : string) : list string :=
  split_from 0 in_run s.

Definition invalid_pattern_text (p : string) : string :=
  "Invalid pattern: " +:+ p +:+ ". Only alphanumeric characters, dash (-), underscore (_), "
  +:+ "dot (.), forward slash (/), plus (+), and asterisk (*) are allowed.".

(** The loop of [parsePatterns]; the validator is the one [query_parsing]
    imports, that of [utils/query_parser_utils]. *)
Fixpoint parsePatterns_loop (patterns normalized : list string)
    : Outcome (list string) :=
  match patterns with
  | [] => Ok normalized
  | p :: rest =>
      if negb (nonempty p) then parsePatterns_loop rest normalized
      else if negb (QueryParserUtils.isValidPattern p)
      then Throw (InvalidPatternError (invalid_pattern_text p))
      else parsePatterns_loop rest
             (set_add normalized (QueryParserUtils.normalizePattern p))
  end.

Definition parsePatterns (pattern : PatternsArg) : Outcome (list string) :=
  let patterns :=
    match pattern with
    | PString s => split_runs false s
    | PSet s => s
    end in
  parsePatterns_loop patterns [].

(** The pattern part of [parseQuery] (lines "Combine default ignore patterns"
    to the end).  [DEFAULT_IGNORE_PATTERNS] lives in [utils/ignore_patterns],
    which is imported but not part of the sources at hand: it is the
    argument [defaults].  [query] is what [parseRemoteRepo] or
    [parseLocalDirPath] returned. *)
Definition parseQuery_merge (defaults : list string) (uuid : string)
    (query : IngestionQuery) (max_file_size : Z)
    (include_patterns ignore_patterns : option PatternsArg)
    : Outcome IngestionQuery :=
  let ignore_patterns_set := new_Set defaults in
  ignore_patterns_set ←
    match ignore_patterns with
    | Some arg =>
        if patterns_truthy ignore_patterns
        then ps ← parsePatterns arg; Ok (set_add_all ignore_patterns_set ps)
        else Ok ignore_patterns_set
    | None => Ok ignore_patterns_set
    end;
  '(parsed_include, ignore_patterns_set) ←
    match include_patterns with
    | Some arg =>
        if patterns_truthy include_patterns
        then ps ← parsePatterns arg;
             Ok (Some ps, fold_left set_delete ps ignore_patterns_set)
        else Ok (None, ignore_patterns_set)
    | None => Ok (None, ignore_patterns_set)
    end;
  let sp := spread query in
  Ok (createIngestionQuery uuid
        {| p_user_name := p_user_name sp; p_repo_name := p_repo_name sp;
           p_local_path := p_local_path sp; p_url := p_url sp;
           p_slug := p_slug sp; p_id := p_id sp;
           p_subpath := p_subpath sp; p_type := p_type sp;
           p_branch := p_branch sp; p_commit := p_commit sp;
           p_max_file_size := Some max_file_size;
           p_ignore_patterns := Some ignore_patterns_set;
           p_include_patterns := parsed_include |}).

(** [applyPatterns], the route the editor extension takes. *)
Definition applyPatterns (uuid : string) (query : IngestionQuery)
    (max_file_size : Z) (ignore_arg include_arg : list string)
    : IngestionQuery :=
  let ignoreSet := new_Set (map QueryParserUtils.normalizePattern ignore_arg) in
  let includeSet := new_Set (map QueryParserUtils.normalizePattern include_arg) in
  let sp := spread query in
  createIngestionQuery uuid
    {| p_user_name := p_user_name sp; p_repo_name := p_repo_name sp;
       p_local_path := p_local_path sp; p_url := p_url sp;
       p_slug := p_slug sp; p_id := p_id sp;
       p_subpath := p_subpath sp; p_type := p_type sp;
       p_branch := p_branch sp; p_commit := p_commit sp;
       p_max_file_size := Some max_file_size;
       p_ignore_patterns :=
         Some (new_Set (ignore_patterns query ++ ignoreSet));
       p_include_patterns :=
         match includeSet with
         | [] => include_patterns query
         | _ => Some includeSet
         end |}.

(** [parseLocalDirPath]: [uuid] is what its call of [uuidv4()] returns,
    [uuid'] what a further call inside [createIngestionQuery] would. *)
Definition parseLocalDirPath (cwd uuid uuid' path_str : string) : IngestionQuery :=
  let absolute_path := path_resolve cwd path_str in
  let id := uuid in
  let slug := basename absolute_path in
  createIngestionQuery uuid'
    {| p_user_name := None; p_repo_name := None;
       p_local_path := Some absolute_path; p_url := None;
       p_slug := Some slug; p_id := Some id;
       p_subpath := None; p_type := Some "tree";
       p_branch := None; p_commit := None;
       p_max_file_size := None;
       p_ignore_patterns := Some (new_Set []);
       p_include_patterns := None |}.

(** ** References to a repository ([utils/query_parser_utils], [utils/query_parser]) *)

(** The hexadecimal digits, of either case. *)
Definition is_hex (c : ascii) : bool :=
  includes_char "0123456789ABCDEFabcdef" c.

(** The functions of [utils/query_parser_utils.ts] that read a repository
    reference; [query_parsing] imports these. *)
Module QueryParserUtilsUrl.

(** [/^[0-9a-f]{7,40}$/i.test(hash)]: 7 to 40 code units, each a
    hexadecimal digit.  Without the [u] flag a code unit above 127 matches no
    ASCII letter. *)
Definition isValidGitCommitHash (hash : string) : bool :=
  all_chars is_hex hash
  && Nat.leb 7 (String.length hash) && Nat.leb (String.length hash) 40.

(** [path.split('/').filter(p => p.length > 0)], of which the first two
    parts are returned. *)
Definition getUserAndRepoFromPath (path : string) : Outcome (string * string) :=
  let parts := segments path in
  match parts with
  | user :: repo :: _ => Ok (user, repo)
  | _ => Throw (Error "Invalid repository path. Must be in format: user/repo")
  end.

End QueryParserUtilsUrl.

(** Their namesakes of [utils/query_parser.ts]. *)
Module QueryParserUrl.

(** [commit.length === 40 && [...commit].every(c => HEX_DIGITS.has(c))]. *)
Definition isValidGitCommitHash (commit : string) : bool :=
  (js_length commit =? 40) && all_chars is_hex commit.

End QueryParserUrl.

(** ** Nodes and traversal statistics ([types/filesystem_schema]) *)

Inductive FileSystemNodeType := DIRECTORY | FILE.

Definition type_eqb (a b : FileSystemNodeType) : bool :=
  match a, b with
  | DIRECTORY, DIRECTORY | FILE, FILE => true
  | _, _ => false
  end.

Inductive FileSystemNode := mkNode {
  name : string;
  type : FileSystemNodeType;
  path_str : string;
  path : string;
  size : Z;
  file_count : Z;
  dir_count : Z;
  depth : Z;
  children : list FileSystemNode
}.

(** The constructor: every counter starts at zero, no children. *)
Definition new_FileSystemNode (name : string) (type : FileSystemNodeType)
    (path_str path : string) : FileSystemNode :=
  mkNode name type path_str path 0 0 0 0 [].

Definition set_name (n : FileSystemNode) (v : string) : FileSystemNode :=
  mkNode v (type n) (path_str n) (path n) (size n) (file_count n)
    (dir_count n) (depth n) (children n).

Definition set_path_str (n : FileSystemNode) (v : string) : FileSystemNode :=
  mkNode (name n) (type n) v (path n) (size n) (file_count n)
    (dir_count n) (depth n) (children n).

Definition set_size (n : FileSystemNode) (v : Z) : FileSystemNode :=
  mkNode (name n) (type n) (path_str n) (path n) v (file_count n)
    (dir_count n) (depth n) (children n).

Definition set_file_count (n : FileSystemNode) (v : Z) : FileSystemNode :=
  mkNode (name n) (type n) (path_str n) (path n) (size n) v
    (dir_count n) (depth n) (children n).

Definition set_dir_count (n : FileSystemNode) (v : Z) : FileSystemNode :=
  mkNode (name n) (type n) (path_str n) (path n) (size n) (file_count n)
    v (depth n) (children n).

Definition set_depth (n : FileSystemNode) (v : Z) : FileSystemNode :=
  mkNode (name n) (type n) (path_str n) (path n) (size n) (file_count n)
    (dir_count n) v (children n).

Definition set_children (n : FileSystemNode) (v : list FileSystemNode)
    : FileSystemNode :=
  mkNode (name n) (type n) (path_str n) (path n) (size n) (file_count n)
    (dir_count n) (depth n) v.

Definition push_child (n child : FileSystemNode) : FileSystemNode :=
  set_children n (children n ++ [child]).

Record FileSystemStats := mkFSStats {
  visited : gset string;
  total_files : Z;
  total_size : Z
}.

Definition new_FileSystemStats : FileSystemStats := mkFSStats ∅ 0 0.

(** *** Sorting the children *)

(** [Array.prototype.sort] is stable; with a consistent comparator its result
    is that of any stable sort, here insertion from the right. *)
Fixpoint sort_insert {A} (cmp : A -> A -> Z) (x : A) (l : list A) : list A :=
  match l with
  | [] => [x]
  | y :: l' => if cmp x y <=? 0 then x :: l else y :: sort_insert cmp x l'
  end.

Fixpoint array_sort {A} (cmp : A -> A -> Z) (l : list A) : list A :=
  match l with
  | [] => []
  | x :: l' => sort_insert cmp x (array_sort cmp l')
  end.

Definition sortKey (h : Host) (child : FileSystemNode) : Z * string :=
  let name := toLowerCase h (name child) in
  match type child with
  | FILE =>
      if str_eqb name "readme.md" then (0, name)
      else (if startsWith name "." then 2 else 1, name)
  | DIRECTORY => (if startsWith name "." then 4 else 3, name)
  end.

Definition compareChildren (h : Host) (a b : FileSystemNode) : Z :=
  let '(orderA, nameA) := sortKey h a in
  let '(orderB, nameB) := sortKey h b in
  if negb (orderA =? orderB) then orderA - orderB
  else localeCompare h nameA nameB.

Definition sortChildren (h : Host) (this : FileSystemNode) : Outcome FileSystemNode :=
  match type this with
  | FILE => Throw (Error "Cannot sort children of a non-directory node")
  | DIRECTORY =>
      Ok (set_children this (array_sort (compareChildren h) (children this)))
  end.

(** ** Text detection ([utils/textfile_checker_utils]) *)

Definition getEncodingList : list string :=
  ["utf-8"; "utf-16"; "utf-16le"; "utf-8-sig"; "latin1"].

(** [haystack.includes(needle)]. *)
Fixpoint str_includes (haystack needle : string) : bool :=
  startsWith haystack needle ||
  match haystack with
  | EmptyString => false
  | String _ rest => str_includes rest needle
  end.

Fixpoint isTextFile_loop (h : Host) (filePath : string) (encodings : list string)
    : bool :=
  match encodings with
  | [] => false
  | encoding :: rest =>
      match readFileSync h filePath encoding with
      | HOk _ => true
      | HFail message =>
          if str_includes message "encoding"
          then isTextFile_loop h filePath rest
          else false
      end
  end.

Definition isTextFile (h : Host) (filePath : string) : bool :=
  match readSample h filePath with
  | None => false
  | Some chunk =>
      if negb (nonempty chunk) then true
      else if includes_char chunk "000"%char || includes_char chunk "255"%char
      then false
      else isTextFile_loop h filePath getEncodingList
  end.

(** ** The notebook transcoder ([utils/notebook_utils]) *)

Definition nl : string := String "010"%char EmptyString.

Definition triple_quote : string :=
  String "034"%char (String "034"%char (String "034"%char EmptyString)).

(** A JavaScript value read out of a parsed document; [None] is
    [undefined]. *)
Definition JsOpt : Type := option JsValue.

Fixpoint js_toString (v : JsValue) : string :=
  match v with
  | VNull => "null"
  | VBool true => "true"
  | VBool false => "false"
  | VNum text _ => text
  | VStr s => s
  | VArr elems =>
      join "," (map (fun e => match e with
                              | VNull => EmptyString
                              | _ => js_toString e
                              end) elems)
  | VObj _ => "[object Object]"
  end.

Definition opt_toString (v : JsOpt) : string :=
  match v with
  | None => "undefined"
  | Some v => js_toString v
  end.

(** [arr.join(sep)] on parsed values: [null] and [undefined] render empty. *)
Definition js_join (sep : string) (elems : list JsOpt) : string :=
  join sep (map (fun e => match e with
                          | None | Some VNull => EmptyString
                          | Some v => js_toString v
                          end) elems).

Definition truthy (v : JsOpt) : bool :=
  match v with
  | None | Some VNull => false
  | Some (VBool b) => b
  | Some (VNum _ nz) => nz
  | Some (VStr s) => nonempty s
  | Some (VArr _) | Some (VObj _) => true
  end.

Fixpoint lookup_field (k : string) (fields : list (string * JsValue)) : JsOpt :=
  match fields with
  | [] => None
  | (k', v) :: rest => if str_eqb k k' then Some v else lookup_field k rest
  end.

Section Notebook.

Variable h : Host.

Definition type_error {A} (what : string) : Outcome A :=
  Throw (TypeError (type_error_message h what)).

(** [v.k]: reading a property of [null] or [undefined] throws. *)
Definition prop (v : JsOpt) (k : string) : Outcome JsOpt :=
  match v with
  | None | Some VNull => type_error ("read " +:+ k)
  | Some (VObj fields) => Ok (lookup_field k fields)
  | Some _ => Ok None
  end.

(** [Array.isArray(v) ? v : [v]]. *)
Definition as_list (v : JsOpt) : list JsOpt :=
  match v with
  | Some (VArr elems) => map Some elems
  | _ => [v]
  end.

Definition extractOutput (output : JsOpt) : Outcome (list JsOpt) :=
  outputType ← prop output "output_type";
  match outputType with
  | Some (VStr t) =>
      if str_eqb t "stream" then
        text ← prop output "text"; Ok (as_list text)
      else if str_eqb t "execute_result" || str_eqb t "display_data" then
        data ← prop output "data";
        textData ← prop data "text/plain";
        Ok (as_list textData)
      else if str_eqb t "error" then
        ename ← prop output "ename";
        evalue ← prop output "evalue";
        Ok [Some (VStr ("Error: " +:+ opt_toString ename +:+ ": "
                        +:+ opt_toString evalue))]
      else Throw (Error ("Unknown output type: " +:+ opt_toString outputType))
  | _ => Throw (Error ("Unknown output type: " +:+ opt_toString outputType))
  end.

Fixpoint extract_all (outputs : list JsOpt) : Outcome (list JsOpt) :=
  match outputs with
  | [] => Ok []
  | o :: rest =>
      lines ← extractOutput o;
      more ← extract_all rest;
      Ok (lines ++ more)%list
  end.

(** [line.endsWith('\n') ? line : line + '\n']; only a string has
    [endsWith]. *)
Fixpoint format_lines (lines : list JsOpt) : Outcome (list string) :=
  match lines with
  | [] => Ok []
  | Some (VStr line) :: rest =>
      more ← format_lines rest;
      Ok ((if endsWith line nl then line else line +:+ nl) :: more)
  | _ :: _ => type_error "endsWith"
  end.

(** The elements a [for ... of] over a parsed value visits. *)
Definition iterate (v : JsOpt) : Outcome (list JsOpt) :=
  match v with
  | Some (VArr elems) => Ok (map Some elems)
  | Some (VStr s) =>
      Ok (map (fun c => Some (VStr (String c EmptyString))) (list_ascii_of_string s))
  | _ => type_error "iterate"
  end.

(** [outputs && outputs.length > 0]. *)
Definition has_outputs (outputs : JsOpt) : bool :=
  match outputs with
  | Some (VArr elems) => negb (Nat.eqb (length elems) 0)
  | Some (VStr s) => nonempty s
  | Some (VObj fields) =>
      match lookup_field "length" fields with
      | Some v => gt_zero h v
      | None => false
      end
  | _ => false
  end.

Definition is_cell_type (v : JsOpt) : bool :=
  match v with
  | Some (VStr t) => str_eqb t "markdown" || str_eqb t "code" || str_eqb t "raw"
  | _ => false
  end.

(** [None] is the [null] returned for an empty cell.  The cell text is
    rendered to a string on return; its only consumer is [join]. *)
Definition processCell (cell : JsOpt) (includeOutput : bool)
    : Outcome (option string) :=
  cellType ← prop cell "cell_type";
  if negb (is_cell_type cellType)
  then Throw (Error ("Unknown cell type: " +:+ opt_toString cellType))
  else
    source ← prop cell "source";
    let cellStr :=
      match source with
      | Some (VArr elems) => Some (VStr (js_join EmptyString (map Some elems)))
      | _ => source
      end in
    if negb (truthy cellStr) then Ok None
    else if is_cell_type cellType
              && negb (match cellType with
                       | Some (VStr t) => str_eqb t "code"
                       | _ => false
                       end)
    then Ok (Some (triple_quote +:+ nl +:+ opt_toString cellStr +:+ nl +:+ triple_quote))
    else
      outputs ← prop cell "outputs";
      if includeOutput && has_outputs outputs then
        outs ← iterate outputs;
        outputLines ← extract_all outs;
        formatted ← format_lines outputLines;
        Ok (Some (opt_toString cellStr +:+ nl +:+ "# Output:" +:+ nl +:+ "#   "
                  +:+ join (nl +:+ "#   ") formatted))
      else Ok (Some (opt_toString cellStr)).

Fixpoint process_cells (cells : list JsOpt) (includeOutput : bool)
    : Outcome (list string) :=
  match cells with
  | [] => Ok []
  | cell :: rest =>
      cellStr ← processCell cell includeOutput;
      more ← process_cells rest includeOutput;
      Ok (match cellStr with
          | Some s => if nonempty s then s :: more else more
          | None => more
          end)
  end.

(** [worksheets.flatMap(ws => ws.cells)]. *)
Fixpoint flatMap_cells (worksheets : list JsValue) : Outcome (list JsOpt) :=
  match worksheets with
  | [] => Ok []
  | ws :: rest =>
      cells ← prop (Some ws) "cells";
      more ← flatMap_cells rest;
      Ok (as_list cells ++ more)%list
  end.

Definition processNotebook (filePath : string) (includeOutput : bool)
    : Outcome string :=
  fileContent ← lift_host (readFileSync h filePath "utf-8");
  match JSON_parse h fileContent with
  | None =>
      Throw (InvalidNotebookError ("Invalid JSON in notebook: " +:+ filePath))
  | Some notebook =>
      worksheets ← prop (Some notebook) "worksheets";
      cells ←
        (if truthy worksheets then
           match worksheets with
           | Some (VArr wss) => flatMap_cells wss
           | _ => type_error "flatMap"
           end
         else
           c ← prop (Some notebook) "cells"; iterate c);
      strs ← process_cells cells includeOutput;
      Ok (join (nl +:+ nl)
            ("# Jupyter notebook converted to Python script." :: strs) +:+ nl)
  end.

End Notebook.

(** ** The [content] accessor of a node *)

Fixpoint content_loop (h : Host) (path : string) (encodings : list string)
    : string :=
  match encodings with
  | [] => "Error: Unable to decode file with available encodings"
  | encoding :: rest =>
      match readFileSync h path encoding with
      | HOk content => content
      | HFail message =>
          if str_includes message "decode" || str_includes message "encoding"
          then content_loop h path rest
          else "Error reading file: " +:+ exn_toString (SystemError message)
      end
  end.

Definition content (h : Host) (this : FileSystemNode) : Outcome string :=
  match type this with
  | DIRECTORY => Throw (Error "Cannot read content of a directory node")
  | FILE =>
      if negb (isTextFile h (path this)) then Ok "[Non-text file]"
      else if str_eqb (extname (path this)) ".ipynb" then
        match processNotebook h (path this) true with
        | Ok s => Ok s
        | Throw exc => Ok ("Error processing notebook: " +:+ exn_toString exc)
        | OutOfFuel => OutOfFuel
        end
      else Ok (content_loop h (path this) getEncodingList)
  end.

Definition contentString (h : Host) (this : FileSystemNode) : Outcome string :=
  content h this.

(** ** The traversal engine ([ingestion.ts]) *)

(** [utils/path_utils]: the link is safe when its real target does not leave
    the real base directory; any failure counts as unsafe. *)
Definition isSafeSymlink (h : Host) (symlink_path base_path : string) : bool :=
  match realpath h symlink_path, realpath h base_path with
  | HOk target_path, HOk base_resolved =>
      let relative := path_relative (cwd h) base_resolved target_path in
      negb (startsWith relative "..") && negb (isAbsolute relative)
  | _, _ => false
  end.

Definition limitExceeded (stats : FileSystemStats) (depth : Z) : bool :=
  if depth >? MAX_DIRECTORY_DEPTH then true
  else if total_files stats >=? MAX_FILES then true
  else if total_size stats >=? MAX_TOTAL_SIZE_BYTES then true
  else false.

Definition add_visited (stats : FileSystemStats) (p : string) : FileSystemStats :=
  mkFSStats ({[ p ]} ∪ visited stats) (total_files stats) (total_size stats).

(** The state a call works on: the node being filled and the statistics
    shared by the whole traversal. *)
Definition Walk : Type := FileSystemNode * FileSystemStats.

Section Traversal.

Variable h : Host.

Definition processFile (filePath : string) (parent_node : FileSystemNode)
    (stats : FileSystemStats) (local_path : string) : Outcome Walk :=
  fileStats ← lift_host (stat h filePath);
  let file_size := st_size fileStats in
  if total_size stats + file_size >? MAX_TOTAL_SIZE_BYTES
  then Ok (parent_node, stats)
  else
    let stats := mkFSStats (visited stats) (total_files stats + 1)
                   (total_size stats + file_size) in
    if total_files stats >? MAX_FILES then Ok (parent_node, stats)
    else
      let child :=
        new_FileSystemNode (basename filePath) FILE
          (path_relative (cwd h) local_path filePath) filePath in
      let child := set_size child file_size in
      let child := set_file_count child 1 in
      let child := set_depth child (depth parent_node + 1) in
      let parent_node := push_child parent_node child in
      let parent_node := set_size parent_node (size parent_node + file_size) in
      let parent_node := set_file_count parent_node (file_count parent_node + 1) in
      Ok (parent_node, stats).

Section Loop.

(** The recursive call of [processNode] on a child directory. *)
Variable recur : FileSystemNode -> FileSystemStats -> Outcome Walk.
Variable query : IngestionQuery.

(** The loop body from the [visited] test on; returning the state
    unchanged is the [continue]. *)
Definition visit (node : FileSystemNode) (stats : FileSystemStats)
    (symlink_path : option string) (targetPath : string) : Outcome Walk :=
  if bool_decide (targetPath ∈ visited stats) then Ok (node, stats)
  else
    let stats := add_visited stats targetPath in
    if shouldExclude h targetPath (local_path query) (ignore_patterns query)
    then Ok (node, stats)
    else if match include_patterns query with
            | Some inc => negb (shouldInclude h targetPath (local_path query) inc)
            | None => false
            end
    then Ok (node, stats)
    else
      targetStats ← lift_host (stat h targetPath);
      match st_kind targetStats with
      | KFile => processFile targetPath node stats (local_path query)
      | KDirectory =>
          let child :=
            new_FileSystemNode (basename targetPath) DIRECTORY
              (path_relative (cwd h) (local_path query) targetPath)
              targetPath in
          let child := set_depth child (depth node + 1) in
          let child :=
            match symlink_path with
            | Some sp => set_path_str (set_name child (basename sp)) sp
            | None => child
            end in
          '(child, stats) ← recur child stats;
          let node := push_child node child in
          let node := set_size node (size node + size child) in
          let node := set_file_count node (file_count node + file_count child) in
          let node := set_dir_count node (dir_count node + (1 + dir_count child)) in
          Ok (node, stats)
      | KOther =>
          Throw (Error ("Unexpected error: " +:+ targetPath
                        +:+ " is neither a file nor a directory"))
      end.

Definition process_entry (node : FileSystemNode) (stats : FileSystemStats)
    (entry : Dirent) : Outcome Walk :=
  let entryPath := path_join (path node) (d_name entry) in
  if d_isSymbolicLink entry then
    if negb (isSafeSymlink h entryPath (local_path query))
    then Ok (node, stats)
    else
      targetPath ← lift_host (realpath h entryPath);
      visit node stats (Some entryPath) targetPath
  else visit node stats None entryPath.

(** [for (const entry of entries)]. *)
Fixpoint process_entries (entries : list Dirent) (node : FileSystemNode)
    (stats : FileSystemStats) : Outcome Walk :=
  match entries with
  | [] => Ok (node, stats)
  | entry :: rest =>
      '(node, stats) ← process_entry node stats entry;
      process_entries rest node stats
  end.

End Loop.

(** [processNode]; the recursion is on [fuel], which bounds the nesting of
    calls. *)
Fixpoint processNode (fuel : nat) (node : FileSystemNode)
    (query : IngestionQuery) (stats : FileSystemStats) : Outcome Walk :=
  match fuel with
  | O => OutOfFuel
  | S fuel' =>
      if limitExceeded stats (depth node) then Ok (node, stats)
      else
        entries ← lift_host (readdir h (path node));
        '(node, stats) ←
          process_entries (fun child st => processNode fuel' child query st)
            query entries node stats;
        node ← sortChildren h node;
        Ok (node, stats)
  end.

(** A call at depth [0] nests at most [MAX_DIRECTORY_DEPTH + 2] deep. *)
Definition traversal_fuel : nat := 22.

(** [data.config?.ignore_patterns] on the parsed TOML document. *)
Definition get_field (v : JsOpt) (k : string) : JsOpt :=
  match v with
  | Some (VObj fields) => lookup_field k fields
  | _ => None
  end.

Definition string_items (patterns : list JsOpt) : list string :=
  omap (fun v => match v with Some (VStr s) => Some s | _ => None end) patterns.

(** [applyGitingestFile] mutates the query; here it returns it. *)
Definition applyGitingestFile (filePath : string) (query : IngestionQuery)
    : IngestionQuery :=
  let gitingestPath := path_join filePath ".gitingest" in
  if negb (access h gitingestPath) then query
  else
    match readFileSync h gitingestPath "utf-8" with
    | HFail _ => query
    | HOk content =>
        match toml_parse h content with
        | None => query
        | Some data =>
            let ignorePatterns :=
              get_field (get_field (Some data) "config") "ignore_patterns" in
            if negb (truthy ignorePatterns) then query
            else
              let patterns := as_list ignorePatterns in
              let validPatterns := new_Set (string_items patterns) in
              match validPatterns with
              | [] => query
              | _ =>
                  set_ignore_patterns query
                    (set_add_all (ignore_patterns query) validPatterns)
              end
        end
    end.

End Traversal.

(** ** The digest formatter ([output_formatters]) *)

Definition or_undefined (o : option string) : string :=
  match o with
  | Some s => s
  | None => "undefined"
  end.

Definition createSummaryPrefix (h : Host) (query : IngestionQuery)
    (single_file : bool) : string :=
  let parts :=
   ((if truthy_str (user_name query)
     then ["Repository: " +:+ or_undefined (user_name query) +:+ "/"
           +:+ or_undefined (repo_name query)]
     else ["Directory: " +:+ slug query])
    ++
    (if truthy_str (commit query)
     then ["Commit: " +:+ or_undefined (commit query)]
     else if truthy_str (branch query)
             && negb (let b := toLowerCase h (or_undefined (branch query)) in
                      str_eqb b "main" || str_eqb b "master")
     then ["Branch: " +:+ or_undefined (branch query)]
     else [])
    ++
    (if negb (str_eqb (subpath query) "/") && negb single_file
     then ["Subpath: " +:+ subpath query]
     else []))%list in
  join nl parts +:+ nl.

Definition fence : string :=
  String "096"%char (String "096"%char (String "096"%char EmptyString)).

(** [name.split('.').pop() || '']. *)
Definition name_ext (name : string) : string :=
  List.last (split_on "."%char name) EmptyString.

Fixpoint gatherFileContents (h : Host) (node : FileSystemNode) : Outcome string :=
  match node with
  | mkNode name FILE path_str _ _ _ _ _ _ =>
      c ← contentString h node;
      Ok ("### " +:+ path_str +:+ nl +:+ fence +:+ name_ext name +:+ nl
          +:+ c +:+ nl +:+ fence +:+ nl)
  | mkNode _ DIRECTORY _ _ _ _ _ _ children =>
      parts ←
        (fix gather_all (l : list FileSystemNode) : Outcome (list string) :=
           match l with
           | [] => Ok []
           | child :: rest =>
               s ← gatherFileContents h child;
               more ← gather_all rest;
               Ok (s :: more)
           end) children;
      Ok (join nl parts)
  end.

(** [createTreeStructure] names a nameless node after the slug; the text and
    the renamed subtree are both returned. *)
Fixpoint createTreeStructure (query : IngestionQuery) (node : FileSystemNode)
    (prefix : string) (is_last : bool) : string * FileSystemNode :=
  match node with
  | mkNode name0 type path_str path size file_count dir_count depth children =>
      let name := if nonempty name0 then name0 else slug query in
      let current_prefix := if is_last then "└── " else "├── " in
      let display_name :=
        match type with
        | DIRECTORY => name +:+ "/"
        | FILE => name
        end in
      let line := prefix +:+ current_prefix +:+ display_name +:+ nl in
      match type, children with
      | DIRECTORY, _ :: _ =>
          let new_prefix := prefix +:+ (if is_last then "    " else "│   ") in
          let '(text, children') :=
            (fix each (l : list FileSystemNode) : string * list FileSystemNode :=
               match l with
               | [] => (EmptyString, [])
               | child :: rest =>
                   let '(s, child') :=
                     createTreeStructure query child new_prefix
                       (match rest with [] => true | _ => false end) in
                   let '(more, rest') := each rest in
                   (s +:+ more, child' :: rest')
               end) children in
          (line +:+ text,
           mkNode name type path_str path size file_count dir_count depth children')
      | _, _ =>
          (line,
           mkNode name type path_str path size file_count dir_count depth children)
      end
  end.

(** [Math.ceil(text.length / 4)] and its rendering. *)
Definition formatTokenCount (h : Host) (text : string) : option string :=
  let total_tokens := (js_length text + 3) / 4 in
  if total_tokens >=? 1000000 then Some (toFixed1 h total_tokens 1000000 +:+ "M")
  else if total_tokens >=? 1000 then Some (toFixed1 h total_tokens 1000 +:+ "k")
  else Some (pretty total_tokens).

Definition Digest : Type := string * string * string.

Definition formatNode (h : Host) (node : FileSystemNode) (query : IngestionQuery)
    : Outcome Digest :=
  let is_single_file := type_eqb (type node) FILE in
  let summary := createSummaryPrefix h query is_single_file in
  summary ←
    match type node with
    | DIRECTORY =>
        Ok (summary +:+ "Files analyzed: " +:+ pretty (file_count node) +:+ nl)
    | FILE =>
        c ← content h node;
        Ok (summary +:+ "File: " +:+ name node +:+ nl
            +:+ "Lines: "
            +:+ toLocaleString h (Z.of_nat (length (split_on "010"%char c)))
            +:+ nl)
    end;
  let '(tree_text, node) := createTreeStructure query node EmptyString true in
  let tree := "Directory structure:" +:+ nl +:+ tree_text in
  content ← gatherFileContents h node;
  let summary :=
    match formatTokenCount h (tree +:+ content) with
    | Some token_estimate =>
        if nonempty token_estimate
        then summary +:+ nl +:+ "Estimated tokens: " +:+ token_estimate
        else summary
    | None => summary
    end in
  Ok (summary, tree, content).

(** ** The entry point *)

Section Ingest.

Variable h : Host.

(** The part of [ingestQuery] up to the call of [formatNode]: the target
    path, the query after [applyGitingestFile], and the node. *)
Definition ingest_node (query : IngestionQuery)
    : IngestionQuery * Outcome FileSystemNode :=
  let subpath := path_join_all (segments (subpath query)) in
  let targetPath := path_join (local_path query) subpath in
  let query := applyGitingestFile h targetPath query in
  (query,
   if negb (access h targetPath)
   then Throw (Error (slug query +:+ " cannot be found"))
   else
     stats ← lift_host (stat h targetPath);
     let isFile := match st_kind stats with KFile => true | _ => false end in
     if (nonempty (type_ query) && str_eqb (type_ query) "blob") || isFile then
       if negb isFile
       then Throw (Error ("Path " +:+ targetPath +:+ " is not a file"))
       else
         let relativePath := path_relative (cwd h) (local_path query) targetPath in
         let file_node :=
           new_FileSystemNode (basename targetPath) FILE relativePath targetPath in
         let file_node := set_size file_node (st_size stats) in
         let file_node := set_file_count file_node 1 in
         c ← content h file_node;
         if negb (nonempty c)
         then Throw (Error ("File " +:+ name file_node +:+ " has no content"))
         else Ok file_node
     else
       let root_node :=
         new_FileSystemNode (basename targetPath) DIRECTORY
           (path_relative (cwd h) (local_path query) targetPath) targetPath in
       let stats_tracker := new_FileSystemStats in
       '(root_node, _) ← processNode h traversal_fuel root_node query stats_tracker;
       Ok root_node).

(** [ingestQuery]: the query as the call leaves it, and the digest. *)
Definition ingestQuery (query : IngestionQuery)
    : IngestionQuery * Outcome Digest :=
  let '(query, node) := ingest_node query in
  (query, node ← node; formatNode h node query).

End Ingest.

(** ** An in-memory host

    A file system given as a table from absolute paths to entries; used to
    run the engine on concrete trees. *)

Inductive MemEntry :=
| MFile (size : Z) (text : string)
| MDir (names : list string)
| MLink (target : string)
| MOther.

Definition MemFs : Type := list (string * MemEntry).

Fixpoint mem_lookup (fs : MemFs) (p : string) : option MemEntry :=
  match fs with
  | [] => None
  | (q, e) :: rest => if str_eqb p q then Some e else mem_lookup rest p
  end.

(** One level of link resolution is all the examples need. *)
Definition mem_realpath (fs : MemFs) (p : string) : HostResult string :=
  match mem_lookup fs p with
  | Some (MLink target) =>
      match mem_lookup fs target with
      | Some _ => HOk target
      | None => HFail ("ENOENT: no such file or directory, realpath '" +:+ p +:+ "'")
      end
  | Some _ => HOk p
  | None => HFail ("ENOENT: no such file or directory, realpath '" +:+ p +:+ "'")
  end.

Definition mem_stat (fs : MemFs) (p : string) : HostResult Stats :=
  match mem_realpath fs p with
  | HFail m => HFail m
  | HOk q =>
      match mem_lookup fs q with
      | Some (MFile size _) => HOk (mkStats KFile size)
      | Some (MDir _) => HOk (mkStats KDirectory 4096)
      | Some MOther => HOk (mkStats KOther 0)
      | _ => HFail ("ENOENT: no such file or directory, stat '" +:+ p +:+ "'")
      end
  end.

Definition mem_is_link (fs : MemFs) (p : string) : bool :=
  match mem_lookup fs p with
  | Some (MLink _) => true
  | _ => false
  end.

Definition mem_readdir (fs : MemFs) (p : string) : HostResult (list Dirent) :=
  match mem_lookup fs p with
  | Some (MDir names) =>
      HOk (map (fun n => mkDirent n (mem_is_link fs (path_join p n))) names)
  | _ => HFail ("ENOTDIR: not a directory, scandir '" +:+ p +:+ "'")
  end.

Definition mem_text (fs : MemFs) (p : string) : option string :=
  match mem_realpath fs p with
  | HOk q =>
      match mem_lookup fs q with
      | Some (MFile _ text) => Some text
      | _ => None
      end
  | HFail _ => None
  end.

Definition code_unit_compare (a b : string) : Z :=
  match String.compare a b with
  | Lt => -1
  | Eq => 0
  | Gt => 1
  end.

(** One decimal of [n / d], rounding half up. *)
Definition decimal1 (n d : Z) : string :=
  let tenths := (10 * n + d / 2) / d in
  pretty (tenths / 10) +:+ "." +:+ pretty (tenths mod 10).

(** [parse] stands for both [JSON.parse] and the TOML parser. *)
Definition mem_host (fs : MemFs) (parse : string -> option JsValue) : Host :=
  {| cwd := "/";
     readdir := mem_readdir fs;
     realpath := mem_realpath fs;
     stat := mem_stat fs;
     access := fun p => match mem_lookup fs p with Some _ => true | None => false end;
     readSample := mem_text fs;
     readFileSync := fun p encoding =>
       match mem_text fs p with
       | Some text =>
           if str_eqb encoding "utf-8" then HOk text
           else HFail ("Unknown encoding: " +:+ encoding)
       | None => HFail ("ENOENT: no such file or directory, open '" +:+ p +:+ "'")
       end;
     JSON_parse := parse;
     toml_parse := parse;
     toLowerCase := lower_ascii;
     localeCompare := code_unit_compare;
     toLocaleString := fun n => pretty n;
     toFixed1 := decimal1;
     regexp_other := fun _ _ => None;
     type_error_message := fun what => what;
     gt_zero := fun _ => false |}.

Definition local_query (root : string) : IngestionQuery :=
  {| user_name := None; repo_name := None; local_path := root; url := None;
     slug := basename root; id := "0"; subpath := "/"; type_ := "tree";
     branch := None; commit := None; max_file_size := MAX_FILE_SIZE;
     ignore_patterns := []; include_patterns := None |}.


(** The tree of the specification's end-to-end example, with a symbolic link
    and a few more entries: used to run the engine in the examples below. *)
Definition example_fs : MemFs :=
  [("/root", MDir ["sub"; "a.md"; ".env"; "README.md"; "lnk"; ".git"]);
   ("/root/a.md", MFile 4 "# hi");
   ("/root/.env", MFile 3 "X=1");
   ("/root/README.md", MFile 2 "hi");
   ("/root/lnk", MLink "/root/sub");
   ("/root/.git", MDir ["HEAD"]);
   ("/root/.git/HEAD", MFile 5 "ref:x");
   ("/root/sub", MDir ["b.py"]);
   ("/root/sub/b.py", MFile 8 "print(1)")].

Definition example_host : Host := mem_host example_fs (fun _ => None).

(** A flat directory [/flat] of [n] regular files of one byte each, named
    [f], [f0], [f1], [f00], ... after the binary digits of their rank. *)
Fixpoint bits (p : positive) : string :=
  match p with
  | xH => EmptyString
  | xO q => String "0"%char (bits q)
  | xI q => String "1"%char (bits q)
  end.

Definition flat_name (i : nat) : string :=
  String "f"%char (bits (Pos.of_succ_nat i)).

Definition flat_entries (n : nat) : list Dirent :=
  map (fun i => mkDirent (flat_name i) false) (seq 0 n).

(** Five files more than the file budget admits. *)
Definition flat_count : nat := Z.to_nat (MAX_FILES + 5).

Definition flat_host (n : nat) : Host :=
  {| cwd := "/";
     readdir := fun p =>
       if str_eqb p "/flat" then HOk (flat_entries n)
       else HFail ("ENOTDIR: not a directory, scandir '" +:+ p +:+ "'");
     realpath := fun p => HOk p;
     stat := fun p =>
       if str_eqb p "/flat" then HOk (mkStats KDirectory 4096)
       else if startsWith p "/flat/f" then HOk (mkStats KFile 1)
       else HFail ("ENOENT: no such file or directory, stat '" +:+ p +:+ "'");
     access := fun p => str_eqb p "/flat" || startsWith p "/flat/f";
     readSample := fun p => if startsWith p "/flat/f" then Some "x" else None;
     readFileSync := fun p encoding =>
       if startsWith p "/flat/f" then
         if str_eqb encoding "utf-8" then HOk "x"
         else HFail ("Unknown encoding: " +:+ encoding)
       else HFail ("ENOENT: no such file or directory, open '" +:+ p +:+ "'");
     JSON_parse := fun _ => None;
     toml_parse := fun _ => None;
     toLowerCase := lower_ascii;
     localeCompare := code_unit_compare;
     toLocaleString := fun n => pretty n;
     toFixed1 := decimal1;
     regexp_other := fun _ _ => None;
     type_error_message := fun what => what;
     gt_zero := fun _ => false |}.

(** The directory of the size-budget example: [A] of 3 MB listed before [B]
    of 1 MB. *)
Definition budget_fs : MemFs :=
  [("/d", MDir ["A"; "B"]);
   ("/d/A", MFile (3 * 1024 * 1024) "a");
   ("/d/B", MFile (1 * 1024 * 1024) "b")].

Definition budget_host : Host := mem_host budget_fs (fun _ => None).

(** A notebook whose text is not JSON, requested on its own. *)
Definition notebook_fs : MemFs :=
  [("/nb", MDir ["bad.ipynb"]);
   ("/nb/bad.ipynb", MFile 1 "{")].

Definition notebook_host : Host := mem_host notebook_fs (fun _ => None).

Definition notebook_query : IngestionQuery :=
  {| user_name := None; repo_name := None; local_path := "/nb"; url := None;
     slug := "nb"; id := "0"; subpath := "/bad.ipynb"; type_ := "blob";
     branch := None; commit := None; max_file_size := MAX_FILE_SIZE;
     ignore_patterns := []; include_patterns := None |}.
(** * Specification predicates *)

(** An outcome that is not an [InvalidPatternError]. *)
Definition no_pattern_failure {A} (o : Outcome A) : Prop :=
  forall m, o <> Throw (InvalidPatternError m).

(** ** Globs

    The reading of a pattern as a glob: [*] stands for any run of characters,
    [?] for exactly one, anything else for itself.  No wildcard spans a line
    terminator. *)

(** Characters a glob may use without touching regular-expression syntax. *)
Definition glob_char (c : ascii) : bool :=
  is_ascii c && negb (includes_char "^$()[]{}|\+" c).


Inductive glob_match : string -> string -> Prop :=
| glob_end : glob_match EmptyString EmptyString
| glob_star_none p s :
    glob_match p s -> glob_match (String "*" p) s
| glob_star_more p c s :
    line_terminator c = false ->
    glob_match (String "*" p) s -> glob_match (String "*" p) (String c s)
| glob_question p c s :
    line_terminator c = false ->
    glob_match p s -> glob_match (String "?" p) (String c s)
| glob_literal c p s :
    c <> "*"%char -> c <> "?"%char ->
    glob_match p s -> glob_match (String c p) (String c s).

Definition glob_item (c : ascii) : item :=
  if Ascii.eqb c "*"%char then (AAny, Star)
  else if Ascii.eqb c "?"%char then (AAny, One)
  else (ALit c, One).

Definition glob_tokens_of (c : ascii) : list token :=
  if Ascii.eqb c "*"%char then [TDot; TStar]
  else if Ascii.eqb c "?"%char then [TDot]
  else [TLit c].

Fixpoint glob_tokens (p : string) : list token :=
  match p with
  | EmptyString => []
  | String c p' => glob_tokens_of c ++ glob_tokens p'
  end.

Fixpoint glob_items (p : string) : list item :=
  match p with
  | EmptyString => []
  | String c p' => glob_item c :: glob_items p'
  end.

(** The iteration inside [items_match], named. *)
Fixpoint star_match (a : atom) (r : list item) (s : string) : bool :=
  items_match r s ||
  match s with
  | String c s' => atom_accepts a c && star_match a r s'
  | EmptyString => false
  end.

(** ** Trees *)

(** Every node strictly below [n], parents before their children. *)
Fixpoint descendants (n : FileSystemNode) : list FileSystemNode :=
  match n with
  | mkNode _ _ _ _ _ _ _ _ children =>
      (fix below (l : list FileSystemNode) : list FileSystemNode :=
         match l with
         | [] => []
         | c :: rest => (c :: descendants c) ++ below rest
         end) children
  end.

(** [P] holds of [n] and of every node below it. *)
Definition node_all (P : FileSystemNode -> Prop) (n : FileSystemNode) : Prop :=
  Forall P (n :: descendants n).

Definition is_file (n : FileSystemNode) : bool := type_eqb (type n) FILE.
Definition is_directory (n : FileSystemNode) : bool := type_eqb (type n) DIRECTORY.

(** The retained FILE and DIRECTORY descendants of a node. *)
Definition files_below (n : FileSystemNode) : list FileSystemNode :=
  List.filter is_file (descendants n).
Definition dirs_below (n : FileSystemNode) : list FileSystemNode :=
  List.filter is_directory (descendants n).

Definition sum_sizes (l : list FileSystemNode) : Z :=
  fold_right Z.add 0 (map size l).

(** The aggregate invariant of one node. *)
Definition aggregates_ok (n : FileSystemNode) : Prop :=
  match type n with
  | FILE => children n = [] /\ dir_count n = 0
  | DIRECTORY =>
      size n = sum_sizes (files_below n) /\
      file_count n = Z.of_nat (length (files_below n)) /\
      dir_count n = Z.of_nat (length (dirs_below n))
  end.

(** ** The display order *)

(** The priority groups, in the words of the specification. *)
Definition priority_group (h : Host) (child : FileSystemNode) : Z :=
  let lowered := toLowerCase h (name child) in
  let hidden := startsWith lowered "." in
  match type child with
  | FILE =>
      if str_eqb lowered "readme.md" then 0
      else if hidden then 2 else 1
  | DIRECTORY => if hidden then 4 else 3
  end.

(** [a] may stand before [b]: a lower group, or the same group and a name
    that collates no later. *)
Definition child_le (h : Host) (a b : FileSystemNode) : Prop :=
  priority_group h a < priority_group h b \/
  (priority_group h a = priority_group h b /\
   localeCompare h (toLowerCase h (name a)) (toLowerCase h (name b)) <= 0).

(** The platform lower-cases ASCII text letter by letter, as
    [String.prototype.toLowerCase] does. *)
Definition lowers_ascii (h : Host) : Prop :=
  forall s, ascii_only s = true -> toLowerCase h s = lower_ascii s.

(** The platform [h] with the lower-casing of ASCII text in place of its
    own. *)
Definition ascii_platform (h : Host) : Host :=
  {| cwd := cwd h; readdir := readdir h; realpath := realpath h;
     stat := stat h; access := access h; readSample := readSample h;
     readFileSync := readFileSync h; JSON_parse := JSON_parse h;
     toml_parse := toml_parse h; toLowerCase := lower_ascii;
     localeCompare := localeCompare h; toLocaleString := toLocaleString h;
     toFixed1 := toFixed1 h; regexp_other := regexp_other h;
     type_error_message := type_error_message h; gt_zero := gt_zero h |}.

(** The collation is a consistent comparator: total and transitive. *)
Definition locale_consistent (h : Host) : Prop :=
  (forall a b, localeCompare h a b <= 0 \/ localeCompare h b a <= 0) /\
  (forall a b c, localeCompare h a b <= 0 -> localeCompare h b c <= 0 ->
                 localeCompare h a c <= 0).

Definition file_named (nm : string) : FileSystemNode :=
  new_FileSystemNode nm FILE nm ("/root/" +:+ nm).
Definition dir_named (nm : string) : FileSystemNode :=
  new_FileSystemNode nm DIRECTORY nm ("/root/" +:+ nm).

(** The five children of the specification's example. *)
Definition example_children : list FileSystemNode :=
  [dir_named ".git"; file_named ".env"; dir_named "src";
   file_named "b.txt"; file_named "README.md"].

(** ** Steps of the traversal *)

(** A directory node as [processNode] receives it: nothing counted yet. *)
Definition fresh_dir (n : FileSystemNode) : Prop :=
  type n = DIRECTORY /\ children n = [] /\
  size n = 0 /\ file_count n = 0 /\ dir_count n = 0.

(** A FILE node as [processFile] builds it. *)
Definition leaf_file (c : FileSystemNode) : Prop :=
  type c = FILE /\ children c = [] /\ dir_count c = 0 /\ file_count c = 1.

(** [n'] is [n] with [child] pushed and the three totals raised. *)
Definition appended (n n' child : FileSystemNode) (dsize dfiles ddirs : Z) : Prop :=
  name n' = name n /\ type n' = type n /\ path_str n' = path_str n /\
  path n' = path n /\ depth n' = depth n /\
  children n' = children n ++ [child] /\
  size n' = size n + dsize /\
  file_count n' = file_count n + dfiles /\
  dir_count n' = dir_count n + ddirs.

(** The invariant of the node a loop is filling. *)
Definition dir_inv (n : FileSystemNode) : Prop :=
  type n = DIRECTORY /\ aggregates_ok n /\
  Forall (node_all aggregates_ok) (children n).

(** Each directory's children stand in display order, all the way down. *)
Definition tree_sorted (h : Host) (n : FileSystemNode) : Prop :=
  node_all (fun m => StronglySorted (child_le h) (children m)) n.

(** The example's children in display order, and the tree text they give
    under a directory [root]. *)
Definition example_sorted : list FileSystemNode :=
  [file_named "README.md"; file_named "b.txt"; file_named ".env";
   dir_named "src"; dir_named ".git"].

Definition example_tree_text : string :=
  "└── root/" +:+ nl +:+
  "    ├── README.md" +:+ nl +:+
  "    ├── b.txt" +:+ nl +:+
  "    ├── .env" +:+ nl +:+
  "    ├── src/" +:+ nl +:+
  "    └── .git/" +:+ nl.

(** ** Admission *)

(** The two pattern tests of the loop body, taken together. *)
Definition filters_pass (h : Host) (query : IngestionQuery) (p : string) : bool :=
  negb (shouldExclude h p (local_path query) (ignore_patterns query)) &&
  match include_patterns query with
  | Some inc => shouldInclude h p (local_path query) inc
  | None => true
  end.

(** The statistics after a file of [sz] bytes passed the size pre-check. *)
Definition counted (stats : FileSystemStats) (sz : Z) : FileSystemStats :=
  mkFSStats (visited stats) (total_files stats + 1) (total_size stats + sz).

(** The FILE node [processFile] builds, and the parent once it is pushed. *)
Definition file_child (h : Host) (lp filePath : string) (parent : FileSystemNode)
    (sz : Z) : FileSystemNode :=
  set_depth
    (set_file_count
       (set_size
          (new_FileSystemNode (basename filePath) FILE
             (path_relative (cwd h) lp filePath) filePath) sz) 1)
    (depth parent + 1).

Definition with_file (parent child : FileSystemNode) (sz : Z) : FileSystemNode :=
  set_file_count (set_size (push_child parent child) (size parent + sz))
    (file_count parent + 1).

(** A regular file of [sz] bytes. *)
Definition is_file_of_size (r : HostResult Stats) (sz : Z) : bool :=
  match r with
  | HOk (mkStats KFile n) => n =? sz
  | _ => false
  end.

(** An entry of a flat directory [dir]: no link, a regular file of [sz]
    bytes, let through by the patterns. *)
Definition flat_entry (h : Host) (query : IngestionQuery) (dir : string) (sz : Z)
    (e : Dirent) : bool :=
  negb (d_isSymbolicLink e) &&
  is_file_of_size (stat h (path_join dir (d_name e))) sz &&
  filters_pass h query (path_join dir (d_name e)).

(** No text occurs twice, and none is in [seen]: the test the [visited] set
    performs along a listing. *)
Fixpoint all_new (seen : gset string) (l : list string) : bool :=
  match l with
  | [] => true
  | x :: rest =>
      if bool_decide (x ∈ seen) then false
      else all_new ({[ x ]} ∪ seen) rest
  end.

(** ** Entry names

    A name as a directory listing gives it: not empty, free of separators,
    and neither of the two dot entries. *)
Definition entry_name (s : string) : bool :=
  nonempty s && negb (includes_char s sep_char) &&
  negb (str_eqb s ".") && negb (str_eqb s "..").

(** ** Single resources *)

(** The path [ingestQuery] resolves the query to. *)
Definition target_path (query : IngestionQuery) : string :=
  path_join (local_path query) (path_join_all (segments (subpath query))).

(** The text a failed JSON parse leaves in place of the notebook. *)
Definition invalid_notebook_text (p : string) : string :=
  "Error processing notebook: InvalidNotebookError: Invalid JSON in notebook: "
  +:+ p.

(** The block [gatherFileContents] writes for one file. *)
Definition file_block (path_str name c : string) : string :=
  "### " +:+ path_str +:+ nl +:+ fence +:+ name_ext name +:+ nl
  +:+ c +:+ nl +:+ fence +:+ nl.

(** ** What a run reads of the query *)

(** Two queries that agree on every field except [max_file_size], [url] and
    [id]. *)
Definition reads_alike (q1 q2 : IngestionQuery) : Prop :=
  user_name q1 = user_name q2 /\ repo_name q1 = repo_name q2 /\
  local_path q1 = local_path q2 /\ slug q1 = slug q2 /\
  subpath q1 = subpath q2 /\ type_ q1 = type_ q2 /\
  branch q1 = branch q2 /\ commit q1 = commit q2 /\
  ignore_patterns q1 = ignore_patterns q2 /\
  include_patterns q1 = include_patterns q2.


(** ** The children a loop step builds *)

(** The DIRECTORY node the loop builds for a child directory before it is
    traversed; [sp] is the path of the link the entry was reached through. *)
Definition dir_child (h : Host) (lp target : string) (sp : option string)
    (parent : FileSystemNode) : FileSystemNode :=
  let child :=
    set_depth
      (new_FileSystemNode (basename target) DIRECTORY
         (path_relative (cwd h) lp target) target)
      (depth parent + 1) in
  match sp with
  | Some sp => set_path_str (set_name child (basename sp)) sp
  | None => child
  end.

(** The parent once a traversed child directory is pushed. *)
Definition with_dir (parent child : FileSystemNode) : FileSystemNode :=
  set_dir_count
    (set_file_count
       (set_size (push_child parent child) (size parent + size child))
       (file_count parent + file_count child))
    (dir_count parent + (1 + dir_count child)).

(** How the loop comes by a target in the directory [parent]: as the path
    of an entry that [readdir] lists there and that is no link, or as the
    real path of a listed link that [isSafeSymlink] accepted. *)
Definition arrives (h : Host) (query : IngestionQuery) (parent : string)
    (sp : option string) (target : string) : Prop :=
  exists entries entry,
    readdir h parent = HOk entries /\ In entry entries /\
    match sp with
    | None =>
        d_isSymbolicLink entry = false /\
        target = path_join parent (d_name entry)
    | Some link =>
        d_isSymbolicLink entry = true /\
        link = path_join parent (d_name entry) /\
        isSafeSymlink h link (local_path query) = true /\
        realpath h link = HOk target
    end.

(** ** Shape of a returned tree *)

(** Children sit one level below their parent, and a directory beyond the
    depth limit has none. *)
Definition depth_local (m : FileSystemNode) : Prop :=
  Forall (fun c => depth c = depth m + 1) (children m) /\
  (MAX_DIRECTORY_DEPTH < depth m -> children m = []).

(** The relative path of [p] stays under the query's root. *)
Definition inside_root (h : Host) (query : IngestionQuery) (p : string) : Prop :=
  let rel := path_relative (cwd h) (local_path query) p in
  startsWith rel ".." = false /\ isAbsolute rel = false.

(** A node's counters within the two budgets. *)
Definition within_file_budget (m : FileSystemNode) : Prop :=
  0 <= file_count m <= MAX_FILES.

Definition within_size_budget (m : FileSystemNode) : Prop :=
  0 <= size m <= MAX_TOTAL_SIZE_BYTES.

(** The platform reports no negative file size. *)
Definition sizes_nonneg (h : Host) : Prop :=
  forall p st, stat h p = HOk st -> 0 <= st_size st.

Definition depth_within (m : FileSystemNode) : Prop :=
  0 <= depth m <= MAX_DIRECTORY_DEPTH + 1.

(** No entry of an in-memory file system has a negative size. *)
Definition mem_sizes_ok (fs : MemFs) : bool :=
  forallb (fun pe => match snd pe with
                     | MFile sz _ => 0 <=? sz
                     | _ => true
                     end) fs.

(** ** Failures *)

(** The failures a traversal can end in: the platform refuses to list a
    directory or to stat an entry, or an entry is neither a regular file nor
    a directory. *)
Inductive walk_failure (h : Host) : Exn -> Prop :=
| wf_readdir p m :
    readdir h p = HFail m -> walk_failure h (SystemError m)
| wf_stat p m :
    stat h p = HFail m -> walk_failure h (SystemError m)
| wf_other p st :
    stat h p = HOk st -> st_kind st = KOther ->
    walk_failure h
      (Error ("Unexpected error: " +:+ p +:+ " is neither a file nor a directory")).

(** The FILE node built for a file requested on its own. *)
Definition sole_file_node (h : Host) (query : IngestionQuery) (sz : Z)
    : FileSystemNode :=
  set_file_count
    (set_size
       (new_FileSystemNode (basename (target_path query)) FILE
          (path_relative (cwd h) (local_path query) (target_path query))
          (target_path query)) sz) 1.

(** The DIRECTORY node a traversal starts from. *)
Definition root_node (h : Host) (query : IngestionQuery) : FileSystemNode :=
  new_FileSystemNode (basename (target_path query)) DIRECTORY
    (path_relative (cwd h) (local_path query) (target_path query))
    (target_path query).

(** The failures of a whole ingestion. *)
Inductive ingest_failure (h : Host) (query : IngestionQuery) : Exn -> Prop :=
| if_missing :
    access h (target_path query) = false ->
    ingest_failure h query (Error (slug query +:+ " cannot be found"))
| if_stat m :
    access h (target_path query) = true ->
    stat h (target_path query) = HFail m ->
    ingest_failure h query (SystemError m)
| if_not_file st :
    type_ query = "blob" ->
    stat h (target_path query) = HOk st -> st_kind st <> KFile ->
    ingest_failure h query
      (Error ("Path " +:+ target_path query +:+ " is not a file"))
| if_empty sz :
    stat h (target_path query) = HOk (mkStats KFile sz) ->
    content h (sole_file_node h query sz) = Ok EmptyString ->
    ingest_failure h query
      (Error ("File " +:+ basename (target_path query) +:+ " has no content"))
| if_walk st e :
    stat h (target_path query) = HOk st -> st_kind st <> KFile ->
    walk_failure h e -> ingest_failure h query e.

(** ** Shapes of patterns and subjects *)

(** A pattern character that is no wildcard. *)
Definition literal_char (c : ascii) : bool :=
  glob_char c && negb (Ascii.eqb c "*"%char) && negb (Ascii.eqb c "?"%char).

(** A subject character the wildcard dot accepts. *)
Definition plain_char (c : ascii) : bool :=
  is_ascii c && negb (line_terminator c).

(** A run of [k] separators. *)
Fixpoint slashes (k : nat) : string :=
  match k with
  | O => EmptyString
  | S k' => String sep_char (slashes k')
  end.

(** A non-empty text in which no separator of [parsePatterns] begins:
    neither a comma nor a white-space character. *)
Fixpoint free_of_separators (s : string) : bool :=
  match s with
  | EmptyString => true
  | String _ s' => Nat.eqb (separator_width s) 0 && free_of_separators s'
  end.

Definition one_item (p : string) : bool :=
  nonempty p && free_of_separators p.

(** What may follow an item: nothing, or a text that begins with an ASCII
    character, such as the comma. *)
Definition ascii_head (rest : string) : Prop :=
  match rest with
  | EmptyString => True
  | String c _ => is_ascii c = true
  end.

(** The no-break space U+00A0, one of the white-space characters that take
    more than one byte. *)
Definition nbsp : string := String "194"%char (String "160"%char EmptyString).

(** A query none of whose defaulted fields is empty. *)
Definition well_formed (q : IngestionQuery) : Prop :=
  nonempty (id q) = true /\ nonempty (slug q) = true /\
  nonempty (type_ q) = true /\ nonempty (subpath q) = true /\
  max_file_size q <> 0.

(** Two queries that name the same resource. *)
Definition same_resource (q1 q2 : IngestionQuery) : Prop :=
  user_name q1 = user_name q2 /\ repo_name q1 = repo_name q2 /\
  local_path q1 = local_path q2 /\ url q1 = url q2 /\
  slug q1 = slug q2 /\ id q1 = id q2 /\
  subpath q1 = subpath q2 /\ type_ q1 = type_ q2 /\
  branch q1 = branch q2 /\ commit q1 = commit q2.

(** A path segment as [segments] delivers it. *)
Definition clean_segment (w : string) : bool :=
  nonempty w && negb (includes_char w sep_char).

(** The number of separators in a text. *)
Fixpoint count_sep (s : string) : nat :=
  match s with
  | EmptyString => O
  | String c s' => (if Ascii.eqb c sep_char then 1 else 0) + count_sep s'
  end.

(** The pattern that the extension's default settings use for a directory
    name [d]: two stars, the name between separators, two stars. *)
Definition anywhere_under (d : string) : string :=
  "**/" +:+ d +:+ "/**".

(** ** The tree text *)

(** The number of line feeds in a text. *)
Fixpoint count_nl (s : string) : nat :=
  match s with
  | EmptyString => O
  | String c s' => (if Ascii.eqb c "010"%char then 1 else 0) + count_nl s'
  end.

(** A node whose name fits on a line, and which has children only if it is a
    directory. *)
Definition printable (m : FileSystemNode) : Prop :=
  count_nl (name m) = O /\ (type m = FILE -> children m = []).

(** ** Labels *)



(** Every child of [m] was come by in the directory [m] stands for. *)
Definition children_arrive (h : Host) (query : IngestionQuery)
    (m : FileSystemNode) : Prop :=
  Forall (fun c => exists sp, arrives h query (path m) sp (path c)) (children m).

(** ** Notebooks *)



(** * Properties *)

(** ** Outcomes *)

Lemma bind_Ok {A B} (m : Outcome A) (f : A -> Outcome B) (b : B) :
  m ≫= f = Ok b -> exists a, m = Ok a /\ f a = Ok b.
Proof.
  destruct m as [a| |]; simpl; intros H; try discriminate.
  exists a; split; [reflexivity | exact H].
Qed.

Lemma npf_Ok {A} (a : A) : no_pattern_failure (Ok a).
Proof. intros m; discriminate. Qed.

Lemma npf_bind {A B} (m : Outcome A) (f : A -> Outcome B) :
  no_pattern_failure m -> (forall a, no_pattern_failure (f a)) ->
  no_pattern_failure (m ≫= f).
Proof.
  intros Hm Hf. destruct m as [a| e |]; simpl.
  - apply Hf.
  - intros msg Habs. apply (Hm msg). congruence.
  - intros msg; discriminate.
Qed.

Lemma npf_lift_host {A} (r : HostResult A) : no_pattern_failure (lift_host r).
Proof. destruct r; intros m; discriminate. Qed.

Create HintDb npf.
#[local] Hint Resolve npf_Ok npf_lift_host : npf.

(** ** Strings *)

Lemma all_chars_spec (f : ascii -> bool) (s : string) :
  all_chars f s = true <->
  forall c, In c (list_ascii_of_string s) -> f c = true.
Proof.
  induction s as [|d s IH]; simpl.
  - split; [intros _ c [] | reflexivity].
  - rewrite andb_true_iff, IH. split.
    + intros [Hd Hs] c [<-|Hc]; auto.
    + intros H; split; [apply H; left; reflexivity|].
      intros c Hc; apply H; right; exact Hc.
Qed.

Lemma includes_char_spec (s : string) (c : ascii) :
  includes_char s c = true <-> In c (list_ascii_of_string s).
Proof.
  induction s as [|d s IH]; simpl.
  - split; [discriminate | intros []].
  - rewrite orb_true_iff, IH, Ascii.eqb_eq. split; intros [H|H]; auto.
Qed.

Lemma nonempty_spec (s : string) : nonempty s = true <-> s <> EmptyString.
Proof. destruct s; simpl; split; congruence. Qed.

(** ** Sets of patterns *)

Lemma set_has_In s x : set_has s x = true <-> In x s.
Proof.
  unfold set_has. rewrite existsb_exists. split.
  - intros (y & Hy & He). apply String.eqb_eq in He. subst y. exact Hy.
  - intros H. exists x. split; [exact H | apply String.eqb_refl].
Qed.

Lemma set_has_add s x y :
  set_has (set_add s x) y = set_has s y || str_eqb y x.
Proof.
  unfold set_add. destruct (set_has s x) eqn:Hx.
  - destruct (str_eqb y x) eqn:Hyx; [|rewrite orb_false_r; reflexivity].
    apply String.eqb_eq in Hyx. subst y. rewrite Hx. reflexivity.
  - unfold set_has. rewrite existsb_app. simpl. rewrite orb_false_r. reflexivity.
Qed.

Lemma set_has_add_all xs : forall s y,
  set_has (set_add_all s xs) y = set_has s y || existsb (str_eqb y) xs.
Proof.
  unfold set_add_all. induction xs as [|x xs IH]; intros s y; simpl.
  - rewrite orb_false_r. reflexivity.
  - rewrite IH, set_has_add, orb_assoc. reflexivity.
Qed.

Lemma In_new_Set xs x : In x (new_Set xs) <-> In x xs.
Proof.
  unfold new_Set. rewrite <- set_has_In, set_has_add_all. simpl.
  rewrite existsb_exists. split.
  - intros (y & Hy & He). apply String.eqb_eq in He. subst y. exact Hy.
  - intros H. exists x. split; [exact H | apply String.eqb_refl].
Qed.

(** ** Pattern validation *)

Lemma parsePatterns_loop_spec (ps acc : list string) :
  parsePatterns_loop ps acc =
  match find (fun p => nonempty p && negb (QueryParserUtils.isValidPattern p)) ps with
  | Some p => Throw (InvalidPatternError (invalid_pattern_text p))
  | None =>
      Ok (set_add_all acc
            (map QueryParserUtils.normalizePattern
               (filter (fun p => nonempty p = true) ps)))
  end.
Proof.
  revert acc; induction ps as [|p ps IH]; intros acc; simpl.
  - reflexivity.
  - rewrite filter_cons.
    destruct (nonempty p) eqn:Hp; simpl.
    + destruct (QueryParserUtils.isValidPattern p) eqn:Hv; simpl.
      * rewrite IH. destruct (decide (true = true)); [|congruence].
        reflexivity.
      * reflexivity.
    + rewrite IH. destruct (decide (false = true)); [discriminate|].
      reflexivity.
Qed.

Section NoPatternFailure.

Variable h : Host.

Lemma npf_processFile filePath parent stats lp :
  no_pattern_failure (processFile h filePath parent stats lp).
Proof.
  unfold processFile. apply npf_bind; auto with npf.
  intros st. repeat case_match; auto with npf.
Qed.

Lemma npf_visit recur query node stats sp target :
  (forall c s, no_pattern_failure (recur c s)) ->
  no_pattern_failure (visit h recur query node stats sp target).
Proof.
  intros Hrec. unfold visit.
  repeat (case_match; auto with npf).
  all: apply npf_bind; auto with npf.
  all: intros st; destruct (st_kind st); auto using npf_processFile.
  all: try (intros m; discriminate).
  all: apply npf_bind; auto; intros [? ?]; auto with npf.
Qed.

Lemma npf_process_entries recur query entries node stats :
  (forall c s, no_pattern_failure (recur c s)) ->
  no_pattern_failure (process_entries h recur query entries node stats).
Proof.
  intros Hrec. revert node stats.
  induction entries as [|e es IH]; intros node stats; simpl; auto with npf.
  apply npf_bind.
  - unfold process_entry. repeat case_match; auto with npf.
    + apply npf_bind; auto with npf. intros t. apply npf_visit, Hrec.
    + apply npf_visit, Hrec.
  - intros [n s]. apply IH.
Qed.

Lemma npf_sortChildren node : no_pattern_failure (sortChildren h node).
Proof. unfold sortChildren. destruct (type node); intros m; discriminate. Qed.

Lemma npf_processNode fuel node query stats :
  no_pattern_failure (processNode h fuel node query stats).
Proof.
  revert node stats. induction fuel as [|fuel IH]; intros node stats; simpl.
  - intros m; discriminate.
  - case_match; auto with npf.
    apply npf_bind; auto with npf. intros entries.
    apply npf_bind.
    + apply npf_process_entries. intros c s. apply IH.
    + intros [n s]. apply npf_bind; auto using npf_sortChildren with npf.
Qed.

End NoPatternFailure.

(** C6, as the code has it.  The validator that query construction runs
    ([utils/query_parser_utils]) accepts exactly the non-empty patterns over
    letters, digits and [- _ . / + *]; the at sign is accepted only by the
    validator of [utils/query_parser], which [parsePatterns] does not call and
    which also accepts the empty pattern.  [parsePatterns] cuts a text at
    its runs of commas and white space (that of the class [\s], the
    characters of more than one byte included), skips empty items and throws
    [InvalidPatternError] for the first remaining item the former validator
    rejects; the traversal itself never throws that error.
    [applyPatterns], the other way a query gets its patterns, validates
    nothing: every pattern it is given ends up, normalised, in the exclude
    set. *)
Theorem C6_pattern_validation :
  (forall p,
     QueryParserUtils.isValidPattern p = true <->
     p <> EmptyString /\
     forall c, In c (list_ascii_of_string p) ->
               is_alnum c = true \/ In c (list_ascii_of_string "-_./+*"))
  /\
  (forall p,
     QueryParser.isValidPattern p = true <->
     forall c, In c (list_ascii_of_string p) ->
               is_alnum c = true \/ In c (list_ascii_of_string "-_./+*@"))
  /\
  (forall arg,
     parsePatterns arg =
     let items := match arg with
                  | PString s => split_runs false s
                  | PSet s => s
                  end in
     match find (fun p => nonempty p && negb (QueryParserUtils.isValidPattern p))
                items with
     | Some p => Throw (InvalidPatternError (invalid_pattern_text p))
     | None =>
         Ok (new_Set (map QueryParserUtils.normalizePattern
                        (filter (fun p => nonempty p = true) items)))
     end)
  /\
  (forall h fuel node query stats message,
     processNode h fuel node query stats <> Throw (InvalidPatternError message))
  /\
  (forall uuid query m ignore include p,
     In p ignore ->
     In (QueryParserUtils.normalizePattern p)
        (ignore_patterns (applyPatterns uuid query m ignore include))).
Proof.
  split; [|split; [|split; [|split]]].
  - intros p. unfold QueryParserUtils.isValidPattern.
    rewrite andb_true_iff, nonempty_spec, all_chars_spec.
    split; intros [Hne H]; split; auto; intros c Hc; specialize (H c Hc).
    + unfold utils_class in H. rewrite orb_true_iff, includes_char_spec in H.
      exact H.
    + unfold utils_class. rewrite orb_true_iff, includes_char_spec. exact H.
  - intros p. unfold QueryParser.isValidPattern. rewrite all_chars_spec.
    split; intros H c Hc; specialize (H c Hc).
    + rewrite orb_true_iff, includes_char_spec in H. exact H.
    + rewrite orb_true_iff, includes_char_spec. exact H.
  - intros arg. unfold parsePatterns. cbv zeta.
    rewrite parsePatterns_loop_spec. reflexivity.
  - intros h fuel node query stats message. apply npf_processNode.
  - intros uuid query m ignore include p Hp.
    change (ignore_patterns (applyPatterns uuid query m ignore include))
      with (new_Set (ignore_patterns query
                     ++ new_Set (map QueryParserUtils.normalizePattern ignore))).
    apply In_new_Set, in_or_app. right. apply In_new_Set, in_map, Hp.
Qed.

(** C6, counterexample to the claim as stated: every character of ["a@b"] is
    alphanumeric or one of [- _ . / + * @], yet query construction rejects
    the pattern. *)
Lemma C6_at_sign_rejected :
  all_chars (fun c => is_alnum c || includes_char "-_./+*@" c) "a@b" = true /\
  parsePatterns (PSet ["a@b"]) =
  Throw (InvalidPatternError (invalid_pattern_text "a@b")).
Proof. split; reflexivity. Qed.

(** ** Globs and the regular expressions built from them *)

Lemma str_app_nil (b : string) : EmptyString +:+ b = b.
Proof. reflexivity. Qed.

Lemma str_app_cons (c : ascii) (a b : string) :
  String c a +:+ b = String c (a +:+ b).
Proof. reflexivity. Qed.

Ltac push_app := rewrite ?str_app_cons, ?str_app_nil.

Lemma str_append_assoc (a b c : string) : (a +:+ b) +:+ c = a +:+ (b +:+ c).
Proof.
  induction a as [|d a IH]; push_app; [reflexivity | rewrite IH; reflexivity].
Qed.

Lemma replace_char_app c by_ a b :
  replace_char c by_ (a +:+ b) = replace_char c by_ a +:+ replace_char c by_ b.
Proof.
  induction a as [|d a IH]; push_app; simpl; [reflexivity|].
  destruct (Ascii.eqb d c); push_app; rewrite IH.
  - symmetry. apply str_append_assoc.
  - reflexivity.
Qed.

Lemma regExpPattern_cons c p :
  regExpPattern (String c p) =
  regExpPattern (String c EmptyString) +:+ regExpPattern p.
Proof.
  unfold regExpPattern.
  change (String c p) with (String c EmptyString +:+ p).
  rewrite !replace_char_app. reflexivity.
Qed.

Lemma glob_char_cases c :
  glob_char c = true ->
  is_ascii c = true /\ Ascii.eqb c "\"%char = false /\
  Ascii.eqb c "+"%char = false /\
  (Ascii.eqb c "?"%char = false -> other_syntax c = false).
Proof.
  unfold glob_char, other_syntax. rewrite andb_true_iff, negb_true_iff.
  intros [Ha Hn]. split; [exact Ha|].
  cbn in Hn |- *.
  repeat match type of Hn with
         | (?a || ?b)%bool = false => apply orb_false_iff in Hn as [? Hn]
         end.
  repeat split; try assumption.
  intros Hq.
  repeat match goal with
         | H : Ascii.eqb _ _ = false |- _ => rewrite H; clear H
         end.
  reflexivity.
Qed.

(** The regular expression of a glob tokenises character by character. *)
Lemma tokenize_glob p :
  all_chars glob_char p = true ->
  tokenize (regExpPattern p) = Some (glob_tokens p).
Proof.
  induction p as [|c p IH]; intros Hp; [reflexivity|].
  simpl in Hp. apply andb_true_iff in Hp as [Hc Hp].
  specialize (IH Hp). rewrite regExpPattern_cons.
  destruct (glob_char_cases c Hc) as (Ha & Hb & Hplus & Hother).
  unfold glob_tokens; fold glob_tokens. unfold glob_tokens_of.
  destruct (Ascii.eqb c "*"%char) eqn:Hstar.
  { apply Ascii.eqb_eq in Hstar; subst c.
    change (regExpPattern "*") with ".*". push_app. cbn. rewrite IH. reflexivity. }
  destruct (Ascii.eqb c "?"%char) eqn:Hq.
  { apply Ascii.eqb_eq in Hq; subst c.
    change (regExpPattern "?") with ".". push_app. cbn. rewrite IH. reflexivity. }
  specialize (Hother eq_refl).
  destruct (Ascii.eqb c "."%char) eqn:Hdot.
  { apply Ascii.eqb_eq in Hdot; subst c.
    change (regExpPattern ".") with "\.". push_app. cbn. rewrite IH. reflexivity. }
  assert (regExpPattern (String c EmptyString) = String c EmptyString) as ->.
  { unfold regExpPattern. simpl replace_char at 3. rewrite Hdot.
    simpl replace_char at 2. rewrite Hstar. simpl replace_char. rewrite Hq.
    reflexivity. }
  push_app. cbn [tokenize]. rewrite Ha, Hb, Hother, Hdot, Hstar, Hplus. cbn.
  rewrite IH. reflexivity.
Qed.

Lemma glob_tokens_head p :
  match glob_tokens p with
  | TStar :: _ | TPlus :: _ => False
  | _ => True
  end.
Proof.
  destruct p as [|c p]; simpl; [exact I|].
  unfold glob_tokens_of. repeat case_match; simplify_eq; exact I.
Qed.

Lemma parse_glob_tokens p : parse_tokens (glob_tokens p) = Some (glob_items p).
Proof.
  induction p as [|c p IH]; [reflexivity|].
  simpl. unfold glob_tokens_of, glob_item.
  pose proof (glob_tokens_head p) as Hhd.
  destruct (Ascii.eqb c "*"%char); [simpl; rewrite IH; reflexivity|].
  destruct (Ascii.eqb c "?"%char); simpl;
    destruct (glob_tokens p) as [|[]]; try contradiction;
    rewrite IH; reflexivity.
Qed.

Lemma items_match_star a r s :
  items_match ((a, Star) :: r) s = star_match a r s.
Proof. induction s as [|c s IH]; simpl; [reflexivity|]. rewrite <- IH. reflexivity. Qed.

Lemma items_match_one a r s :
  items_match ((a, One) :: r) s =
  match s with
  | String c s' => atom_accepts a c && items_match r s'
  | EmptyString => false
  end.
Proof. reflexivity. Qed.

Lemma star_match_glob p s :
  (forall s', items_match (glob_items p) s' = true <-> glob_match p s') ->
  star_match AAny (glob_items p) s = true <-> glob_match (String "*" p) s.
Proof.
  intros IH. induction s as [|c s IHs]; simpl.
  - rewrite orb_false_r, IH. split.
    + apply glob_star_none.
    + intros H; inversion H; subst; try congruence; assumption.
  - rewrite orb_true_iff, andb_true_iff, negb_true_iff, IH, IHs. split.
    + intros [H|[Hc H]]; [apply glob_star_none | apply glob_star_more]; assumption.
    + intros H; inversion H; subst; auto; congruence.
Qed.

Lemma items_match_glob p :
  forall s, items_match (glob_items p) s = true <-> glob_match p s.
Proof.
  induction p as [|c p IH]; intros s.
  - destruct s; simpl; split; intros H.
    + constructor.
    + reflexivity.
    + discriminate.
    + inversion H.
  - cbn [glob_items]. unfold glob_item.
    destruct (Ascii.eqb c "*"%char) eqn:Hstar.
    { apply Ascii.eqb_eq in Hstar; subst c.
      rewrite items_match_star. apply star_match_glob, IH. }
    destruct (Ascii.eqb c "?"%char) eqn:Hq.
    { apply Ascii.eqb_eq in Hq; subst c. rewrite items_match_one.
      destruct s as [|d s].
      - split; [discriminate | intros H; inversion H; congruence].
      - simpl. rewrite andb_true_iff, negb_true_iff, IH. split.
        + intros [Hd H]; apply glob_question; assumption.
        + intros H; inversion H; subst; auto; congruence. }
    apply Ascii.eqb_neq in Hstar, Hq. rewrite items_match_one.
    destruct s as [|d s].
    + split; [discriminate | intros H; inversion H; congruence].
    + simpl. rewrite andb_true_iff, Ascii.eqb_eq, IH. split.
      * intros [<- H]. apply glob_literal; assumption.
      * intros H; inversion H; subst; try congruence. auto.
Qed.

(** On a glob over plain characters and an ASCII subject, [matchPattern]
    never throws and decides [glob_match]. *)
Lemma matchPattern_glob h s p :
  all_chars glob_char p = true -> ascii_only s = true ->
  matchPattern h s p = Some (items_match (glob_items p) s).
Proof.
  intros Hp Hs. unfold matchPattern, RegExp_test.
  rewrite (tokenize_glob p Hp), parse_glob_tokens, Hs. reflexivity.
Qed.

(** ** [shouldExclude] *)




(** ** Trees *)

Lemma FileSystemNode_tree_ind (P : FileSystemNode -> Prop) :
  (forall n, Forall P (children n) -> P n) -> forall n, P n.
Proof.
  intros H. fix IH 1. intros [nm ty ps p sz fc dc d ch].
  apply H. simpl. induction ch as [|c ch IHch]; constructor.
  - apply IH.
  - exact IHch.
Qed.

Lemma descendants_unfold n :
  descendants n = flat_map (fun c => c :: descendants c) (children n).
Proof.
  destruct n as [nm ty ps p sz fc dc d ch]. simpl.
  induction ch as [|c ch IH]; [reflexivity|]. rewrite IH. reflexivity.
Qed.

Lemma node_all_unfold P n :
  node_all P n <-> P n /\ Forall (node_all P) (children n).
Proof.
  unfold node_all. rewrite Forall_cons_iff, descendants_unfold.
  apply and_iff_compat_l.
  induction (children n) as [|c ch IH]; simpl.
  - split; constructor.
  - rewrite Forall_cons_iff, Forall_app, IH, (Forall_cons_iff (node_all P)).
    unfold node_all. rewrite Forall_cons_iff. tauto.
Qed.

(** ** Sorting *)

Lemma sortKey_priority h c : fst (sortKey h c) = priority_group h c.
Proof.
  unfold sortKey, priority_group.
  destruct (type c); repeat case_match; reflexivity.
Qed.

Lemma sortKey_name h c : snd (sortKey h c) = toLowerCase h (name c).
Proof. unfold sortKey. destruct (type c); repeat case_match; reflexivity. Qed.

Lemma compareChildren_le h a b :
  compareChildren h a b <= 0 <-> child_le h a b.
Proof.
  unfold compareChildren, child_le.
  rewrite <- !sortKey_priority, <- !sortKey_name.
  destruct (sortKey h a) as [oa na], (sortKey h b) as [ob nb]; simpl.
  destruct (Z.eqb_spec oa ob) as [->|Hne]; simpl; lia.
Qed.

Section SortBy.

Context {A : Type} (cmp : A -> A -> Z).

Lemma sort_insert_perm x l : Permutation (x :: l) (sort_insert cmp x l).
Proof.
  induction l as [|y l IH]; simpl; [reflexivity|].
  destruct (cmp x y <=? 0); [reflexivity|].
  rewrite perm_swap. apply perm_skip, IH.
Qed.

Lemma array_sort_perm l : Permutation l (array_sort cmp l).
Proof.
  induction l as [|x l IH]; simpl; [reflexivity|].
  rewrite <- sort_insert_perm. apply perm_skip, IH.
Qed.

Hypothesis cmp_total : forall a b, cmp a b <= 0 \/ cmp b a <= 0.
Hypothesis cmp_trans : forall a b c, cmp a b <= 0 -> cmp b c <= 0 -> cmp a c <= 0.

Lemma sort_insert_sorted x l :
  StronglySorted (fun a b => cmp a b <= 0) l ->
  StronglySorted (fun a b => cmp a b <= 0) (sort_insert cmp x l).
Proof.
  induction 1 as [|y l Hl IH Hy]; simpl.
  - repeat constructor.
  - destruct (Z.leb_spec (cmp x y) 0) as [Hxy|Hxy].
    + constructor; [constructor; assumption|].
      constructor; [exact Hxy|].
      eapply Forall_impl; [exact Hy|]. intros z Hz. eapply cmp_trans; eassumption.
    + constructor; [exact IH|].
      rewrite <- (sort_insert_perm x l). constructor; [|exact Hy].
      destruct (cmp_total x y); [lia | assumption].
Qed.

Lemma array_sort_sorted l :
  StronglySorted (fun a b => cmp a b <= 0) (array_sort cmp l).
Proof.
  induction l as [|x l IH]; simpl; [constructor|].
  apply sort_insert_sorted, IH.
Qed.

End SortBy.

Lemma child_le_total h : locale_consistent h ->
  forall a b, compareChildren h a b <= 0 \/ compareChildren h b a <= 0.
Proof.
  intros [Htot _] a b. rewrite !compareChildren_le. unfold child_le.
  destruct (Htot (toLowerCase h (name a)) (toLowerCase h (name b))); lia.
Qed.

Lemma child_le_trans h : locale_consistent h ->
  forall a b c, compareChildren h a b <= 0 -> compareChildren h b c <= 0 ->
                compareChildren h a c <= 0.
Proof.
  intros [_ Htr] a b c. rewrite !compareChildren_le. unfold child_le.
  intros [H1|[H1 L1]] [H2|[H2 L2]]; try lia.
  right. split; [lia|]. eapply Htr; eassumption.
Qed.

Lemma array_sort_children h l :
  locale_consistent h ->
  Permutation l (array_sort (compareChildren h) l) /\
  StronglySorted (child_le h) (array_sort (compareChildren h) l).
Proof.
  intros Hc. split; [apply array_sort_perm|].
  pose proof (array_sort_sorted (compareChildren h)
                (child_le_total h Hc) (child_le_trans h Hc) l) as Hs.
  induction Hs as [|x l' Hl IH Hx]; constructor; [exact IH|].
  eapply Forall_impl; [exact Hx|]. intros y. apply compareChildren_le.
Qed.

(** ** What one loop step does to the node *)

Section Steps.

Variable h : Host.

Lemma processFile_Ok filePath parent stats lp n' s' :
  processFile h filePath parent stats lp = Ok (n', s') ->
  exists st, stat h filePath = HOk st /\
    ((total_size stats + st_size st > MAX_TOTAL_SIZE_BYTES /\
      n' = parent /\ s' = stats) \/
     (total_size stats + st_size st <= MAX_TOTAL_SIZE_BYTES /\
      s' = mkFSStats (visited stats) (total_files stats + 1)
             (total_size stats + st_size st) /\
      ((total_files stats + 1 > MAX_FILES /\ n' = parent) \/
       (total_files stats + 1 <= MAX_FILES /\
        exists child, leaf_file child /\ size child = st_size st /\
          name child = basename filePath /\
          appended parent n' child (st_size st) 1 0)))).
Proof.
  unfold processFile. destruct (stat h filePath) as [st|m]; simpl; [|discriminate].
  intros H. exists st. split; [reflexivity|].
  destruct (Z.gtb_spec (total_size stats + st_size st) MAX_TOTAL_SIZE_BYTES) as [Hs|Hs].
  - left. injection H as <- <-. repeat split; lia.
  - right. split; [lia|].
    destruct (Z.gtb_spec (total_files stats + 1) MAX_FILES) as [Hf|Hf];
      injection H as <- <-; (split; [reflexivity|]).
    + left. split; [lia | reflexivity].
    + right. split; [lia|]. eexists. repeat split; simpl; try reflexivity; lia.
Qed.

Section Loop.

Variable recur : FileSystemNode -> FileSystemStats -> Outcome Walk.
Variable query : IngestionQuery.

(** The three ways [visit] can return: the entry was skipped (or was a file
    the budgets refused), a FILE child was appended, or a child directory
    was traversed and appended. *)
Lemma visit_Ok node stats sp target n' s' :
  visit h recur query node stats sp target = Ok (n', s') ->
  n' = node \/
  (exists child sz, leaf_file child /\ size child = sz /\
     appended node n' child sz 1 0) \/
  (exists c0 s0 child,
     fresh_dir c0 /\ depth c0 = depth node + 1 /\
     recur c0 s0 = Ok (child, s') /\
     appended node n' child (size child) (file_count child) (1 + dir_count child)).
Proof.
  unfold visit. destruct (bool_decide _); [intros [= <- <-]; auto|].
  destruct (shouldExclude _ _ _ _); [intros [= <- <-]; auto|].
  match goal with |- context [if ?b then _ else _] => destruct b end;
    [intros [= <- <-]; auto|].
  destruct (stat h target) as [st|m]; simpl; [|discriminate].
  destruct (st_kind st).
  - intros H. apply processFile_Ok in H as (st' & _ & [(_ & -> & _)|(_ & _ & H)]); auto.
    destruct H as [(_ & ->)|(_ & child & Hleaf & Hsz & _ & Happ)]; auto.
    right; left. exists child, (st_size st'). auto.
  - match goal with
    | |- context [recur ?c ?s] =>
        destruct (recur c s) as [[child st1]| |] eqn:Hrec; simpl; try discriminate;
          intros [= <- <-]; right; right; exists c, s, child
    end.
    split; [|split; [|split; [exact Hrec|]]].
    + destruct sp; repeat split; reflexivity.
    + destruct sp; reflexivity.
    + repeat split; simpl; try reflexivity; lia.
  - discriminate.
Qed.

Lemma process_entry_Ok node stats entry n' s' :
  process_entry h recur query node stats entry = Ok (n', s') ->
  n' = node \/
  (exists child sz, leaf_file child /\ size child = sz /\
     appended node n' child sz 1 0) \/
  (exists c0 s0 child,
     fresh_dir c0 /\ depth c0 = depth node + 1 /\
     recur c0 s0 = Ok (child, s') /\
     appended node n' child (size child) (file_count child) (1 + dir_count child)).
Proof.
  unfold process_entry. destruct (d_isSymbolicLink entry).
  - destruct (isSafeSymlink _ _ _); simpl; [|intros [= <- <-]; auto].
    destruct (realpath h _); simpl; [|discriminate]. apply visit_Ok.
  - apply visit_Ok.
Qed.

(** A loop invariant [Loop] kept by both kinds of append survives the whole
    loop, given that the recursive calls deliver children satisfying
    [Child]. *)
Lemma process_entries_invariant (Loop Child : FileSystemNode -> Prop) :
  (forall n n' child sz,
     Loop n -> leaf_file child -> size child = sz ->
     appended n n' child sz 1 0 -> Loop n') ->
  (forall n n' child,
     Loop n -> Child child ->
     appended n n' child (size child) (file_count child) (1 + dir_count child) ->
     Loop n') ->
  (forall c0 s0 child s1,
     fresh_dir c0 -> recur c0 s0 = Ok (child, s1) -> Child child) ->
  forall entries node stats n' s',
    Loop node ->
    process_entries h recur query entries node stats = Ok (n', s') ->
    Loop n'.
Proof.
  intros Hfile Hdir Hrec. induction entries as [|e es IH]; intros node stats n' s' Hn; simpl.
  - intros [= <- <-]. exact Hn.
  - intros H. apply bind_Ok in H as ([n1 s1] & He & Hes).
    apply IH in Hes; [exact Hes|].
    apply process_entry_Ok in He as [->|[(child & sz & Hl & Hsz & Happ)|
                                         (c0 & s0 & child & Hf & _ & Hr & Happ)]].
    + exact Hn.
    + eapply Hfile; eassumption.
    + eapply Hdir; [exact Hn| |exact Happ]. eapply Hrec; eassumption.
Qed.

End Loop.

(** The same for the whole of [processNode]: [Post] holds of the node a call
    on a fresh directory returns, when it holds of a pruned directory and is
    established by the final sort. *)
Lemma processNode_invariant (Loop Post : FileSystemNode -> Prop) :
  (forall n, fresh_dir n -> Loop n /\ Post n) ->
  (forall n n' child sz,
     Loop n -> leaf_file child -> size child = sz ->
     appended n n' child sz 1 0 -> Loop n') ->
  (forall n n' child,
     Loop n -> Post child ->
     appended n n' child (size child) (file_count child) (1 + dir_count child) ->
     Loop n') ->
  (forall n, Loop n ->
     Post (set_children n (array_sort (compareChildren h) (children n)))) ->
  forall fuel node query stats n' s',
    fresh_dir node ->
    processNode h fuel node query stats = Ok (n', s') ->
    Post n'.
Proof.
  intros Hfresh Hfile Hdir Hsort.
  induction fuel as [|fuel IH]; intros node query stats n' s' Hnode; simpl;
    [discriminate|].
  destruct (limitExceeded stats (depth node)).
  { intros [= <- <-]. apply Hfresh, Hnode. }
  destruct (readdir h (path node)) as [entries|m]; simpl; [|discriminate].
  intros H. apply bind_Ok in H as ([n1 s1] & Hloop & Hrest).
  apply bind_Ok in Hrest as (n2 & Hs & [= <- <-]).
  assert (Loop n1) as Hn1.
  { eapply (process_entries_invariant
              (fun child st => processNode h fuel child query st)
              query Loop Post Hfile Hdir);
      [|apply Hfresh, Hnode|exact Hloop].
    intros c0 s0 child st1 Hc0 Hr. cbv beta in Hr.
    exact (IH c0 query s0 child st1 Hc0 Hr). }
  unfold sortChildren in Hs. destruct (type n1); [|discriminate].
  injection Hs as <-. apply Hsort, Hn1.
Qed.

End Steps.

(** ** Aggregates (C1) *)

Lemma sum_sizes_app a b : sum_sizes (a ++ b) = sum_sizes a + sum_sizes b.
Proof.
  unfold sum_sizes. induction a as [|x a IH]; simpl; [reflexivity|].
  rewrite IH. lia.
Qed.

Lemma descendants_appended n n' child ds df dd :
  appended n n' child ds df dd ->
  descendants n' = descendants n ++ child :: descendants child.
Proof.
  intros (_ & _ & _ & _ & _ & Hch & _).
  rewrite (descendants_unfold n'), Hch, flat_map_app, <- descendants_unfold.
  simpl. rewrite app_nil_r. reflexivity.
Qed.

Lemma leaf_descendants c : children c = [] -> descendants c = [].
Proof. intros H. rewrite descendants_unfold, H. reflexivity. Qed.

Lemma leaf_node_all c : leaf_file c -> node_all aggregates_ok c.
Proof.
  intros (Ht & Hc & Hd & _). apply node_all_unfold. split.
  - unfold aggregates_ok. rewrite Ht. auto.
  - rewrite Hc. constructor.
Qed.

Lemma dir_inv_node_all n : dir_inv n -> node_all aggregates_ok n.
Proof. intros (_ & Ha & Hc). apply node_all_unfold. auto. Qed.

Lemma dir_inv_fresh n : fresh_dir n -> dir_inv n.
Proof.
  intros (Ht & Hc & Hs & Hf & Hd). unfold dir_inv, aggregates_ok.
  rewrite Ht, Hc. unfold files_below, dirs_below.
  rewrite (leaf_descendants n Hc). simpl. repeat split; auto.
Qed.

Lemma below_appended_file n n' child ds df dd :
  appended n n' child ds df dd -> leaf_file child ->
  files_below n' = files_below n ++ [child] /\ dirs_below n' = dirs_below n.
Proof.
  intros Happ (Hct & Hcc & _).
  pose proof (descendants_appended _ _ _ _ _ _ Happ) as Hd.
  rewrite (leaf_descendants child Hcc) in Hd.
  unfold files_below, dirs_below. rewrite Hd, !List.filter_app. simpl.
  unfold is_file at 2, is_directory at 2. rewrite Hct. simpl.
  rewrite app_nil_r. split; reflexivity.
Qed.

Lemma below_appended_dir n n' child ds df dd :
  appended n n' child ds df dd -> type child = DIRECTORY ->
  files_below n' = files_below n ++ files_below child /\
  dirs_below n' = dirs_below n ++ child :: dirs_below child.
Proof.
  intros Happ Hct.
  pose proof (descendants_appended _ _ _ _ _ _ Happ) as Hd.
  unfold files_below, dirs_below. rewrite Hd, !List.filter_app. simpl.
  unfold is_file at 2, is_directory at 2. rewrite Hct. simpl.
  split; reflexivity.
Qed.

Lemma sum_sizes_one c : sum_sizes [c] = size c.
Proof. unfold sum_sizes. simpl. lia. Qed.

Lemma dir_inv_file n n' child sz :
  dir_inv n -> leaf_file child -> size child = sz ->
  appended n n' child sz 1 0 -> dir_inv n'.
Proof.
  intros (Ht & Ha & Hc) Hleaf Hsz Happ.
  destruct (below_appended_file _ _ _ _ _ _ Happ Hleaf) as [Hfb Hdb].
  destruct Happ as (_ & Ht' & _ & _ & _ & Hch & Hs' & Hf' & Hd').
  unfold dir_inv, aggregates_ok in *. rewrite Ht', Ht in *.
  destruct Ha as (Hs & Hf & Hdc).
  rewrite Hfb, Hdb, sum_sizes_app, sum_sizes_one, length_app. simpl.
  repeat split; try lia.
  rewrite Hch. apply Forall_app. split; [exact Hc|].
  constructor; [|constructor]. apply leaf_node_all, Hleaf.
Qed.

Lemma dir_inv_dir n n' child :
  dir_inv n -> dir_inv child ->
  appended n n' child (size child) (file_count child) (1 + dir_count child) ->
  dir_inv n'.
Proof.
  intros (Ht & Ha & Hc) Hchild Happ.
  pose proof (dir_inv_node_all _ Hchild) as Hall.
  destruct Hchild as (Hct & Hca & _).
  destruct (below_appended_dir _ _ _ _ _ _ Happ Hct) as [Hfb Hdb].
  destruct Happ as (_ & Ht' & _ & _ & _ & Hch & Hs' & Hf' & Hd').
  unfold dir_inv, aggregates_ok in *. rewrite Ht', Ht in *. rewrite Hct in Hca.
  destruct Ha as (Hs & Hf & Hdc). destruct Hca as (Hcs & Hcf & Hcd).
  rewrite Hfb, Hdb, sum_sizes_app, !length_app. simpl length.
  repeat split; try lia.
  rewrite Hch. apply Forall_app. split; [exact Hc|].
  constructor; [exact Hall|constructor].
Qed.

Lemma descendants_perm n l :
  Permutation (children n) l ->
  Permutation (descendants n) (descendants (set_children n l)).
Proof.
  intros Hp. rewrite !descendants_unfold. simpl.
  apply Permutation_flat_map, Hp.
Qed.

Lemma sum_sizes_perm a b : Permutation a b -> sum_sizes a = sum_sizes b.
Proof.
  unfold sum_sizes. induction 1; simpl; try lia.
Qed.

Lemma filter_perm {A} (f : A -> bool) a b :
  Permutation a b -> Permutation (List.filter f a) (List.filter f b).
Proof.
  induction 1; simpl; repeat case_match; eauto using Permutation.
Qed.

Lemma dir_inv_sort n l :
  Permutation (children n) l -> dir_inv n -> dir_inv (set_children n l).
Proof.
  intros Hp (Ht & Ha & Hc). pose proof (descendants_perm n l Hp) as Hd.
  unfold dir_inv, aggregates_ok in *. simpl. rewrite Ht in *.
  destruct Ha as (Hs & Hf & Hdc). unfold files_below, dirs_below in *.
  rewrite <- (sum_sizes_perm _ _ (filter_perm is_file _ _ Hd)).
  rewrite <- (Permutation_length (filter_perm is_file _ _ Hd)).
  rewrite <- (Permutation_length (filter_perm is_directory _ _ Hd)).
  repeat split; auto. rewrite <- Hp. exact Hc.
Qed.

Lemma processNode_dir_inv h fuel node query stats n' s' :
  fresh_dir node ->
  processNode h fuel node query stats = Ok (n', s') -> dir_inv n'.
Proof.
  apply (processNode_invariant h dir_inv dir_inv).
  - intros n Hn. split; apply dir_inv_fresh, Hn.
  - apply dir_inv_file.
  - apply dir_inv_dir.
  - intros n Hn. apply dir_inv_sort; [apply array_sort_perm | exact Hn].
Qed.

Lemma processNode_S h fuel node query stats :
  processNode h (S fuel) node query stats =
  if limitExceeded stats (depth node) then Ok (node, stats)
  else
    entries ← lift_host (readdir h (path node));
    '(node, stats) ←
      process_entries h (fun child st => processNode h fuel child query st)
        query entries node stats;
    node ← sortChildren h node;
    Ok (node, stats).
Proof. reflexivity. Qed.

#[local] Arguments processNode : simpl never.

(** What [ingest_node] returns is either the single FILE node or the root a
    traversal filled. *)
Lemma ingest_node_Ok h query node :
  snd (ingest_node h query) = Ok node ->
  leaf_file node \/
  (exists root s',
     fresh_dir root /\ depth root = 0 /\
     processNode h traversal_fuel root (fst (ingest_node h query))
       new_FileSystemStats = Ok (node, s')).
Proof.
  unfold ingest_node. cbn [fst snd].
  destruct (access h _); cbn [negb]; [|discriminate].
  destruct (stat h _) as [st|m]; simpl; [|discriminate].
  match goal with
  | |- (if ?b then _ else _) = _ -> _ => destruct b
  end.
  - destruct (st_kind st); simpl; try discriminate.
    intros H. apply bind_Ok in H as (c & _ & H).
    destruct (nonempty c); simpl in H; [|discriminate].
    injection H as <-. left. repeat split.
  - intros H. apply bind_Ok in H as ([root s'] & Hp & [= <-]).
    right. eexists _, s'. split; [|split; [|exact Hp]]; repeat split.
Qed.

(** ** The fuel suffices *)

Lemma bind_OutOfFuel {A B} (m : Outcome A) (f : A -> Outcome B) :
  m ≫= f = OutOfFuel -> m = OutOfFuel \/ exists a, m = Ok a /\ f a = OutOfFuel.
Proof. destruct m as [a| |]; simpl; intros H; try discriminate; eauto. Qed.

Lemma lift_host_fuel {A} (r : HostResult A) : lift_host r <> OutOfFuel.
Proof. destruct r; discriminate. Qed.

Lemma processFile_fuel h filePath parent stats lp :
  processFile h filePath parent stats lp <> OutOfFuel.
Proof.
  unfold processFile. destruct (stat h filePath); simpl; [|discriminate].
  repeat case_match; discriminate.
Qed.

Lemma visit_fuel h recur query node stats sp target :
  visit h recur query node stats sp target = OutOfFuel ->
  exists c0 s0, depth c0 = depth node + 1 /\ recur c0 s0 = OutOfFuel.
Proof.
  unfold visit. destruct (bool_decide _); [discriminate|].
  destruct (shouldExclude _ _ _ _); [discriminate|].
  match goal with |- context [if ?b then _ else _] => destruct b end;
    [discriminate|].
  destruct (stat h target) as [st|m]; simpl; [|discriminate].
  destruct (st_kind st).
  - intros H. contradiction (processFile_fuel _ _ _ _ _ H).
  - match goal with
    | |- context [recur ?c ?s] =>
        destruct (recur c s) as [[child st1]| |] eqn:Hrec; simpl; try discriminate;
          intros _; exists c, s
    end.
    split; [destruct sp; reflexivity | exact Hrec].
  - discriminate.
Qed.

Lemma process_entries_fuel h recur query d entries :
  (forall c s, depth c = d + 1 -> recur c s <> OutOfFuel) ->
  forall node stats, depth node = d ->
    process_entries h recur query entries node stats <> OutOfFuel.
Proof.
  intros Hrec. induction entries as [|e es IH]; intros node stats Hd; simpl;
    [discriminate|].
  intros H. apply bind_OutOfFuel in H as [H|([n1 s1] & He & H)].
  - unfold process_entry in H.
    destruct (d_isSymbolicLink e).
    + destruct (isSafeSymlink _ _ _); simpl in H; [|discriminate].
      destruct (realpath h _); simpl in H; [|discriminate].
      apply visit_fuel in H as (c0 & s0 & Hc & H). apply (Hrec c0 s0); congruence.
    + apply visit_fuel in H as (c0 & s0 & Hc & H). apply (Hrec c0 s0); congruence.
  - apply (IH n1 s1); [|exact H].
    apply process_entry_Ok in He as [->|[(child & sz & _ & _ & Happ)|
                                         (c0 & s0 & child & _ & _ & _ & Happ)]];
      [exact Hd| |]; destruct Happ as (_ & _ & _ & _ & Hdep & _); congruence.
Qed.

Lemma processNode_fuel h query fuel :
  forall node stats,
    0 <= depth node <= MAX_DIRECTORY_DEPTH + 1 ->
    MAX_DIRECTORY_DEPTH + 2 - depth node <= Z.of_nat fuel ->
    processNode h fuel node query stats <> OutOfFuel.
Proof.
  unfold MAX_DIRECTORY_DEPTH.
  induction fuel as [|fuel IH]; intros node stats Hd Hf; [simpl in Hf; lia|].
  rewrite processNode_S.
  destruct (limitExceeded stats (depth node)) eqn:Hlim; [discriminate|].
  assert (depth node <= 20) as Hle.
  { unfold limitExceeded, MAX_DIRECTORY_DEPTH in Hlim.
    destruct (Z.gtb_spec (depth node) 20); [discriminate | lia]. }
  intros H. apply bind_OutOfFuel in H as [H|(entries & _ & H)].
  { contradiction (lift_host_fuel _ H). }
  apply bind_OutOfFuel in H as [H|([n1 s1] & _ & H)].
  - revert H. apply (process_entries_fuel h _ query (depth node)); [|reflexivity].
    intros c s Hc. apply IH; lia.
  - apply bind_OutOfFuel in H as [H|(n2 & _ & H)]; [|discriminate].
    unfold sortChildren in H. destruct (type n1); discriminate.
Qed.

Lemma bind_fuel {A B} (m : Outcome A) (f : A -> Outcome B) :
  m <> OutOfFuel -> (forall a, f a <> OutOfFuel) -> m ≫= f <> OutOfFuel.
Proof. destruct m; simpl; auto. Qed.

Section NotebookTotal.

Variable h : Host.

Lemma prop_fuel v k : prop h v k <> OutOfFuel.
Proof. destruct v as [[]|]; discriminate. Qed.

Ltac fuel_step :=
  first [ discriminate
        | apply prop_fuel
        | apply lift_host_fuel
        | apply bind_fuel; [|intros ?] ].

Lemma extractOutput_fuel o : extractOutput h o <> OutOfFuel.
Proof.
  unfold extractOutput. apply bind_fuel; [apply prop_fuel|]. intros t.
  repeat case_match; repeat fuel_step.
Qed.

Lemma extract_all_fuel os : extract_all h os <> OutOfFuel.
Proof.
  induction os as [|o os IH]; simpl; [discriminate|].
  apply bind_fuel; [apply extractOutput_fuel|]. intros ?.
  apply bind_fuel; [exact IH|]. discriminate.
Qed.

Lemma format_lines_fuel ls : format_lines h ls <> OutOfFuel.
Proof.
  induction ls as [|l ls IH]; simpl; [discriminate|].
  repeat case_match; try discriminate.
  all: apply bind_fuel; [exact IH|]; discriminate.
Qed.

Lemma iterate_fuel v : iterate h v <> OutOfFuel.
Proof. destruct v as [[]|]; discriminate. Qed.

Lemma processCell_fuel cell inc : processCell h cell inc <> OutOfFuel.
Proof.
  unfold processCell. apply bind_fuel; [apply prop_fuel|]. intros t.
  case_match; [discriminate|].
  apply bind_fuel; [apply prop_fuel|]. intros src.
  repeat (case_match; try discriminate).
  all: apply bind_fuel; [apply prop_fuel|]; intros outs.
  all: case_match; [|discriminate].
  all: apply bind_fuel; [apply iterate_fuel|]; intros ?.
  all: apply bind_fuel; [apply extract_all_fuel|]; intros ?.
  all: apply bind_fuel; [apply format_lines_fuel|]; discriminate.
Qed.

Lemma process_cells_fuel cells inc : process_cells h cells inc <> OutOfFuel.
Proof.
  induction cells as [|c cs IH]; simpl; [discriminate|].
  apply bind_fuel; [apply processCell_fuel|]. intros ?.
  apply bind_fuel; [exact IH|]. discriminate.
Qed.

Lemma flatMap_cells_fuel wss : flatMap_cells h wss <> OutOfFuel.
Proof.
  induction wss as [|w ws IH]; [discriminate|].
  cbn [flatMap_cells].
  apply bind_fuel; [apply prop_fuel|]. intros ?.
  apply bind_fuel; [exact IH|]. discriminate.
Qed.

Lemma processNotebook_fuel p inc : processNotebook h p inc <> OutOfFuel.
Proof.
  unfold processNotebook. apply bind_fuel; [apply lift_host_fuel|]. intros text.
  destruct (JSON_parse h text) as [nb|]; [|discriminate].
  apply bind_fuel; [apply prop_fuel|]. intros ws.
  apply bind_fuel.
  - destruct (truthy ws).
    + destruct ws as [[]|]; try discriminate. apply flatMap_cells_fuel.
    + apply bind_fuel; [apply prop_fuel|]. intros ?. apply iterate_fuel.
  - intros cells. apply bind_fuel; [apply process_cells_fuel|]. discriminate.
Qed.

Lemma content_fuel n : content h n <> OutOfFuel.
Proof.
  unfold content. destruct (type n); [discriminate|].
  repeat (case_match; try discriminate).
  intros _. eapply processNotebook_fuel; eassumption.
Qed.

End NotebookTotal.

(** The traversal of [ingestQuery] always returns or throws. *)
Lemma ingest_node_total h query : snd (ingest_node h query) <> OutOfFuel.
Proof.
  unfold ingest_node. cbn [fst snd].
  destruct (access h _); cbn [negb]; [|discriminate].
  destruct (stat h _) as [st|m]; simpl; [|discriminate].
  match goal with
  | |- (if ?b then _ else _) <> _ => destruct b
  end.
  - destruct (st_kind st); simpl; try discriminate.
    apply bind_fuel; [apply content_fuel|]. intros c.
    destruct (nonempty c); discriminate.
  - intros H. apply bind_OutOfFuel in H as [H|([root s'] & _ & H)];
      [|discriminate].
    revert H. apply processNode_fuel.
    + simpl. unfold MAX_DIRECTORY_DEPTH. lia.
    + vm_compute. discriminate.
Qed.

(** C1.  In the tree a completed traversal returns, every DIRECTORY node's
    [size] is the sum of the sizes of the FILE nodes below it, its
    [file_count] their number, and its [dir_count] the number of DIRECTORY
    nodes strictly below it; every FILE node has no children and a
    [dir_count] of zero. *)
Theorem C1_aggregates h query node :
  snd (ingest_node h query) = Ok node ->
  node_all aggregates_ok node.
Proof.
  intros H. apply ingest_node_Ok in H as [Hleaf|(root & s' & Hroot & _ & H)].
  - apply leaf_node_all, Hleaf.
  - apply dir_inv_node_all. eapply processNode_dir_inv; eassumption.
Qed.

(** C1 on the example tree. *)
Lemma C1_aggregates_example :
  exists node,
    snd (ingest_node example_host (local_query "/root")) = Ok node /\
    file_count node = 5 /\ dir_count node = 2 /\ size node = 22 /\
    node_all aggregates_ok node.
Proof.
  eexists. split; [vm_compute; reflexivity|].
  split; [reflexivity|]. split; [reflexivity|]. split; [reflexivity|].
  apply (C1_aggregates example_host (local_query "/root")).
  vm_compute; reflexivity.
Defined.

(** ** Display order (C8) *)

Lemma tree_sorted_leaf h c : children c = [] -> tree_sorted h c.
Proof.
  intros Hc. apply node_all_unfold. rewrite Hc. split; constructor.
Qed.

Lemma processNode_tree_sorted h fuel node query stats n' s' :
  locale_consistent h ->
  fresh_dir node ->
  processNode h fuel node query stats = Ok (n', s') -> tree_sorted h n'.
Proof.
  intros Hlc.
  apply (processNode_invariant h
           (fun n => Forall (tree_sorted h) (children n)) (tree_sorted h)).
  - intros n (_ & Hc & _). rewrite Hc. split; [constructor|].
    apply tree_sorted_leaf, Hc.
  - intros n m child sz Hn (_ & Hcc & _) _ (_ & _ & _ & _ & _ & Hch & _).
    rewrite Hch. apply Forall_app. split; [exact Hn|].
    constructor; [apply tree_sorted_leaf, Hcc | constructor].
  - intros n m child Hn Hchild (_ & _ & _ & _ & _ & Hch & _).
    rewrite Hch. apply Forall_app. split; [exact Hn|].
    constructor; [exact Hchild | constructor].
  - intros n Hn. apply node_all_unfold. simpl.
    destruct (array_sort_children h (children n) Hlc) as [Hp Hs].
    split; [exact Hs|]. rewrite <- Hp. exact Hn.
Qed.

Lemma code_unit_compare_le a b : code_unit_compare a b <= 0 <-> String.le a b.
Proof.
  unfold code_unit_compare, String.le, String.leb.
  destruct (String.compare a b); simpl; split; intros H;
    try lia; try exact I; try contradiction.
Qed.

Lemma mem_host_consistent fs parse : locale_consistent (mem_host fs parse).
Proof.
  split; simpl.
  - intros a b. rewrite !code_unit_compare_le. apply String.le_total.
  - intros a b c. rewrite !code_unit_compare_le. apply transitivity.
Qed.

(** Whatever order the five example children are appended in, the sort puts
    them in the same one. *)
Lemma sort_insert_ext {A} (cmp1 cmp2 : A -> A -> Z) x l :
  (forall y, In y l -> cmp1 x y = cmp2 x y) ->
  sort_insert cmp1 x l = sort_insert cmp2 x l.
Proof.
  induction l as [|y l IH]; intros H; simpl; [reflexivity|].
  rewrite (H y) by (left; reflexivity).
  rewrite IH by (intros z Hz; apply H; right; exact Hz). reflexivity.
Qed.

Lemma array_sort_ext {A} (cmp1 cmp2 : A -> A -> Z) l :
  (forall a b, In a l -> In b l -> cmp1 a b = cmp2 a b) ->
  array_sort cmp1 l = array_sort cmp2 l.
Proof.
  induction l as [|x l IH]; intros H; simpl; [reflexivity|].
  rewrite IH by (intros a b Ha Hb; apply H; right; assumption).
  apply sort_insert_ext. intros y Hy. apply H; [left; reflexivity|].
  right. eapply Permutation_in; [|exact Hy].
  symmetry. apply array_sort_perm.
Qed.

Lemma compareChildren_ascii h a b :
  lowers_ascii h ->
  ascii_only (name a) = true -> ascii_only (name b) = true ->
  compareChildren h a b = compareChildren (ascii_platform h) a b.
Proof.
  intros Hl Ha Hb. unfold compareChildren, sortKey.
  rewrite (Hl _ Ha), (Hl _ Hb). reflexivity.
Qed.

(** Whatever order the five example children are appended in, the sort puts
    them in the same one. *)
Lemma example_children_sorted h l :
  lowers_ascii h ->
  Permutation l example_children ->
  array_sort (compareChildren h) l = example_sorted.
Proof.
  intros Hl Hp.
  rewrite (array_sort_ext _ (compareChildren (ascii_platform h))).
  - symmetry in Hp. apply permutations_Permutation in Hp.
    revert l Hp. apply Forall_forall.
    vm_compute permutations.
    repeat (constructor; [reflexivity|]). constructor.
  - assert (forall c, In c l -> ascii_only (name c) = true) as Hn.
    { intros c Hc. eapply Permutation_in in Hc; [|exact Hp].
      simpl in Hc. repeat destruct Hc as [<-|Hc]; try reflexivity.
      contradiction. }
    intros a b Ha Hb. apply compareChildren_ascii; auto.
Qed.

(** C8.  The sort key's group is the specification's priority group, taken
    on the name as the platform lower-cases it; the comparator orders by
    group and then by the collation of the lower-cased names; under a
    consistent collation [sortChildren]'s list is a sorted permutation of the
    children; in the tree a traversal returns every directory's children are
    so sorted; and the five children of the example render as README.md,
    b.txt, .env, src/, .git/ whatever order they were listed in, on every
    platform that lower-cases ASCII text letter by letter. *)
Theorem C8_display_order :
  (forall h c, fst (sortKey h c) = priority_group h c /\
               snd (sortKey h c) = toLowerCase h (name c)) /\
  (forall h a b, compareChildren h a b <= 0 <-> child_le h a b) /\
  (forall h n,
     locale_consistent h -> type n = DIRECTORY ->
     exists sorted,
       sortChildren h n = Ok (set_children n sorted) /\
       Permutation (children n) sorted /\
       StronglySorted (child_le h) sorted) /\
  (forall h query node,
     locale_consistent h ->
     snd (ingest_node h query) = Ok node -> tree_sorted h node) /\
  (forall h query l,
     lowers_ascii h ->
     Permutation l example_children ->
     map name (array_sort (compareChildren h) l)
       = ["README.md"; "b.txt"; ".env"; "src"; ".git"] /\
     fst (createTreeStructure query
            (set_children (dir_named "root") (array_sort (compareChildren h) l))
            EmptyString true)
       = example_tree_text).
Proof.
  split; [|split; [|split; [|split]]].
  - intros h c. split; [apply sortKey_priority | apply sortKey_name].
  - apply compareChildren_le.
  - intros h n Hlc Ht. exists (array_sort (compareChildren h) (children n)).
    unfold sortChildren. rewrite Ht. split; [reflexivity|].
    apply array_sort_children, Hlc.
  - intros h query node Hlc H.
    apply ingest_node_Ok in H as [(_ & Hc & _)|(root & s' & Hroot & _ & H)].
    + apply tree_sorted_leaf, Hc.
    + eapply processNode_tree_sorted; eassumption.
  - intros h query l Hl Hp. rewrite (example_children_sorted h l Hl Hp).
    split; reflexivity.
Qed.

(** C8 on the example tree, whose host collates by code units and
    lower-cases ASCII letters. *)
Lemma C8_display_order_example :
  (exists node,
     snd (ingest_node example_host (local_query "/root")) = Ok node /\
     map name (children node) = ["README.md"; "a.md"; ".env"; "sub"; ".git"] /\
     tree_sorted example_host node) /\
  lowers_ascii example_host /\
  map name (array_sort (compareChildren example_host) (rev example_children))
    = ["README.md"; "b.txt"; ".env"; "src"; ".git"].
Proof.
  destruct C8_display_order as (_ & _ & _ & Htree & Hfive).
  assert (lowers_ascii example_host) as Hl by (intros s _; reflexivity).
  split; [|split; [exact Hl|]].
  - eexists. split; [vm_compute; reflexivity|]. split; [reflexivity|].
    apply (Htree example_host (local_query "/root")).
    + apply mem_host_consistent.
    + vm_compute; reflexivity.
  - apply (Hfive example_host (local_query "/root") (rev example_children) Hl).
    symmetry. apply Permutation_rev.
Defined.

(** ** Budgets (C3, C4) *)

Section Budgets.

Variable h : Host.

Lemma is_file_of_size_spec r sz :
  is_file_of_size r sz = true -> r = HOk (mkStats KFile sz).
Proof.
  destruct r as [[[] n]|]; simpl; try discriminate.
  intros H. apply Z.eqb_eq in H. subst. reflexivity.
Qed.

Lemma processFile_skip filePath parent stats lp st :
  stat h filePath = HOk st ->
  total_size stats + st_size st > MAX_TOTAL_SIZE_BYTES ->
  processFile h filePath parent stats lp = Ok (parent, stats).
Proof.
  intros Hst Hs. unfold processFile. rewrite Hst. simpl.
  destruct (Z.gtb_spec (total_size stats + st_size st) MAX_TOTAL_SIZE_BYTES);
    [reflexivity | lia].
Qed.

Lemma processFile_refused filePath parent stats lp st :
  stat h filePath = HOk st ->
  total_size stats + st_size st <= MAX_TOTAL_SIZE_BYTES ->
  total_files stats + 1 > MAX_FILES ->
  processFile h filePath parent stats lp = Ok (parent, counted stats (st_size st)).
Proof.
  intros Hst Hs Hf. unfold processFile. rewrite Hst. simpl.
  destruct (Z.gtb_spec (total_size stats + st_size st) MAX_TOTAL_SIZE_BYTES);
    [lia|].
  destruct (Z.gtb_spec (total_files stats + 1) MAX_FILES); [reflexivity | lia].
Qed.

Lemma processFile_kept filePath parent stats lp st :
  stat h filePath = HOk st ->
  total_size stats + st_size st <= MAX_TOTAL_SIZE_BYTES ->
  total_files stats + 1 <= MAX_FILES ->
  processFile h filePath parent stats lp =
  Ok (with_file parent (file_child h lp filePath parent (st_size st)) (st_size st),
      counted stats (st_size st)).
Proof.
  intros Hst Hs Hf. unfold processFile. rewrite Hst. simpl.
  destruct (Z.gtb_spec (total_size stats + st_size st) MAX_TOTAL_SIZE_BYTES);
    [lia|].
  destruct (Z.gtb_spec (total_files stats + 1) MAX_FILES); [lia | reflexivity].
Qed.

(** An entry that is a regular file, not yet visited and let through by the
    patterns, is handed to [processFile]. *)
Lemma process_entry_file recur query node stats e sz :
  flat_entry h query (path node) sz e = true ->
  path_join (path node) (d_name e) ∉ visited stats ->
  process_entry h recur query node stats e =
  processFile h (path_join (path node) (d_name e)) node
    (add_visited stats (path_join (path node) (d_name e))) (local_path query).
Proof.
  unfold flat_entry, filters_pass. rewrite !andb_true_iff, !negb_true_iff.
  intros [[Hl Hst] [Hex Hin]] Hv. apply is_file_of_size_spec in Hst.
  unfold process_entry. rewrite Hl. unfold visit.
  rewrite bool_decide_eq_false_2 by exact Hv. rewrite Hex.
  destruct (include_patterns query); [rewrite Hin|]; simpl; rewrite Hst; reflexivity.
Qed.

(** The loop over a flat directory of equal files that the size budget can
    hold: every file is counted, and as many are kept as the file budget had
    room for. *)
Lemma process_entries_flat recur query dir sz entries :
  0 <= sz ->
  forall node stats,
    path node = dir ->
    Forall (fun e => flat_entry h query dir sz e = true) entries ->
    all_new (visited stats) (map (fun e => path_join dir (d_name e)) entries) = true ->
    total_size stats + Z.of_nat (length entries) * sz <= MAX_TOTAL_SIZE_BYTES ->
    exists n' s',
      process_entries h recur query entries node stats = Ok (n', s') /\
      type n' = type node /\
      total_files s' = total_files stats + Z.of_nat (length entries) /\
      file_count n' = file_count node
        + Z.max 0 (Z.min (Z.of_nat (length entries)) (MAX_FILES - total_files stats)) /\
      Z.of_nat (length (children n')) = Z.of_nat (length (children node))
        + Z.max 0 (Z.min (Z.of_nat (length entries)) (MAX_FILES - total_files stats)).
Proof.
  intros Hsz. induction entries as [|e es IH]; intros node stats Hp Hall Hnew Hbud.
  - exists node, stats. simpl. repeat split; lia.
  - apply Forall_cons in Hall as [He Hes].
    simpl in Hnew. case_bool_decide as Hv; [discriminate|].
    rewrite length_cons, Nat2Z.inj_succ in Hbud |- *.
    cbn [process_entries]. rewrite <- Hp in He, Hv.
    rewrite (process_entry_file recur query node stats e sz He Hv), Hp.
    unfold flat_entry in He. rewrite !andb_true_iff in He.
    destruct He as [[_ Hst] _]. apply is_file_of_size_spec in Hst. rewrite Hp in Hst.
    set (p := path_join dir (d_name e)) in *.
    destruct (Z_le_gt_dec (total_files stats + 1) MAX_FILES) as [Hf|Hf].
    + rewrite (processFile_kept _ _ _ _ _ Hst); simpl; [|nia|exact Hf].
      edestruct (IH (with_file node (file_child h (local_path query) p node sz) sz)
                   (counted (add_visited stats p) sz))
        as (n' & s' & Hrun & Ht & Htf & Hfc & Hch);
        [exact Hp | exact Hes | exact Hnew | simpl; nia |].
      exists n', s'. split; [exact Hrun|]. simpl in *.
      rewrite length_app in Hch. simpl in Hch.
      repeat split; try congruence; lia.
    + rewrite (processFile_refused _ _ _ _ _ Hst); simpl; [|nia|exact Hf].
      edestruct (IH node (counted (add_visited stats p) sz))
        as (n' & s' & Hrun & Ht & Htf & Hfc & Hch);
        [exact Hp | exact Hes | exact Hnew | simpl; nia |].
      exists n', s'. split; [exact Hrun|]. simpl in *.
      repeat split; try congruence; lia.
Qed.

(** *** Once the file counter has reached its maximum *)

Lemma limitExceeded_saturated stats d :
  MAX_FILES <= total_files stats -> limitExceeded stats d = true.
Proof.
  intros H. unfold limitExceeded. destruct (d >? MAX_DIRECTORY_DEPTH); [reflexivity|].
  destruct (Z.geb_spec (total_files stats) MAX_FILES); [reflexivity | lia].
Qed.

Lemma processFile_saturated filePath parent stats lp n' s' :
  MAX_FILES <= total_files stats ->
  processFile h filePath parent stats lp = Ok (n', s') ->
  n' = parent /\ MAX_FILES <= total_files s'.
Proof.
  intros Hsat H.
  apply processFile_Ok in H as (st & _ & [(_ & -> & ->)|(_ & -> & H)]); [auto|].
  destruct H as [(_ & ->)|(Hle & _)]; [|lia]. split; [reflexivity|]. simpl. lia.
Qed.

Lemma processNode_saturated fuel node query stats n' s' :
  MAX_FILES <= total_files stats ->
  processNode h fuel node query stats = Ok (n', s') ->
  n' = node /\ s' = stats.
Proof.
  intros Hsat. destruct fuel as [|fuel]; [discriminate|].
  rewrite processNode_S, (limitExceeded_saturated _ _ Hsat).
  intros [= <- <-]. auto.
Qed.

Lemma visit_saturated fuel query node stats sp target n' s' :
  MAX_FILES <= total_files stats ->
  visit h (fun c st => processNode h fuel c query st) query node stats sp target
    = Ok (n', s') ->
  MAX_FILES <= total_files s' /\ files_below n' = files_below node.
Proof.
  intros Hsat. unfold visit. destruct (bool_decide _); [intros [= <- <-]; auto|].
  destruct (shouldExclude _ _ _ _); [intros [= <- <-]; auto|].
  match goal with |- context [if ?b then _ else _] => destruct b end;
    [intros [= <- <-]; auto|].
  destruct (stat h target) as [st|m]; simpl; [|discriminate].
  destruct (st_kind st).
  - intros H. apply processFile_saturated in H as [-> H]; auto.
  - match goal with
    | |- context [processNode h fuel ?c query ?s] =>
        destruct (processNode h fuel c query s) as [[child st1]| |] eqn:Hrec;
          simpl; try discriminate;
          apply processNode_saturated in Hrec as [-> ->]; [|exact Hsat]
    end.
    intros [= <- <-]. split; [exact Hsat|].
    match goal with
    | |- files_below ?m = _ =>
        match m with
        | context [push_child node ?c] =>
            destruct (below_appended_dir node m c (size c) (file_count c)
                        (1 + dir_count c)) as [Hfb _];
              [repeat split; simpl; try reflexivity; lia
              |destruct sp; reflexivity
              |rewrite Hfb; unfold files_below at 2;
               rewrite (leaf_descendants c) by (destruct sp; reflexivity)]
        end
    end.
    simpl. apply app_nil_r.
  - discriminate.
Qed.

Lemma process_entries_saturated fuel query entries :
  forall node stats n' s',
    MAX_FILES <= total_files stats ->
    process_entries h (fun c st => processNode h fuel c query st) query
      entries node stats = Ok (n', s') ->
    MAX_FILES <= total_files s' /\ files_below n' = files_below node.
Proof.
  induction entries as [|e es IH]; intros node stats n' s' Hsat; simpl.
  - intros [= <- <-]. auto.
  - intros H. apply bind_Ok in H as ([n1 s1] & He & Hes).
    assert (MAX_FILES <= total_files s1 /\ files_below n1 = files_below node)
      as [Hsat1 Hfb].
    { unfold process_entry in He. destruct (d_isSymbolicLink e).
      - destruct (isSafeSymlink _ _ _); simpl in He; [|injection He as <- <-; auto].
        destruct (realpath h _); simpl in He; [|discriminate].
        eapply visit_saturated; eassumption.
      - eapply visit_saturated; eassumption. }
    destruct (IH _ _ _ _ Hsat1 Hes) as [Hs' Hfb']. split; congruence.
Qed.

(** *** The file counter never goes down *)

Lemma processFile_counter filePath parent stats lp n' s' :
  processFile h filePath parent stats lp = Ok (n', s') ->
  total_files stats <= total_files s'.
Proof.
  intros H. apply processFile_Ok in H as (st & _ & [(_ & _ & ->)|(_ & -> & _)]);
    simpl; lia.
Qed.

Lemma process_entries_counter recur query :
  (forall c s c' s', recur c s = Ok (c', s') -> total_files s <= total_files s') ->
  forall entries node stats n' s',
    process_entries h recur query entries node stats = Ok (n', s') ->
    total_files stats <= total_files s'.
Proof.
  intros Hrec. induction entries as [|e es IH]; intros node stats n' s'; simpl.
  - intros [= <- <-]. lia.
  - intros H. apply bind_Ok in H as ([n1 s1] & He & Hes).
    apply IH in Hes. enough (total_files stats <= total_files s1) by lia.
    clear Hes IH. unfold process_entry in He.
    assert (forall sp t, visit h recur query node stats sp t = Ok (n1, s1) ->
                         total_files stats <= total_files s1) as Hvisit.
    { intros sp t. unfold visit.
      destruct (bool_decide _); [intros [= <- <-]; lia|].
      destruct (shouldExclude _ _ _ _); [intros [= <- <-]; simpl; lia|].
      match goal with |- context [if ?b then _ else _] => destruct b end;
        [intros [= <- <-]; simpl; lia|].
      destruct (stat h t) as [st|m]; simpl; [|discriminate].
      destruct (st_kind st).
      - intros H. apply processFile_counter in H. exact H.
      - match goal with
        | |- context [recur ?c ?s] =>
            destruct (recur c s) as [[child st1]| |] eqn:Hr; simpl; try discriminate;
              apply Hrec in Hr
        end.
        intros [= <- <-]. exact Hr.
      - discriminate. }
    destruct (d_isSymbolicLink e).
    + destruct (isSafeSymlink _ _ _); simpl in He; [|injection He as <- <-; lia].
      destruct (realpath h _); simpl in He; [|discriminate]. eapply Hvisit, He.
    + eapply Hvisit, He.
Qed.

Lemma processNode_counter fuel : forall node query stats n' s',
  processNode h fuel node query stats = Ok (n', s') ->
  total_files stats <= total_files s'.
Proof.
  induction fuel as [|fuel IH]; intros node query stats n' s'; [discriminate|].
  rewrite processNode_S. destruct (limitExceeded _ _); [intros [= <- <-]; lia|].
  destruct (readdir h (path node)); simpl; [|discriminate].
  intros H. apply bind_Ok in H as ([n1 s1] & Hloop & Hrest).
  apply bind_Ok in Hrest as (n2 & _ & [= <- <-]).
  eapply process_entries_counter; [|exact Hloop].
  intros c s c' s'. apply IH.
Qed.

End Budgets.

Lemma all_new_NoDup seen l :
  NoDup l -> (forall x, In x l -> x ∉ seen) -> all_new seen l = true.
Proof.
  intros Hnd. revert seen. induction Hnd as [|x l Hx Hnd IH]; intros seen Hnew; simpl.
  - reflexivity.
  - rewrite bool_decide_eq_false_2 by (apply Hnew; left; reflexivity).
    apply IH. intros y Hy Hin. apply elem_of_union in Hin as [Hin|Hin].
    + apply elem_of_singleton in Hin. subst y. apply Hx, list_elem_of_In, Hy.
    + apply (Hnew y); [right; exact Hy | exact Hin].
Qed.

(** C3.  A flat directory of [MAX_FILES + 5] equal files that the size budget
    can hold, none of them a link or filtered out, gives a root whose
    [file_count] (and number of children) is exactly [MAX_FILES], all
    [MAX_FILES + 5] files having been counted.  Once the running file counter
    has reached [MAX_FILES], [processFile] appends nothing, the rest of a
    loop adds no FILE node anywhere below the node it fills, and the counter,
    which never decreases, stays there. *)
Theorem C3_file_count_budget :
  (forall h query root_name root_str dir entries sz,
     readdir h dir = HOk entries ->
     Z.of_nat (length entries) = MAX_FILES + 5 ->
     0 <= sz -> (MAX_FILES + 5) * sz <= MAX_TOTAL_SIZE_BYTES ->
     Forall (fun e => flat_entry h query dir sz e = true) entries ->
     NoDup (map (fun e => path_join dir (d_name e)) entries) ->
     exists root s',
       processNode h traversal_fuel
         (new_FileSystemNode root_name DIRECTORY root_str dir) query
         new_FileSystemStats = Ok (root, s') /\
       file_count root = MAX_FILES /\
       Z.of_nat (length (children root)) = MAX_FILES /\
       total_files s' = MAX_FILES + 5)
  /\
  (forall h filePath parent stats lp n' s',
     MAX_FILES <= total_files stats ->
     processFile h filePath parent stats lp = Ok (n', s') ->
     n' = parent /\ MAX_FILES <= total_files s')
  /\
  (forall h fuel query entries node stats n' s',
     MAX_FILES <= total_files stats ->
     process_entries h (fun c st => processNode h fuel c query st) query
       entries node stats = Ok (n', s') ->
     files_below n' = files_below node /\ MAX_FILES <= total_files s')
  /\
  (forall h fuel node query stats n' s',
     processNode h fuel node query stats = Ok (n', s') ->
     total_files stats <= total_files s').
Proof.
  split; [|split; [|split]].
  - intros h query root_name root_str dir entries sz Hrd Hlen Hsz Hbud Hall Hnd.
    change traversal_fuel with (S 21). rewrite processNode_S.
    change (limitExceeded new_FileSystemStats _) with false. cbv iota.
    cbn [path new_FileSystemNode]. rewrite Hrd. simpl lift_host.
    edestruct (process_entries_flat h
                 (fun c st => processNode h 21 c query st) query dir sz entries Hsz
                 (new_FileSystemNode root_name DIRECTORY root_str dir)
                 new_FileSystemStats)
      as (n1 & s1 & Hrun & Ht & Htf & Hfc & Hch).
    + reflexivity.
    + exact Hall.
    + apply all_new_NoDup; [exact Hnd|]. intros x _. apply not_elem_of_empty.
    + simpl. rewrite Hlen. lia.
    + cbn [mbind Outcome_bind]. rewrite Hrun. cbn [mbind Outcome_bind].
      unfold sortChildren. rewrite Ht. simpl.
      eexists _, s1. split; [reflexivity|]. simpl in *.
      rewrite <- (Permutation_length (array_sort_perm _ _)).
      rewrite Hlen in *. unfold MAX_FILES in *. repeat split; lia.
  - intros h filePath parent stats lp n' s'. apply processFile_saturated.
  - intros h fuel query entries node stats n' s' Hsat H.
    destruct (process_entries_saturated h fuel query entries _ _ _ _ Hsat H).
    auto.
  - intros h fuel. apply processNode_counter.
Qed.

(** *** Paths of directory entries *)

Lemma split_on_nonempty sep s : split_on sep s <> [].
Proof.
  destruct s as [|c s]; simpl; [discriminate|].
  destruct (Ascii.eqb c sep); [discriminate|].
  destruct (split_on sep s); discriminate.
Qed.

Lemma split_on_no_sep sep s :
  includes_char s sep = false -> split_on sep s = [s].
Proof.
  induction s as [|c s IH]; simpl; [reflexivity|].
  intros H. apply orb_false_iff in H as [Hc Hs].
  rewrite Ascii.eqb_sym, Hc, (IH Hs). reflexivity.
Qed.

Lemma split_on_app sep a b :
  split_on sep (a +:+ String sep b) = split_on sep a ++ split_on sep b.
Proof.
  induction a as [|c a IH]; push_app; simpl.
  - rewrite Ascii.eqb_refl. reflexivity.
  - destruct (Ascii.eqb c sep); rewrite IH; [reflexivity|].
    pose proof (split_on_nonempty sep a) as Hne.
    destruct (split_on sep a); [contradiction | reflexivity].
Qed.

Lemma str_rev_app_app s acc : str_rev_app s acc = str_rev s +:+ acc.
Proof.
  unfold str_rev. revert acc. induction s as [|c s IH]; intros acc; simpl.
  - reflexivity.
  - rewrite (IH (String c acc)), (IH (String c EmptyString)).
    rewrite str_append_assoc. reflexivity.
Qed.

Lemma str_rev_cons c s : str_rev (String c s) = str_rev s +:+ String c EmptyString.
Proof. unfold str_rev at 1. simpl. apply str_rev_app_app. Qed.

Lemma str_rev_append a b : str_rev (a +:+ b) = str_rev b +:+ str_rev a.
Proof.
  induction a as [|c a IH]; push_app.
  - induction (str_rev b) as [|d r IHr]; push_app; [reflexivity|].
    rewrite <- IHr. reflexivity.
  - rewrite !str_rev_cons, IH, str_append_assoc. reflexivity.
Qed.

Lemma includes_char_append a b c :
  includes_char (a +:+ b) c = includes_char a c || includes_char b c.
Proof.
  induction a as [|d a IH]; push_app; simpl; [reflexivity|].
  rewrite IH, orb_assoc. reflexivity.
Qed.

Lemma includes_char_rev s c : includes_char (str_rev s) c = includes_char s c.
Proof.
  induction s as [|d s IH]; [reflexivity|].
  rewrite str_rev_cons, includes_char_append, IH. simpl.
  rewrite orb_false_r, orb_comm. reflexivity.
Qed.

(** A text that does not hold the separator does not end with it, whatever
    stands before. *)
Lemma endsWith_sep_append a name :
  nonempty name = true -> includes_char name sep_char = false ->
  endsWith (a +:+ name) "/" = false.
Proof.
  intros Hne Hns. unfold endsWith. rewrite str_rev_append.
  rewrite <- includes_char_rev in Hns.
  assert (nonempty (str_rev name) = true) as Hne'.
  { destruct name as [|c name]; [discriminate|]. rewrite str_rev_cons.
    destruct (str_rev name); reflexivity. }
  destruct (str_rev name) as [|c r]; [discriminate|]. push_app. simpl in *.
  apply orb_false_iff in Hns as [Hc _]. rewrite Hc. reflexivity.
Qed.

Lemma entry_name_spec name :
  entry_name name = true ->
  nonempty name = true /\ includes_char name sep_char = false /\
  str_eqb name "." = false /\ str_eqb name ".." = false.
Proof.
  unfold entry_name. rewrite !andb_true_iff, !negb_true_iff. tauto.
Qed.

(** Joining the directory [/flat] and an entry name puts a separator between
    them, and the relative path from [/flat] is the name again. *)
Lemma segments_flat name :
  entry_name name = true -> segments ("/flat/" +:+ name) = ["flat"; name].
Proof.
  intros H. destruct (entry_name_spec name H) as (Hne & Hns & _).
  unfold segments.
  change ("/flat/" +:+ name) with ("/flat" +:+ String sep_char name).
  rewrite split_on_app, (split_on_no_sep _ _ Hns).
  change (split_on sep_char "/flat") with [EmptyString; "flat"].
  cbn [app]. rewrite filter_cons_False by (simpl; discriminate).
  rewrite filter_cons_True by reflexivity.
  rewrite filter_cons_True by exact Hne. rewrite filter_nil. reflexivity.
Qed.

Lemma normalizeString_flat name :
  entry_name name = true ->
  normalizeString ("/flat/" +:+ name) false = "flat/" +:+ name.
Proof.
  intros H. destruct (entry_name_spec name H) as (_ & _ & Hd & Hdd).
  unfold normalizeString. rewrite (segments_flat name H).
  cbn [normalize_walk]. change (str_eqb "flat" ".") with false.
  change (str_eqb "flat" "..") with false. cbv iota.
  rewrite Hd, Hdd. reflexivity.
Qed.

Lemma path_join_flat name :
  entry_name name = true -> path_join "/flat" name = "/flat/" +:+ name.
Proof.
  intros H. destruct (entry_name_spec name H) as (Hne & Hns & _).
  assert (path_join "/flat" name = path_normalize ("/flat/" +:+ name)) as ->.
  { unfold path_join, path_join_all.
    rewrite filter_cons_True by reflexivity.
    rewrite filter_cons_True by exact Hne. rewrite filter_nil. reflexivity. }
  unfold path_normalize.
  rewrite (endsWith_sep_append "/flat/" name Hne Hns).
  change (isAbsolute ("/flat/" +:+ name)) with true.
  change (nonempty ("/flat/" +:+ name)) with true. cbv iota.
  change (negb true) with false. rewrite (normalizeString_flat name H).
  reflexivity.
Qed.

Lemma path_relative_flat name :
  entry_name name = true ->
  path_relative "/" "/flat" ("/flat/" +:+ name) = name.
Proof.
  intros H. destruct (entry_name_spec name H) as (Hne & _).
  unfold path_relative.
  assert (str_eqb "/flat" ("/flat/" +:+ name) = false) as -> by reflexivity.
  unfold path_resolve.
  change (isAbsolute ("/flat/" +:+ name)) with true.
  change (isAbsolute "/flat") with true. cbv iota.
  rewrite (normalizeString_flat name H).
  change (normalizeString "/flat" false) with "flat".
  assert (str_eqb ("/" +:+ "flat") ("/" +:+ "flat/" +:+ name) = false) as ->
    by reflexivity.
  change ("/" +:+ "flat/" +:+ name) with ("/flat/" +:+ name).
  rewrite (segments_flat name H).
  change (segments ("/" +:+ "flat")) with ["flat"].
  cbn [drop_common]. change (str_eqb "flat" "flat") with true. cbv iota.
  reflexivity.
Qed.

(** *** The flat directory [/flat] *)

Lemma bits_no_sep p : includes_char (bits p) sep_char = false.
Proof. induction p as [p IH|p IH|]; simpl; auto. Qed.

Lemma bits_inj p q : bits p = bits q -> p = q.
Proof.
  revert q. induction p as [p IH|p IH|]; intros [q|q|]; simpl; intros H;
    try discriminate; try reflexivity; injection H as H; f_equal; auto.
Qed.

Lemma flat_name_inj i j : flat_name i = flat_name j -> i = j.
Proof.
  unfold flat_name. intros [= H]. apply bits_inj in H.
  apply SuccNat2Pos.inj, H.
Qed.

Lemma flat_name_entry i : entry_name (flat_name i) = true.
Proof.
  unfold entry_name, flat_name. cbn [nonempty includes_char].
  rewrite bits_no_sep. reflexivity.
Qed.

Lemma flat_host_entry n i :
  flat_entry (flat_host n) (local_query "/flat") "/flat" 1
    (mkDirent (flat_name i) false) = true.
Proof.
  unfold flat_entry, filters_pass. cbn [d_name d_isSymbolicLink negb andb].
  rewrite (path_join_flat _ (flat_name_entry i)).
  unfold shouldExclude. cbn [cwd flat_host local_query local_path].
  rewrite (path_relative_flat _ (flat_name_entry i)).
  reflexivity.
Qed.

Lemma flat_paths_distinct n :
  NoDup (map (fun e => path_join "/flat" (d_name e)) (flat_entries n)).
Proof.
  unfold flat_entries. rewrite map_map. cbn [d_name].
  rewrite (map_ext _ (fun i => "/flat/" +:+ flat_name i))
    by (intros i; apply path_join_flat, flat_name_entry).
  apply NoDup_fmap_2; [|apply NoDup_seq].
  intros i j H. apply String.app_inj in H. apply flat_name_inj, H.
Qed.

(** C3 on the flat directory [/flat] of [MAX_FILES + 5] one-byte files. *)
Lemma C3_file_count_budget_example :
  exists root s',
    processNode (flat_host flat_count) traversal_fuel
      (new_FileSystemNode "flat" DIRECTORY EmptyString "/flat")
      (local_query "/flat") new_FileSystemStats = Ok (root, s') /\
    file_count root = MAX_FILES /\
    Z.of_nat (length (children root)) = MAX_FILES /\
    total_files s' = MAX_FILES + 5.
Proof.
  destruct C3_file_count_budget as [Hflat _].
  apply (Hflat (flat_host flat_count) (local_query "/flat") "flat" EmptyString
           "/flat" (flat_entries flat_count) 1).
  - reflexivity.
  - unfold flat_entries, flat_count. rewrite length_map, length_seq.
    apply Z2Nat.id. unfold MAX_FILES. lia.
  - lia.
  - unfold MAX_FILES, MAX_TOTAL_SIZE_BYTES. lia.
  - apply Forall_forall. intros e He%list_elem_of_In. unfold flat_entries in He.
    apply in_map_iff in He as (i & <- & _). apply flat_host_entry.
  - apply flat_paths_distinct.
Defined.

(** C4, as the code has it.  On entry to a directory whose budgets are not
    yet exhausted (depth within the limit, file counter below [MAX_FILES],
    byte total below the ceiling), with the listing [A] then [B], both
    regular files let through by the patterns and not yet visited, [A] larger
    than the remaining byte budget and [B] within it: [A] is skipped and
    leaves both counters untouched, [B] is appended and counted once. *)
Theorem C4_size_budget_order h query fuel node stats A B szA szB :
  limitExceeded stats (depth node) = false ->
  type node = DIRECTORY ->
  readdir h (path node) = HOk [A; B] ->
  flat_entry h query (path node) szA A = true ->
  flat_entry h query (path node) szB B = true ->
  path_join (path node) (d_name A) ∉ visited stats ->
  path_join (path node) (d_name B) ∉ visited stats ->
  path_join (path node) (d_name A) <> path_join (path node) (d_name B) ->
  szA > MAX_TOTAL_SIZE_BYTES - total_size stats ->
  szB <= MAX_TOTAL_SIZE_BYTES - total_size stats ->
  let pA := path_join (path node) (d_name A) in
  let pB := path_join (path node) (d_name B) in
  let childB := file_child h (local_path query) pB node szB in
  process_entry h (fun c st => processNode h fuel c query st) query node stats A
    = Ok (node, add_visited stats pA) /\
  exists root s',
    processNode h (S fuel) node query stats = Ok (root, s') /\
    Permutation (children root) (children node ++ [childB]) /\
    size root = size node + szB /\
    file_count root = file_count node + 1 /\
    total_files s' = total_files stats + 1 /\
    total_size s' = total_size stats + szB.
Proof.
  intros Hlim Hty Hrd HA HB HvA HvB Hne HszA HszB pA pB childB.
  assert (total_files stats + 1 <= MAX_FILES) as Hfiles.
  { unfold limitExceeded in Hlim.
    destruct (depth node >? MAX_DIRECTORY_DEPTH); [discriminate|].
    destruct (Z.geb_spec (total_files stats) MAX_FILES); [discriminate | lia]. }
  assert (stat h pA = HOk (mkStats KFile szA)) as HstA.
  { unfold flat_entry in HA. rewrite !andb_true_iff in HA.
    destruct HA as [[_ HA] _]. apply is_file_of_size_spec, HA. }
  assert (stat h pB = HOk (mkStats KFile szB)) as HstB.
  { unfold flat_entry in HB. rewrite !andb_true_iff in HB.
    destruct HB as [[_ HB] _]. apply is_file_of_size_spec, HB. }
  assert (process_entry h (fun c st => processNode h fuel c query st) query
            node stats A = Ok (node, add_visited stats pA)) as HstepA.
  { rewrite (process_entry_file h _ query node stats A szA HA HvA).
    apply (processFile_skip h _ _ _ _ _ HstA). simpl. lia. }
  split; [exact HstepA|].
  rewrite processNode_S, Hlim, Hrd. simpl lift_host. cbn [mbind Outcome_bind].
  cbn [process_entries]. rewrite HstepA. cbn [mbind Outcome_bind].
  rewrite (process_entry_file h _ query node _ B szB HB).
  2:{ simpl. intros Hin. apply elem_of_union in Hin as [Hin|Hin].
      - apply elem_of_singleton in Hin. apply Hne. symmetry. exact Hin.
      - exact (HvB Hin). }
  rewrite (processFile_kept h _ _ _ _ _ HstB); simpl; [|lia|lia].
  unfold sortChildren. simpl. rewrite Hty. cbn [mbind Outcome_bind].
  eexists _, _. split; [reflexivity|]. simpl.
  split; [symmetry; apply array_sort_perm|]. repeat split; lia.
Qed.

(** C4 on the example: 2 MB of byte budget left, [A] of 3 MB, [B] of 1 MB. *)
Lemma C4_size_budget_order_example :
  let stats := mkFSStats ∅ 7 (MAX_TOTAL_SIZE_BYTES - 2 * 1024 * 1024) in
  let node := new_FileSystemNode "d" DIRECTORY "d" "/d" in
  exists root s',
    processNode budget_host traversal_fuel node (local_query "/") stats
      = Ok (root, s') /\
    map name (children root) = ["B"] /\
    total_files s' = 8 /\
    total_size s' = MAX_TOTAL_SIZE_BYTES - 1024 * 1024.
Proof.
  cbv zeta.
  destruct (C4_size_budget_order budget_host (local_query "/") 21
              (new_FileSystemNode "d" DIRECTORY "d" "/d")
              (mkFSStats ∅ 7 (MAX_TOTAL_SIZE_BYTES - 2 * 1024 * 1024))
              (mkDirent "A" false) (mkDirent "B" false)
              (3 * 1024 * 1024) (1 * 1024 * 1024))
    as (_ & root & s' & Hrun & Hperm & _ & _ & Hfiles & Hsize);
    try (vm_compute; reflexivity).
  - apply not_elem_of_empty.
  - apply not_elem_of_empty.
  - vm_compute. discriminate.
  - vm_compute. discriminate.
  - exists root, s'. split; [exact Hrun|].
    simpl in Hperm. symmetry in Hperm. apply Permutation_length_1_inv in Hperm.
    rewrite Hperm. split; [reflexivity|]. simpl in Hfiles, Hsize.
    unfold MAX_TOTAL_SIZE_BYTES in *. split; lia.
Defined.

(** C4, counterexample to the claim as stated: 500 MB of byte budget left,
    [A] of 600 MB and [B] of one byte, in a state whose file counter already
    stands at [MAX_FILES].  The directory is pruned on entry, and even the
    loop alone counts [B] without appending it. *)
Lemma C4_counter_already_at_max :
  let h := mem_host [("/d", MDir ["A"; "B"]);
                     ("/d/A", MFile 629145600 "a");
                     ("/d/B", MFile 1 "b")] (fun _ => None) in
  let stats := mkFSStats ∅ MAX_FILES 0 in
  let node := new_FileSystemNode "d" DIRECTORY "d" "/d" in
  629145600 > MAX_TOTAL_SIZE_BYTES - total_size stats /\
  1 <= MAX_TOTAL_SIZE_BYTES - total_size stats /\
  processNode h traversal_fuel node (local_query "/") stats = Ok (node, stats) /\
  exists s',
    process_entries h (fun c st => processNode h 21 c (local_query "/") st)
      (local_query "/") [mkDirent "A" false; mkDirent "B" false] node stats
      = Ok (node, s') /\
    total_files s' = MAX_FILES + 1.
Proof.
  cbv zeta. split; [vm_compute; reflexivity|].
  split; [vm_compute; discriminate|].
  split; [reflexivity|].
  eexists. split; [vm_compute; reflexivity | reflexivity].
Qed.

(** ** Filtering (C5) *)

(** The loop body lets a not yet visited path through to [stat] exactly when
    [filters_pass] holds. *)
Lemma visit_filtered h recur query node stats sp target :
  target ∉ visited stats ->
  filters_pass h query target = false ->
  visit h recur query node stats sp target = Ok (node, add_visited stats target).
Proof.
  intros Hv Hf. unfold visit. rewrite bool_decide_eq_false_2 by exact Hv.
  unfold filters_pass in Hf.
  destruct (shouldExclude _ _ _ _); [reflexivity|]. simpl in Hf.
  destruct (include_patterns query); [rewrite Hf; reflexivity | discriminate].
Qed.

Lemma set_delete_not_in s x : ~ In x (set_delete s x).
Proof.
  unfold set_delete. intros Hin%list_elem_of_In%list_elem_of_filter.
  destruct Hin as [Hx _]. unfold str_eqb in Hx. rewrite String.eqb_refl in Hx.
  discriminate.
Qed.

Lemma set_delete_subset s x y : In y (set_delete s x) -> In y s.
Proof.
  unfold set_delete. intros Hin%list_elem_of_In%list_elem_of_filter.
  apply list_elem_of_In, Hin.
Qed.

Lemma fold_set_delete_subset ps : forall s y,
  In y (fold_left set_delete ps s) -> In y s.
Proof.
  induction ps as [|p ps IH]; intros s y; simpl; [auto|].
  intros H. apply IH in H. eapply set_delete_subset, H.
Qed.

Lemma fold_set_delete_not_in ps : forall s x,
  In x ps -> ~ In x (fold_left set_delete ps s).
Proof.
  induction ps as [|p ps IH]; intros s x; simpl; [intros []|].
  intros [<-|Hx].
  - intros H. apply fold_set_delete_subset in H. exact (set_delete_not_in _ _ H).
  - apply IH, Hx.
Qed.

(** The override of [parseQuery]: no pattern of the parsed include set is
    left in the effective exclude set. *)
Lemma parseQuery_merge_override defaults uuid base max inc ign q ps :
  parseQuery_merge defaults uuid base max (Some inc) ign = Ok q ->
  include_patterns q = Some ps ->
  forall p, In p ps -> ~ In p (ignore_patterns q).
Proof.
  unfold parseQuery_merge. intros H Hinc.
  apply bind_Ok in H as (ignore_set & _ & H).
  apply bind_Ok in H as ([parsed s] & Hp & [= <-]). simpl in Hinc.
  destruct (patterns_truthy (Some inc)).
  - apply bind_Ok in Hp as (ps' & _ & [= <- <-]). injection Hinc as ->.
    simpl. intros p. apply fold_set_delete_not_in.
  - injection Hp as <- <-. discriminate.
Qed.

(** C5 at the failing input.  With an include set that is present but empty,
    the loop body skips every entry it reaches; and that is the query
    [parseQuery] builds from the empty [Set] the command line passes when no
    include pattern is given: the file [a.ts] of the directory [/r], which
    no exclude pattern matches, is not retained. *)
Theorem C5_empty_include_set :
  (forall h recur query node stats sp target,
     include_patterns query = Some [] -> target ∉ visited stats ->
     visit h recur query node stats sp target
       = Ok (node, add_visited stats target))
  /\
  (let h := mem_host [("/r", MDir ["a.ts"]); ("/r/a.ts", MFile 3 "x=1")]
              (fun _ => None) in
   exists q root,
     parseQuery_merge [] "0" (local_query "/r") MAX_FILE_SIZE
       (Some (PSet [])) (Some (PSet [])) = Ok q /\
     include_patterns q = Some [] /\
     shouldExclude h "/r/a.ts" "/r" (ignore_patterns q) = false /\
     snd (ingest_node h q) = Ok root /\
     children root = [] /\ file_count root = 0).
Proof.
  split.
  - intros h recur query node stats sp target Hinc Hv.
    apply visit_filtered; [exact Hv|]. unfold filters_pass. rewrite Hinc.
    unfold shouldInclude.
    destruct (startsWith _ ".." || isAbsolute _); simpl; apply andb_false_r.
  - cbv zeta. eexists _, _. split; [reflexivity|].
    split; [reflexivity|]. split; [reflexivity|].
    split; [vm_compute; reflexivity|]. split; reflexivity.
Qed.

(** The part of C5 that holds: with [*.ts] both excluded and included, the
    pattern is gone from the effective exclude set, and [a.ts] is kept. *)
Lemma C5_override_example :
  let h := mem_host [("/r", MDir ["a.ts"; "b.md"]);
                     ("/r/a.ts", MFile 3 "x=1");
                     ("/r/b.md", MFile 2 "hi")] (fun _ => None) in
  exists q root,
    parseQuery_merge ["*.pyc"] "0" (local_query "/r") MAX_FILE_SIZE
      (Some (PSet ["*.ts"])) (Some (PSet ["*.ts"])) = Ok q /\
    ignore_patterns q = ["*.pyc"] /\
    include_patterns q = Some ["*.ts"] /\
    snd (ingest_node h q) = Ok root /\
    map name (children root) = ["a.ts"].
Proof.
  cbv zeta. eexists _, _. split; [reflexivity|].
  split; [reflexivity|]. split; [reflexivity|].
  split; [vm_compute; reflexivity | reflexivity].
Qed.

(** ** A notebook as the only resource (C9) *)

Lemma nonempty_append_r a b : nonempty b = true -> nonempty (a +:+ b) = true.
Proof. destruct a; push_app; [auto | reflexivity]. Qed.

Lemma content_notebook h n :
  type n = FILE -> extname (path n) = ".ipynb" ->
  exists c, content h n = Ok c /\ nonempty c = true.
Proof.
  intros Ht He. unfold content. rewrite Ht, He.
  destruct (isTextFile h (path n)); simpl; [|eexists; split; reflexivity].
  destruct (processNotebook h (path n) true) as [s|e|] eqn:Hnb.
  - exists s. split; [reflexivity|].
    unfold processNotebook in Hnb.
    apply bind_Ok in Hnb as (text & _ & Hnb).
    destruct (JSON_parse h text); [|discriminate].
    apply bind_Ok in Hnb as (ws & _ & Hnb).
    apply bind_Ok in Hnb as (cells & _ & Hnb).
    apply bind_Ok in Hnb as (strs & _ & [= <-]).
    apply nonempty_append_r. reflexivity.
  - eexists. split; reflexivity.
  - contradiction (processNotebook_fuel h _ _ Hnb).
Qed.

Lemma content_invalid_json h n text :
  type n = FILE -> extname (path n) = ".ipynb" ->
  isTextFile h (path n) = true ->
  readFileSync h (path n) "utf-8" = HOk text ->
  JSON_parse h text = None ->
  content h n = Ok (invalid_notebook_text (path n)).
Proof.
  intros Ht He Htext Hread Hjson. unfold content. rewrite Ht, He, Htext. simpl.
  unfold processNotebook. rewrite Hread. simpl. rewrite Hjson. reflexivity.
Qed.

Lemma extname_basename p :
  extname p = ".ipynb" -> nonempty (basename p) = true.
Proof. unfold extname. destruct (basename p); [discriminate | reflexivity]. Qed.

(** The digest of a single FILE node whose content is [c]. *)
Lemma formatNode_file h node query c :
  type node = FILE -> children node = [] -> nonempty (name node) = true ->
  content h node = Ok c ->
  exists summary tree,
    formatNode h node query
      = Ok (summary, tree, file_block (path_str node) (name node) c).
Proof.
  intros Ht Hch Hname Hc. unfold formatNode. rewrite Ht, Hc.
  cbn [mbind Outcome_bind].
  destruct node as [nm ty ps p sz fc dc d ch]. simpl in Ht, Hch, Hname. subst ty ch.
  cbn [createTreeStructure]. rewrite Hname.
  cbn [gatherFileContents]. unfold contentString. rewrite Hc.
  cbn [mbind Outcome_bind]. unfold formatTokenCount.
  repeat case_match; eexists _, _; reflexivity.
Qed.

(** C9, as the code has it.  A notebook file requested on its own never
    aborts the ingestion: a digest is returned; and when the file reads as
    text that is not valid JSON, the digest's content block carries the
    error text in place of the notebook. *)
Theorem C9_notebook_never_aborts h query sz :
  access h (target_path query) = true ->
  stat h (target_path query) = HOk (mkStats KFile sz) ->
  extname (target_path query) = ".ipynb" ->
  (exists digest, snd (ingestQuery h query) = Ok digest) /\
  (forall text,
     isTextFile h (target_path query) = true ->
     readFileSync h (target_path query) "utf-8" = HOk text ->
     JSON_parse h text = None ->
     exists summary tree,
       snd (ingestQuery h query)
         = Ok (summary, tree,
               file_block
                 (path_relative (cwd h) (local_path query) (target_path query))
                 (basename (target_path query))
                 (invalid_notebook_text (target_path query)))).
Proof.
  intros Hacc Hst Hext.
  set (node := set_file_count
                 (set_size
                    (new_FileSystemNode (basename (target_path query)) FILE
                       (path_relative (cwd h) (local_path query) (target_path query))
                       (target_path query)) sz) 1).
  assert (forall c, content h node = Ok c -> nonempty c = true ->
            snd (ingestQuery h query)
              = formatNode h node (applyGitingestFile h (target_path query) query))
    as Hrun.
  { intros c Hc Hne. unfold ingestQuery, ingest_node. fold (target_path query).
    cbn [fst snd]. rewrite Hacc. cbn [negb]. rewrite Hst. simpl lift_host.
    cbn [mbind Outcome_bind st_kind st_size].
    rewrite orb_true_r. cbn [negb].
    assert (local_path (applyGitingestFile h (target_path query) query)
            = local_path query) as ->.
    { unfold applyGitingestFile. repeat case_match; reflexivity. }
    fold node. rewrite Hc. cbn [mbind Outcome_bind]. rewrite Hne. reflexivity. }
  assert (type node = FILE) as Hty by reflexivity.
  assert (extname (path node) = ".ipynb") as Hxn by exact Hext.
  split.
  - destruct (content_notebook h node Hty Hxn) as (c & Hc & Hne).
    rewrite (Hrun c Hc Hne).
    destruct (formatNode_file h node
                (applyGitingestFile h (target_path query) query) c)
      as (summary & tree & Hfmt); auto.
    { apply extname_basename, Hext. }
    rewrite Hfmt. eexists. reflexivity.
  - intros text Htext Hread Hjson.
    pose proof (content_invalid_json h node text Hty Hxn Htext Hread Hjson) as Hc.
    rewrite (Hrun _ Hc eq_refl).
    destruct (formatNode_file h node
                (applyGitingestFile h (target_path query) query) _
                Hty eq_refl (extname_basename _ Hext) Hc)
      as (summary & tree & Hfmt).
    rewrite Hfmt. eexists _, _. reflexivity.
Qed.

(** C9 on the example notebook. *)
Lemma C9_notebook_never_aborts_example :
  exists summary tree,
    snd (ingestQuery notebook_host notebook_query)
      = Ok (summary, tree,
            file_block "bad.ipynb" "bad.ipynb"
              (invalid_notebook_text "/nb/bad.ipynb")).
Proof.
  destruct (C9_notebook_never_aborts notebook_host notebook_query 1)
    as [_ H]; try reflexivity.
  apply (H "{"); reflexivity.
Defined.

(** C9, counterexample to the claim as stated: the notebook [/nb/bad.ipynb]
    holds ["{"], which the parser rejects, it is the only resource requested,
    and the ingestion returns a digest. *)
Lemma C9_invalid_notebook_digest :
  JSON_parse notebook_host "{" = None /\
  readFileSync notebook_host "/nb/bad.ipynb" "utf-8" = HOk "{" /\
  snd (ingestQuery notebook_host notebook_query)
    = Ok ("Directory: nb" +:+ nl +:+ "File: bad.ipynb" +:+ nl +:+ "Lines: 1"
          +:+ nl +:+ nl +:+ "Estimated tokens: 38",
          "Directory structure:" +:+ nl +:+ "└── bad.ipynb" +:+ nl,
          file_block "bad.ipynb" "bad.ipynb"
            (invalid_notebook_text "/nb/bad.ipynb")).
Proof. repeat split; vm_compute; reflexivity. Qed.

(** ** The fields a run reads (C10) *)

Section Alike.

Variable h : Host.

Lemma visit_alike r1 r2 q1 q2 node stats sp target :
  (forall c s, r1 c s = r2 c s) ->
  local_path q1 = local_path q2 ->
  ignore_patterns q1 = ignore_patterns q2 ->
  include_patterns q1 = include_patterns q2 ->
  visit h r1 q1 node stats sp target = visit h r2 q2 node stats sp target.
Proof.
  intros Hr Hl Hi Hn. unfold visit. rewrite Hl, Hi, Hn.
  destruct (bool_decide _); [reflexivity|].
  destruct (shouldExclude _ _ _ _); [reflexivity|].
  match goal with |- context [if ?b then _ else _] => destruct b end;
    [reflexivity|].
  destruct (stat h target) as [st|m]; simpl; [|reflexivity].
  destruct (st_kind st); [reflexivity| |reflexivity].
  rewrite Hr. reflexivity.
Qed.

Lemma process_entries_alike r1 r2 q1 q2 entries :
  (forall c s, r1 c s = r2 c s) ->
  local_path q1 = local_path q2 ->
  ignore_patterns q1 = ignore_patterns q2 ->
  include_patterns q1 = include_patterns q2 ->
  forall node stats,
    process_entries h r1 q1 entries node stats
    = process_entries h r2 q2 entries node stats.
Proof.
  intros Hr Hl Hi Hn. induction entries as [|e es IH]; intros node stats; simpl;
    [reflexivity|].
  assert (process_entry h r1 q1 node stats e = process_entry h r2 q2 node stats e)
    as ->.
  { unfold process_entry. rewrite Hl.
    destruct (d_isSymbolicLink e); [|apply visit_alike; assumption].
    destruct (isSafeSymlink _ _ _); simpl; [|reflexivity].
    destruct (realpath h _); simpl; [|reflexivity].
    apply visit_alike; assumption. }
  destruct (process_entry h r2 q2 node stats e) as [[n s]| |]; simpl;
    [apply IH | reflexivity | reflexivity].
Qed.

Lemma processNode_alike q1 q2 :
  local_path q1 = local_path q2 ->
  ignore_patterns q1 = ignore_patterns q2 ->
  include_patterns q1 = include_patterns q2 ->
  forall fuel node stats,
    processNode h fuel node q1 stats = processNode h fuel node q2 stats.
Proof.
  intros Hl Hi Hn. induction fuel as [|fuel IH]; intros node stats; [reflexivity|].
  rewrite !processNode_S. destruct (limitExceeded _ _); [reflexivity|].
  destruct (readdir h (path node)); simpl; [|reflexivity].
  rewrite (process_entries_alike _ (fun c st => processNode h fuel c q2 st) q1 q2);
    auto.
Qed.

Lemma createTreeStructure_alike q1 q2 :
  slug q1 = slug q2 ->
  forall node prefix is_last,
    createTreeStructure q1 node prefix is_last
    = createTreeStructure q2 node prefix is_last.
Proof.
  intros Hs. induction node as [node IH] using FileSystemNode_tree_ind.
  intros prefix is_last.
  destruct node as [nm ty ps p sz fc dc d ch]. simpl in IH.
  cbn [createTreeStructure]. rewrite Hs.
  destruct ty; [|reflexivity].
  match goal with
  | |- context [?f1 ch] =>
      is_fix f1;
      match goal with
      | |- context [?f2 ch] =>
          is_fix f2; tryif constr_eq f1 f2 then fail else
            assert (forall l',
                      Forall (fun n => forall pre b,
                                createTreeStructure q1 n pre b
                                = createTreeStructure q2 n pre b) l' ->
                      f1 l' = f2 l') as Heach
      end
  end.
  { induction 1 as [|x l' Hx Hl' IHl']; [reflexivity|].
    simpl. first [rewrite Hx, IHl' | rewrite <- Hx, IHl']. reflexivity. }
  destruct ch as [|c ch]; [reflexivity|].
  first [rewrite (Heach _ IH) | rewrite <- (Heach _ IH)]. reflexivity.
Qed.

Lemma formatNode_alike q1 q2 node :
  reads_alike q1 q2 -> formatNode h node q1 = formatNode h node q2.
Proof.
  intros (Hu & Hr & _ & Hs & Hsp & _ & Hb & Hc & _ & _).
  unfold formatNode.
  assert (forall b, createSummaryPrefix h q1 b = createSummaryPrefix h q2 b) as ->.
  { intros b. unfold createSummaryPrefix. rewrite Hu, Hr, Hs, Hsp, Hb, Hc.
    reflexivity. }
  rewrite (createTreeStructure_alike q1 q2 Hs). reflexivity.
Qed.

Lemma applyGitingestFile_alike q1 q2 p :
  reads_alike q1 q2 ->
  reads_alike (applyGitingestFile h p q1) (applyGitingestFile h p q2).
Proof.
  intros Ha. unfold applyGitingestFile.
  repeat (case_match; try exact Ha).
  destruct Ha as (? & ? & ? & ? & ? & ? & ? & ? & Hi & ?).
  unfold reads_alike. simpl. rewrite Hi. repeat split; assumption.
Qed.

Lemma ingest_node_alike q1 q2 :
  reads_alike q1 q2 ->
  reads_alike (fst (ingest_node h q1)) (fst (ingest_node h q2)) /\
  snd (ingest_node h q1) = snd (ingest_node h q2).
Proof.
  intros Ha. unfold ingest_node. cbn [fst snd].
  pose proof Ha as (_ & _ & Hl & _ & Hsp & _).
  rewrite Hl, Hsp.
  set (p := path_join (local_path q2) (path_join_all (segments (subpath q2)))).
  pose proof (applyGitingestFile_alike q1 q2 p Ha) as Hb.
  split; [exact Hb|].
  destruct Hb as (_ & _ & Hl' & Hs' & _ & Ht' & _ & _ & Hi' & Hn').
  rewrite Hl', Hs', Ht'.
  rewrite (processNode_alike _ _ Hl' Hi' Hn'). reflexivity.
Qed.

Lemma ingestQuery_alike q1 q2 :
  reads_alike q1 q2 ->
  reads_alike (fst (ingestQuery h q1)) (fst (ingestQuery h q2)) /\
  snd (ingestQuery h q1) = snd (ingestQuery h q2).
Proof.
  intros Ha. destruct (ingest_node_alike q1 q2 Ha) as [Hq Hn].
  unfold ingestQuery.
  destruct (ingest_node h q1) as [q1' n1], (ingest_node h q2) as [q2' n2].
  simpl in *. subst n2. split; [exact Hq|].
  destruct n1 as [n| |]; simpl; [|reflexivity|reflexivity].
  apply formatNode_alike, Hq.
Qed.

End Alike.

(** C10.  Two queries that differ only in [max_file_size] give the same
    digest (or the same failure) on every host: no step of the run reads the
    field, and [processFile], which decides admission from the two budget
    constants, is not even handed the query. *)
Theorem C10_max_file_size_unread h query m :
  snd (ingestQuery h (set_max_file_size query m)) = snd (ingestQuery h query) /\
  fst (ingestQuery h (set_max_file_size query m))
    = set_max_file_size (fst (ingestQuery h query)) m.
Proof.
  split.
  - apply ingestQuery_alike. repeat split.
  - unfold ingestQuery, ingest_node. cbn [fst snd].
    unfold applyGitingestFile.
    change (local_path (set_max_file_size query m)) with (local_path query).
    change (subpath (set_max_file_size query m)) with (subpath query).
    repeat (case_match; try reflexivity).
Qed.

(** ** Running twice (C2) *)

Lemma set_add_all_absorbed xs : forall s,
  (forall x, In x xs -> set_has s x = true) -> set_add_all s xs = s.
Proof.
  unfold set_add_all. induction xs as [|x xs IH]; intros s H; simpl; [reflexivity|].
  unfold set_add at 2. rewrite (H x) by (left; reflexivity).
  apply IH. intros y Hy. apply H. right. exact Hy.
Qed.

Lemma set_add_all_twice s xs :
  set_add_all (set_add_all s xs) xs = set_add_all s xs.
Proof.
  apply set_add_all_absorbed. intros x Hx. rewrite set_has_add_all.
  apply orb_true_iff. right. apply existsb_exists. exists x. split; [exact Hx|].
  apply String.eqb_refl.
Qed.

Lemma ignore_patterns_set q X : ignore_patterns (set_ignore_patterns q X) = X.
Proof. reflexivity. Qed.

Lemma set_ignore_patterns_twice q X Y :
  set_ignore_patterns (set_ignore_patterns q X) Y = set_ignore_patterns q Y.
Proof. reflexivity. Qed.

(** Applying the root-local configuration a second time changes nothing. *)
Lemma applyGitingestFile_twice h p query :
  applyGitingestFile h p (applyGitingestFile h p query)
  = applyGitingestFile h p query.
Proof.
  unfold applyGitingestFile.
  destruct (access h _); simpl; [|reflexivity].
  destruct (readFileSync h _ _) as [text|]; [|reflexivity].
  destruct (toml_parse h text) as [data|]; [|reflexivity].
  destruct (truthy _); simpl; [|reflexivity].
  destruct (new_Set _) as [|v vs] eqn:Hv; [reflexivity|].
  rewrite ignore_patterns_set, set_ignore_patterns_twice, set_add_all_twice.
  reflexivity.
Qed.

Lemma applyGitingestFile_frame h p query :
  local_path (applyGitingestFile h p query) = local_path query /\
  subpath (applyGitingestFile h p query) = subpath query.
Proof. unfold applyGitingestFile. repeat case_match; split; reflexivity. Qed.

Lemma ingest_node_twice h query :
  ingest_node h (fst (ingest_node h query)) = ingest_node h query.
Proof.
  unfold ingest_node at 2. cbn [fst]. unfold ingest_node.
  destruct (applyGitingestFile_frame h
              (path_join (local_path query)
                 (path_join_all (segments (subpath query)))) query) as [Hl Hs].
  rewrite Hl, Hs, applyGitingestFile_twice, ?Hl, ?Hs. reflexivity.
Qed.

Lemma gatherFileContents_fuel h :
  forall node, gatherFileContents h node <> OutOfFuel.
Proof.
  induction node as [node IH] using FileSystemNode_tree_ind.
  destruct node as [nm ty ps p sz fc dc d ch]. simpl in IH.
  cbn [gatherFileContents]. destruct ty.
  - apply bind_fuel; [|discriminate].
    match goal with
    | |- ?f ch <> _ =>
        assert (forall l, Forall (fun n => gatherFileContents h n <> OutOfFuel) l ->
                          f l <> OutOfFuel) as Hall
    end.
    { induction 1 as [|x l Hx Hl IHl]; [discriminate|].
      simpl. apply bind_fuel; [exact Hx|]. intros s.
      apply bind_fuel; [exact IHl|]. discriminate. }
    apply Hall, IH.
  - apply bind_fuel; [apply content_fuel|]. discriminate.
Qed.

Lemma formatNode_fuel h node query : formatNode h node query <> OutOfFuel.
Proof.
  unfold formatNode. apply bind_fuel.
  - destruct (type node); [discriminate|].
    apply bind_fuel; [apply content_fuel|]. discriminate.
  - intros summary. destruct (createTreeStructure _ _ _ _) as [text node'].
    apply bind_fuel; [apply gatherFileContents_fuel|]. intros c.
    repeat case_match; discriminate.
Qed.

Lemma ingestQuery_total h query : snd (ingestQuery h query) <> OutOfFuel.
Proof.
  unfold ingestQuery. pose proof (ingest_node_total h query) as Hn.
  destruct (ingest_node h query) as [q n]. simpl in *.
  apply bind_fuel; [exact Hn|]. intros node. apply formatNode_fuel.
Qed.

Lemma ingestQuery_fst h query :
  fst (ingestQuery h query) = fst (ingest_node h query).
Proof. unfold ingestQuery. destruct (ingest_node h query). reflexivity. Qed.

Lemma ingestQuery_snd h query :
  snd (ingestQuery h query)
  = snd (ingest_node h query)
      ≫= (fun node => formatNode h node (fst (ingest_node h query))).
Proof. unfold ingestQuery. destruct (ingest_node h query). reflexivity. Qed.

(** C2.  A run is a function of the host (the tree, its listing order and
    file contents) and of the query; its traversal state is created inside
    the run.  The one thing a run leaves behind is the query's exclude set,
    extended by the root-local configuration: a second run on the query as
    the first one left it returns the same triple (or the same failure) and
    leaves the query as it found it.  Every run returns or throws. *)
Theorem C2_determinism h query :
  let first := ingestQuery h query in
  let second := ingestQuery h (fst first) in
  snd second = snd first /\ fst second = fst first /\
  snd first <> OutOfFuel.
Proof.
  cbv zeta. split; [|split].
  - rewrite !ingestQuery_snd, !ingestQuery_fst, ingest_node_twice. reflexivity.
  - rewrite !ingestQuery_fst, ingest_node_twice. reflexivity.
  - apply ingestQuery_total.
Qed.

(** * Further properties of the engine *)

(** ** The ways a loop step can end *)

Section Cases.

Variable h : Host.
Variable recur : FileSystemNode -> FileSystemStats -> Outcome Walk.
Variable query : IngestionQuery.

Lemma visit_cases node stats sp target n' s' :
  visit h recur query node stats sp target = Ok (n', s') ->
  ((target ∈ visited stats) /\ n' = node /\ s' = stats) \/
  ((target ∉ visited stats) /\
   ((filters_pass h query target = false /\ n' = node /\
     s' = add_visited stats target) \/
    (filters_pass h query target = true /\
     exists st, stat h target = HOk st /\
       ((st_kind st = KFile /\
         ((total_size stats + st_size st > MAX_TOTAL_SIZE_BYTES /\
           n' = node /\ s' = add_visited stats target) \/
          (total_size stats + st_size st <= MAX_TOTAL_SIZE_BYTES /\
           total_files stats + 1 > MAX_FILES /\
           n' = node /\
           s' = counted (add_visited stats target) (st_size st)) \/
          (total_size stats + st_size st <= MAX_TOTAL_SIZE_BYTES /\
           total_files stats + 1 <= MAX_FILES /\
           n' = with_file node
                  (file_child h (local_path query) target node (st_size st))
                  (st_size st) /\
           s' = counted (add_visited stats target) (st_size st)))) \/
        (st_kind st = KDirectory /\
         exists child,
           recur (dir_child h (local_path query) target sp node)
                 (add_visited stats target) = Ok (child, s') /\
           n' = with_dir node child))))).
Proof.
  unfold visit, filters_pass. case_bool_decide as Hv; [intros [= <- <-]; auto|].
  intros H. right. split; [exact Hv|]. revert H.
  destruct (shouldExclude _ _ _ _); [intros [= <- <-]; auto|]. simpl negb.
  rewrite andb_true_l.
  destruct (include_patterns query) as [inc|].
  - destruct (shouldInclude _ _ _ _); simpl; [|intros [= <- <-]; auto].
    intros H. right. split; [reflexivity|]. revert H.
    destruct (stat h target) as [st|m] eqn:Hst; simpl; [|discriminate].
    intros H. exists st. split; [reflexivity|]. revert H.
    destruct (st_kind st) eqn:Hk; [| |discriminate].
    + intros H. left. split; [reflexivity|].
      unfold processFile in H. rewrite Hst in H. simpl in H.
      destruct (Z.gtb_spec (total_size stats + st_size st) MAX_TOTAL_SIZE_BYTES).
      { injection H as <- <-. left. repeat split; auto; lia. }
      destruct (Z.gtb_spec (total_files stats + 1) MAX_FILES);
        injection H as <- <-; right; [left|right]; repeat split; auto; lia.
    + intros H. right. split; [reflexivity|].
      apply bind_Ok in H as ([child s1] & Hr & [= <- <-]).
      exists child. split; [|reflexivity].
      exact Hr.
  - simpl. intros H. right. split; [reflexivity|]. revert H.
    destruct (stat h target) as [st|m] eqn:Hst; simpl; [|discriminate].
    intros H. exists st. split; [reflexivity|]. revert H.
    destruct (st_kind st) eqn:Hk; [| |discriminate].
    + intros H. left. split; [reflexivity|].
      unfold processFile in H. rewrite Hst in H. simpl in H.
      destruct (Z.gtb_spec (total_size stats + st_size st) MAX_TOTAL_SIZE_BYTES).
      { injection H as <- <-. left. repeat split; auto; lia. }
      destruct (Z.gtb_spec (total_files stats + 1) MAX_FILES);
        injection H as <- <-; right; [left|right]; repeat split; auto; lia.
    + intros H. right. split; [reflexivity|].
      apply bind_Ok in H as ([child s1] & Hr & [= <- <-]).
      exists child. split; [|reflexivity].
      exact Hr.
Qed.

End Cases.

(** ** Invariants that relate a call's result to the state it started from

    [Loop n0 s0 n s]: a loop that began with the node [n0] and the statistics
    [s0] has reached the node [n] and the statistics [s].  [Post] is the same
    for the result of a whole call. *)

Section WalkInvariant.

Variable h : Host.
Variable query : IngestionQuery.
Variables Loop Post :
  FileSystemNode -> FileSystemStats -> FileSystemNode -> FileSystemStats -> Prop.

Hypothesis H_pruned : forall n s,
  fresh_dir n -> limitExceeded s (depth n) = true -> Post n s n s.
Hypothesis H_start : forall n s,
  fresh_dir n -> limitExceeded s (depth n) = false -> Loop n s n s.
Hypothesis H_seen : forall n0 s0 n s target,
  Loop n0 s0 n s -> target ∉ visited s -> Loop n0 s0 n (add_visited s target).
Hypothesis H_refused : forall n0 s0 n s target st,
  Loop n0 s0 n s -> target ∉ visited s -> stat h target = HOk st ->
  total_size s + st_size st <= MAX_TOTAL_SIZE_BYTES ->
  total_files s + 1 > MAX_FILES ->
  Loop n0 s0 n (counted (add_visited s target) (st_size st)).
Hypothesis H_kept : forall n0 s0 n s sp target st,
  Loop n0 s0 n s -> arrives h query (path n) sp target ->
  target ∉ visited s ->
  filters_pass h query target = true -> stat h target = HOk st ->
  total_size s + st_size st <= MAX_TOTAL_SIZE_BYTES ->
  total_files s + 1 <= MAX_FILES ->
  Loop n0 s0
    (with_file n (file_child h (local_path query) target n (st_size st))
       (st_size st))
    (counted (add_visited s target) (st_size st)).
Hypothesis H_entered : forall n0 s0 n s target sp child s',
  Loop n0 s0 n s -> arrives h query (path n) sp target ->
  target ∉ visited s ->
  filters_pass h query target = true ->
  Post (dir_child h (local_path query) target sp n) (add_visited s target)
    child s' ->
  Loop n0 s0 (with_dir n child) s'.
Hypothesis H_sorted : forall n0 s0 n s,
  Loop n0 s0 n s ->
  Post n0 s0 (set_children n (array_sort (compareChildren h) (children n))) s.

Lemma dir_child_fresh lp target sp parent :
  fresh_dir (dir_child h lp target sp parent).
Proof. unfold dir_child. destruct sp; repeat split. Qed.

Lemma process_entry_path recur node stats e n1 s1 :
  process_entry h recur query node stats e = Ok (n1, s1) -> path n1 = path node.
Proof.
  assert (forall sp t, visit h recur query node stats sp t = Ok (n1, s1) ->
                       path n1 = path node) as Hvisit.
  { intros sp t Hv.
    apply visit_cases in Hv
      as [(_ & -> & _)|(_ & [(_ & -> & _)|(_ & st & _ & Hk)])];
      [reflexivity | reflexivity |].
    destruct Hk as [(_ & [(_ & -> & _)|[(_ & _ & -> & _)|(_ & _ & -> & _)]])
                   |(_ & child & _ & ->)]; reflexivity. }
  unfold process_entry. destruct (d_isSymbolicLink e); [|apply Hvisit].
  destruct (isSafeSymlink _ _ _); simpl; [|intros [= <- _]; reflexivity].
  destruct (realpath h _); simpl; [apply Hvisit | discriminate].
Qed.

Lemma process_entries_walk recur n0 s0 listed :
  (forall c s c' s', fresh_dir c -> recur c s = Ok (c', s') -> Post c s c' s') ->
  forall entries node stats n' s',
    readdir h (path node) = HOk listed -> incl entries listed ->
    Loop n0 s0 node stats ->
    process_entries h recur query entries node stats = Ok (n', s') ->
    Loop n0 s0 n' s'.
Proof.
  intros Hrec.
  induction entries as [|e es IH]; intros node stats n' s' Hrd Hin Hl; simpl.
  - intros [= <- <-]. exact Hl.
  - intros H. apply bind_Ok in H as ([n1 s1] & He & Hes).
    assert (In e listed) as Hel by (apply Hin; left; reflexivity).
    apply IH in Hes; [exact Hes | | |].
    { rewrite (process_entry_path _ _ _ _ _ _ He). exact Hrd. }
    { intros x Hx. apply Hin. right. exact Hx. }
    clear IH Hes.
    assert (forall sp t, arrives h query (path node) sp t ->
                         visit h recur query node stats sp t = Ok (n1, s1) ->
                         Loop n0 s0 n1 s1) as Hvisit.
    { intros sp t Harr Hv.
      apply visit_cases in Hv
        as [(_ & -> & ->)|(Hnew & [(_ & -> & ->)|(Hpass & st & Hst & Hk)])].
      - exact Hl.
      - apply H_seen; assumption.
      - destruct Hk as [(_ & [(_ & -> & ->)|[(Hs & Hf & -> & ->)|(Hs & Hf & -> & ->)]])
                       |(_ & child & Hr & ->)].
        + apply H_seen; assumption.
        + eapply H_refused; eassumption.
        + eapply H_kept; eassumption.
        + eapply H_entered; try eassumption.
          eapply Hrec; [apply dir_child_fresh | exact Hr]. }
    unfold process_entry in He. destruct (d_isSymbolicLink e) eqn:Hlink.
    + destruct (isSafeSymlink _ _ _) eqn:Hsafe; simpl in He;
        [|injection He as <- <-; exact Hl].
      destruct (realpath h _) as [t|] eqn:Ht; simpl in He; [|discriminate].
      eapply Hvisit; [|exact He]. exists listed, e. repeat split; assumption.
    + eapply Hvisit; [|exact He]. exists listed, e. repeat split; assumption.
Qed.

Lemma processNode_walk fuel : forall node stats n' s',
  fresh_dir node ->
  processNode h fuel node query stats = Ok (n', s') ->
  Post node stats n' s'.
Proof.
  induction fuel as [|fuel IH]; intros node stats n' s' Hnode; [discriminate|].
  rewrite processNode_S.
  destruct (limitExceeded stats (depth node)) eqn:Hlim.
  { intros [= <- <-]. apply H_pruned; assumption. }
  destruct (readdir h (path node)) as [entries|m] eqn:Hrd; simpl; [|discriminate].
  intros H. apply bind_Ok in H as ([n1 s1] & Hloop & Hrest).
  apply bind_Ok in Hrest as (n2 & Hs & [= <- <-]).
  assert (Loop node stats n1 s1) as Hn1.
  { eapply (process_entries_walk _ _ _ entries);
      [|exact Hrd|apply incl_refl|apply H_start; assumption|exact Hloop].
    intros c s c' s'. apply IH. }
  unfold sortChildren in Hs. destruct (type n1); [|discriminate].
  injection Hs as <-. apply H_sorted, Hn1.
Qed.

End WalkInvariant.

(** ** What the two kinds of append do to the tree *)

Lemma appended_with_file n child sz :
  appended n (with_file n child sz) child sz 1 0.
Proof. repeat split; simpl; try reflexivity; lia. Qed.

Lemma appended_with_dir n child :
  appended n (with_dir n child) child (size child) (file_count child)
    (1 + dir_count child).
Proof. repeat split; simpl; try reflexivity; lia. Qed.

Lemma descendants_with_file n child sz :
  children child = [] ->
  descendants (with_file n child sz) = descendants n ++ [child].
Proof.
  intros Hc. rewrite (descendants_appended _ _ _ _ _ _ (appended_with_file n child sz)).
  rewrite (leaf_descendants child Hc). reflexivity.
Qed.

Lemma descendants_with_dir n child :
  descendants (with_dir n child) = descendants n ++ child :: descendants child.
Proof. apply (descendants_appended _ _ _ _ _ _ (appended_with_dir n child)). Qed.

Lemma node_all_leaf (P : FileSystemNode -> Prop) c :
  children c = [] -> P c -> node_all P c.
Proof. intros Hc Hp. apply node_all_unfold. rewrite Hc. split; [exact Hp|constructor]. Qed.

Lemma fresh_descendants n : fresh_dir n -> descendants n = [].
Proof. intros (_ & Hc & _). apply leaf_descendants, Hc. Qed.

Lemma limitExceeded_false stats d :
  limitExceeded stats d = false ->
  d <= MAX_DIRECTORY_DEPTH /\ total_files stats < MAX_FILES /\
  total_size stats < MAX_TOTAL_SIZE_BYTES.
Proof.
  unfold limitExceeded.
  destruct (Z.gtb_spec d MAX_DIRECTORY_DEPTH); [discriminate|].
  destruct (Z.geb_spec (total_files stats) MAX_FILES); [discriminate|].
  destruct (Z.geb_spec (total_size stats) MAX_TOTAL_SIZE_BYTES); [discriminate|].
  intros _. lia.
Qed.

(** ** The file budget *)

Lemma processNode_file_budget h query fuel node stats n' s' :
  fresh_dir node ->
  processNode h fuel node query stats = Ok (n', s') ->
  0 <= total_files stats ->
  0 <= total_files s' /\
  file_count n' + Z.min (total_files stats) MAX_FILES
    <= Z.min (total_files s') MAX_FILES /\
  0 <= file_count n' /\
  Forall (node_all within_file_budget) (children n').
Proof.
  set (Inv := fun (n0 : FileSystemNode) (s0 : FileSystemStats)
                  (n : FileSystemNode) (s : FileSystemStats) =>
    0 <= total_files s0 ->
    0 <= total_files s /\
    file_count n + Z.min (total_files s0) MAX_FILES
      <= Z.min (total_files s) MAX_FILES /\
    0 <= file_count n /\
    Forall (node_all within_file_budget) (children n)).
  apply (processNode_walk h query Inv Inv); unfold Inv; clear Inv.
  - intros n s (_ & Hc & _ & Hf & _) _ H0. rewrite Hc, Hf. repeat split; try lia.
    constructor.
  - intros n s (_ & Hc & _ & Hf & _) _ H0. rewrite Hc, Hf. repeat split; try lia.
    constructor.
  - intros n0 s0 n s target H _ H0. exact (H H0).
  - intros n0 s0 n s target st H _ _ _ _ H0.
    destruct (H H0) as (H1 & H2 & H3 & H4). simpl. repeat split; try lia. exact H4.
  - intros n0 s0 n s sp target st H _ _ _ _ _ Hf H0.
    destruct (H H0) as (H1 & H2 & H3 & H4). simpl. repeat split; try lia.
    apply Forall_app. split; [exact H4|]. constructor; [|constructor].
    apply node_all_leaf; [reflexivity|]. unfold within_file_budget. simpl.
    unfold MAX_FILES. lia.
  - intros n0 s0 n s target sp child s2 H _ _ _ Hchild H0.
    destruct (H H0) as (H1 & H2 & H3 & H4).
    destruct (Hchild H1) as (C1 & C2 & C3 & C4). simpl in C2 |- *.
    repeat split; try lia.
    apply Forall_app. split; [exact H4|]. constructor; [|constructor].
    apply node_all_unfold. split; [|exact C4].
    unfold within_file_budget, MAX_FILES in *. lia.
  - intros n0 s0 n s H H0. destruct (H H0) as (H1 & H2 & H3 & H4). simpl.
    repeat split; try lia.
    rewrite <- (array_sort_perm (compareChildren h) (children n)). exact H4.
Qed.

(** ** The size budget *)

Lemma processNode_size_budget h query fuel node stats n' s' :
  sizes_nonneg h ->
  fresh_dir node ->
  processNode h fuel node query stats = Ok (n', s') ->
  0 <= total_size stats <= MAX_TOTAL_SIZE_BYTES ->
  total_size s' <= MAX_TOTAL_SIZE_BYTES /\
  size n' + total_size stats <= total_size s' /\
  0 <= size n' /\
  Forall (node_all within_size_budget) (children n').
Proof.
  intros Hnn.
  set (Inv := fun (n0 : FileSystemNode) (s0 : FileSystemStats)
                  (n : FileSystemNode) (s : FileSystemStats) =>
    0 <= total_size s0 <= MAX_TOTAL_SIZE_BYTES ->
    total_size s <= MAX_TOTAL_SIZE_BYTES /\
    size n + total_size s0 <= total_size s /\
    0 <= size n /\
    Forall (node_all within_size_budget) (children n)).
  apply (processNode_walk h query Inv Inv); unfold Inv; clear Inv.
  - intros n s (_ & Hc & Hs & _) _ H0. rewrite Hc, Hs. repeat split; try lia.
    constructor.
  - intros n s (_ & Hc & Hs & _) _ H0. rewrite Hc, Hs. repeat split; try lia.
    constructor.
  - intros n0 s0 n s target H _ H0. exact (H H0).
  - intros n0 s0 n s target st H _ Hst Hle _ H0.
    destruct (H H0) as (H1 & H2 & H3 & H4). pose proof (Hnn _ _ Hst). simpl.
    repeat split; try lia. exact H4.
  - intros n0 s0 n s sp target st H _ _ _ Hst Hle _ H0.
    destruct (H H0) as (H1 & H2 & H3 & H4). pose proof (Hnn _ _ Hst). simpl.
    repeat split; try lia.
    apply Forall_app. split; [exact H4|]. constructor; [|constructor].
    apply node_all_leaf; [reflexivity|]. unfold within_size_budget. simpl.
    unfold MAX_TOTAL_SIZE_BYTES in *. lia.
  - intros n0 s0 n s target sp child s2 H _ _ _ Hchild H0.
    destruct (H H0) as (H1 & H2 & H3 & H4).
    destruct Hchild as (C1 & C2 & C3 & C4); [simpl; lia|]. simpl in C2 |- *.
    repeat split; try lia.
    apply Forall_app. split; [exact H4|]. constructor; [|constructor].
    apply node_all_unfold. split; [|exact C4].
    unfold within_size_budget, MAX_TOTAL_SIZE_BYTES in *. lia.
  - intros n0 s0 n s H H0. destruct (H H0) as (H1 & H2 & H3 & H4). simpl.
    repeat split; try lia.
    rewrite <- (array_sort_perm (compareChildren h) (children n)). exact H4.
Qed.

(** ** Depth *)

Lemma processNode_depth h query fuel node stats n' s' :
  fresh_dir node ->
  processNode h fuel node query stats = Ok (n', s') ->
  depth n' = depth node /\ node_all depth_local n'.
Proof.
  apply (processNode_walk h query
    (fun n0 s0 n s =>
       depth n0 <= MAX_DIRECTORY_DEPTH /\ depth n = depth n0 /\
       Forall (fun c => depth c = depth n + 1 /\ node_all depth_local c)
         (children n))
    (fun n0 s0 n s => depth n = depth n0 /\ node_all depth_local n)).
  - intros n s (_ & Hc & _) _. split; [reflexivity|].
    apply node_all_leaf; [exact Hc|]. unfold depth_local. rewrite Hc.
    split; [constructor | reflexivity].
  - intros n s (_ & Hc & _) Hlim. apply limitExceeded_false in Hlim as (Hd & _).
    rewrite Hc. repeat split; [exact Hd | constructor].
  - intros n0 s0 n s target H _. exact H.
  - intros n0 s0 n s target st H _ _ _ _. exact H.
  - intros n0 s0 n s sp target st (H1 & H2 & H3) _ _ _ _ _ _. simpl.
    repeat split; [exact H1 | exact H2 |].
    apply Forall_app. split; [exact H3|]. constructor; [|constructor].
    split; [reflexivity|]. apply node_all_leaf; [reflexivity|].
    split; [constructor | reflexivity].
  - intros n0 s0 n s target sp child s2 (H1 & H2 & H3) _ _ _ (C1 & C2). simpl.
    repeat split; [exact H1 | exact H2 |].
    apply Forall_app. split; [exact H3|]. constructor; [|constructor].
    split; [|exact C2]. rewrite C1. destruct sp; reflexivity.
  - intros n0 s0 n s (H1 & H2 & H3). simpl. split; [exact H2|].
    pose proof (array_sort_perm (compareChildren h) (children n)) as Hp.
    rewrite Hp in H3.
    apply node_all_unfold. simpl. split.
    + split; [|simpl; lia]. simpl.
      eapply Forall_impl; [exact H3|]. intros c [Hc _]. exact Hc.
    + eapply Forall_impl; [exact H3|]. intros c [_ Hc]. exact Hc.
Qed.

Lemma depth_local_within n :
  node_all depth_local n -> depth_within n -> node_all depth_within n.
Proof.
  induction n as [n IH] using FileSystemNode_tree_ind. intros Hall Hn.
  apply node_all_unfold in Hall as [[Hch Hdeep] Hall].
  apply node_all_unfold. split; [exact Hn|].
  destruct (Z_le_gt_dec (depth n) MAX_DIRECTORY_DEPTH) as [Hle|Hgt].
  - rewrite Forall_forall in IH, Hall, Hch |- *. intros c Hc.
    apply IH; [exact Hc | apply Hall, Hc |].
    unfold depth_within in *. rewrite (Hch c Hc). lia.
  - rewrite Hdeep by lia. constructor.
Qed.

(** ** Filters *)

Lemma processNode_filtered h query fuel node stats n' s' :
  fresh_dir node ->
  processNode h fuel node query stats = Ok (n', s') ->
  Forall (fun m => filters_pass h query (path m) = true) (descendants n').
Proof.
  intros Hf Hp.
  enough (path n' = path node /\
          Forall (fun m => filters_pass h query (path m) = true) (descendants n'))
    as [_ H] by exact H.
  revert Hf Hp.
  apply (processNode_walk h query
    (fun n0 s0 n s =>
       path n = path n0 /\
       Forall (fun m => filters_pass h query (path m) = true) (descendants n))
    (fun n0 s0 n s =>
       path n = path n0 /\
       Forall (fun m => filters_pass h query (path m) = true) (descendants n))).
  - intros n s Hn _. rewrite (fresh_descendants n Hn). split; [reflexivity|constructor].
  - intros n s Hn _. rewrite (fresh_descendants n Hn). split; [reflexivity|constructor].
  - intros n0 s0 n s target H _. exact H.
  - intros n0 s0 n s target st H _ _ _ _. exact H.
  - intros n0 s0 n s sp target st (H1 & H2) _ _ Hpass _ _ _.
    split; [exact H1|]. rewrite descendants_with_file by reflexivity.
    apply Forall_app. split; [exact H2|]. constructor; [exact Hpass|constructor].
  - intros n0 s0 n s target sp child s2 (H1 & H2) _ _ Hpass (C1 & C2).
    split; [exact H1|]. rewrite descendants_with_dir.
    apply Forall_app. split; [exact H2|]. constructor; [|exact C2].
    rewrite C1. destruct sp; exact Hpass.
  - intros n0 s0 n s (H1 & H2). split; [exact H1|].
    rewrite <- (descendants_perm n _ (array_sort_perm (compareChildren h) (children n))).
    exact H2.
Qed.

(** ** No target twice *)

Lemma processNode_distinct h query fuel node stats n' s' :
  fresh_dir node ->
  processNode h fuel node query stats = Ok (n', s') ->
  path n' = path node /\
  (forall x, x ∈ visited stats -> x ∈ visited s') /\
  NoDup (map path (descendants n')) /\
  (forall m, In m (descendants n') ->
     path m ∈ visited s' /\ path m ∉ visited stats).
Proof.
  set (Inv := fun (n0 : FileSystemNode) (s0 : FileSystemStats)
                  (n : FileSystemNode) (s : FileSystemStats) =>
    path n = path n0 /\
    (forall x, x ∈ visited s0 -> x ∈ visited s) /\
    NoDup (map path (descendants n)) /\
    (forall m, In m (descendants n) ->
       path m ∈ visited s /\ path m ∉ visited s0)).
  apply (processNode_walk h query Inv Inv); unfold Inv; clear Inv.
  - intros n s Hn _. rewrite (fresh_descendants n Hn).
    repeat split; auto; try constructor; contradiction.
  - intros n s Hn _. rewrite (fresh_descendants n Hn).
    repeat split; auto; try constructor; contradiction.
  - intros n0 s0 n s target (H1 & H2 & H3 & H4) _. simpl.
    repeat split; auto.
    + intros x Hx. apply elem_of_union_r, H2, Hx.
    + apply elem_of_union_r, H4, H.
    + apply H4, H.
  - intros n0 s0 n s target st (H1 & H2 & H3 & H4) _ _ _ _. simpl.
    repeat split; auto.
    + intros x Hx. apply elem_of_union_r, H2, Hx.
    + apply elem_of_union_r, H4, H.
    + apply H4, H.
  - intros n0 s0 n s sp target st (H1 & H2 & H3 & H4) _ Hnew _ _ _ _.
    rewrite descendants_with_file by reflexivity. simpl visited.
    split; [exact H1|]. split; [|split].
    + intros x Hx. apply elem_of_union_r, H2, Hx.
    + rewrite map_app. simpl. apply NoDup_app. split; [exact H3|]. split.
      * intros x Hx Hin. apply list_elem_of_In in Hx, Hin.
        destruct Hin as [<-|[]]. apply in_map_iff in Hx as (m & Hm & Hin).
        apply H4 in Hin as [Hin _]. simpl in Hm. rewrite Hm in Hin.
        exact (Hnew Hin).
      * apply NoDup_singleton.
    + intros m Hm. apply in_app_or in Hm as [Hm|[<-|[]]].
      * destruct (H4 m Hm) as [Ha Hb]. split; [apply elem_of_union_r, Ha | exact Hb].
      * simpl. split; [apply elem_of_union_l, elem_of_singleton; reflexivity|].
        intros Hin. apply Hnew, H2, Hin.
  - intros n0 s0 n s target sp child s2 (H1 & H2 & H3 & H4) _ Hnew _
           (C1 & C2 & C3 & C4).
    assert (path child = target) as Hpc by (rewrite C1; destruct sp; reflexivity).
    simpl visited in C2, C4.
    assert (target ∈ visited s2) as Hts
      by (apply C2, elem_of_union_l, elem_of_singleton; reflexivity).
    rewrite descendants_with_dir.
    split; [exact H1|]. split; [|split].
    + intros x Hx. apply C2, elem_of_union_r, H2, Hx.
    + rewrite map_app. simpl. apply NoDup_app. split; [exact H3|]. split.
      * intros x Hx Hin. apply list_elem_of_In in Hx, Hin.
        apply in_map_iff in Hx as (m & Hm & Hmin).
        apply H4 in Hmin as [Hmin _]. rewrite Hm in Hmin.
        destruct Hin as [Hx|Hin].
        -- rewrite Hpc in Hx. apply Hnew. rewrite Hx. exact Hmin.
        -- apply in_map_iff in Hin as (m' & Hm' & Hin').
           apply C4 in Hin' as [_ Hin']. apply Hin'. rewrite Hm'.
           apply elem_of_union_r, Hmin.
      * apply NoDup_cons. split; [|exact C3].
        intros Hin. apply list_elem_of_In, in_map_iff in Hin as (m' & Hm' & Hin').
        apply C4 in Hin' as [_ Hin']. apply Hin'. rewrite Hm', Hpc.
        apply elem_of_union_l, elem_of_singleton. reflexivity.
    + intros m Hm. apply in_app_or in Hm as [Hm|[<-|Hm]].
      * destruct (H4 m Hm) as [Ha Hb].
        split; [apply C2, elem_of_union_r, Ha | exact Hb].
      * rewrite Hpc. split; [exact Hts|]. intros Hin. apply Hnew, H2, Hin.
      * destruct (C4 m Hm) as [Ha Hb]. split; [exact Ha|].
        intros Hin. apply Hb, elem_of_union_r, H2, Hin.
  - intros n0 s0 n s (H1 & H2 & H3 & H4).
    pose proof (descendants_perm n _ (array_sort_perm (compareChildren h) (children n)))
      as Hp.
    split; [exact H1|]. split; [exact H2|]. split.
    + rewrite <- Hp. exact H3.
    + intros m Hm. apply H4. apply (Permutation_in _ (Permutation_sym Hp)), Hm.
Qed.

(** ** The returned tree *)

(** The two ways [ingest_node] succeeds, in full. *)
Lemma applyGitingestFile_fields h p query :
  exists ps, applyGitingestFile h p query = set_ignore_patterns query ps.
Proof.
  unfold applyGitingestFile.
  assert (query = set_ignore_patterns query (ignore_patterns query)) as Hq
    by (destruct query; reflexivity).
  repeat case_match; eauto.
Qed.

Lemma root_node_fresh h query :
  fresh_dir (root_node h query) /\ depth (root_node h query) = 0.
Proof. repeat split. Qed.

Lemma ingest_node_cases h query node :
  snd (ingest_node h query) = Ok node ->
  (exists sz,
     stat h (target_path query) = HOk (mkStats KFile sz) /\
     node = sole_file_node h query sz) \/
  (exists s',
     type node = DIRECTORY /\
     processNode h traversal_fuel (root_node h query)
       (fst (ingest_node h query)) new_FileSystemStats = Ok (node, s')).
Proof.
  unfold ingest_node, sole_file_node, root_node. cbn [fst snd].
  fold (target_path query).
  destruct (applyGitingestFile_fields h (target_path query) query) as [ps ->].
  change (local_path (set_ignore_patterns query ps)) with (local_path query).
  destruct (access h _); cbn [negb]; [|discriminate].
  destruct (stat h _) as [[k sz]|m]; simpl; [|discriminate].
  destruct k; simpl.
  - rewrite orb_true_r. simpl. intros H. left.
    apply bind_Ok in H as (c & _ & H).
    destruct (nonempty c); simpl in H; [|discriminate].
    injection H as <-. exists sz. split; reflexivity.
  - rewrite orb_false_r. destruct (_ && _); [discriminate|].
    intros H. right. apply bind_Ok in H as ([root s'] & Hp & [= <-]).
    exists s'. split; [|exact Hp].
    apply processNode_dir_inv in Hp as (Hd & _); [exact Hd|repeat split].
  - rewrite orb_false_r. destruct (_ && _); [discriminate|].
    intros H. right. apply bind_Ok in H as ([root s'] & Hp & [= <-]).
    exists s'. split; [|exact Hp].
    apply processNode_dir_inv in Hp as (Hd & _); [exact Hd|repeat split].
Qed.

(** The file budget bounds the counter of every node of a returned tree: no
    node reports more than [MAX_FILES] files, whatever the directory holds
    and whatever the patterns let through. *)
Theorem file_budget_bounds_tree h query node :
  snd (ingest_node h query) = Ok node ->
  node_all within_file_budget node.
Proof.
  intros H. apply ingest_node_Ok in H as [Hleaf|(root & s' & Hroot & _ & H)].
  - destruct Hleaf as (_ & Hc & _ & Hf). apply node_all_leaf; [exact Hc|].
    unfold within_file_budget, MAX_FILES. rewrite Hf. lia.
  - destruct (processNode_file_budget _ _ _ _ _ _ _ Hroot H) as (_ & Hle & H0 & Hch);
      [simpl; lia|].
    apply node_all_unfold. split; [|exact Hch].
    simpl in Hle. unfold within_file_budget, MAX_FILES in *. lia.
Qed.

Lemma file_budget_bounds_tree_example :
  exists node,
    snd (ingest_node example_host (local_query "/root")) = Ok node /\
    file_count node = 5 /\
    node_all within_file_budget node.
Proof.
  eexists. split; [vm_compute; reflexivity|]. split; [reflexivity|].
  apply (file_budget_bounds_tree example_host (local_query "/root")).
  vm_compute; reflexivity.
Defined.

Lemma mem_lookup_In fs p e : mem_lookup fs p = Some e -> In (p, e) fs.
Proof.
  induction fs as [|[q e'] fs IH]; simpl; [discriminate|].
  destruct (str_eqb p q) eqn:Hq.
  - intros [= ->]. apply String.eqb_eq in Hq. subst q. left. reflexivity.
  - intros H. right. apply IH, H.
Qed.

Lemma mem_host_sizes_nonneg fs parse :
  mem_sizes_ok fs = true -> sizes_nonneg (mem_host fs parse).
Proof.
  intros Hok p st. simpl. unfold mem_stat.
  destruct (mem_realpath fs p) as [q|]; [|discriminate].
  destruct (mem_lookup fs q) as [[sz text|names|target|]|] eqn:Hq;
    try discriminate; intros [= <-]; simpl; try lia.
  apply mem_lookup_In in Hq. unfold mem_sizes_ok in Hok.
  rewrite forallb_forall in Hok. apply Hok in Hq. simpl in Hq. lia.
Qed.

(** When the platform reports no negative size, the total size of a
    traversed directory, and of every node below it, stays within
    [MAX_TOTAL_SIZE_BYTES].  A file requested on its own is not under the
    budget: its node carries whatever size the platform reports. *)
Theorem size_budget_bounds_tree h query node :
  sizes_nonneg h ->
  snd (ingest_node h query) = Ok node ->
  (type node = DIRECTORY -> node_all within_size_budget node) /\
  (type node = FILE ->
   stat h (target_path query) = HOk (mkStats KFile (size node))).
Proof.
  intros Hnn H. split.
  - intros Ht.
    apply ingest_node_Ok in H as [(Hf & _)|(root & s' & Hroot & _ & H)];
      [congruence|].
    destruct (processNode_size_budget _ _ _ _ _ _ _ Hnn Hroot H)
      as (Hmax & Hle & H0 & Hch); [simpl; unfold MAX_TOTAL_SIZE_BYTES; lia|].
    apply node_all_unfold. split; [|exact Hch].
    simpl in Hle. unfold within_size_budget. lia.
  - intros Ht.
    apply ingest_node_cases in H as [(sz & Hst & ->)|(s' & Hd & _)];
      [exact Hst | congruence].
Qed.

Lemma size_budget_bounds_tree_example :
  exists node,
    snd (ingest_node example_host (local_query "/root")) = Ok node /\
    size node = 22 /\
    (type node = DIRECTORY -> node_all within_size_budget node).
Proof.
  eexists. split; [vm_compute; reflexivity|]. split; [reflexivity|].
  apply (size_budget_bounds_tree example_host (local_query "/root")).
  - apply mem_host_sizes_nonneg. reflexivity.
  - vm_compute; reflexivity.
Defined.

(** In a returned tree every child sits one level below its parent, no node
    lies deeper than [MAX_DIRECTORY_DEPTH + 1], and a directory at that depth
    is kept as an empty node: it was created, but never listed. *)
Theorem tree_depth_limited h query node :
  snd (ingest_node h query) = Ok node ->
  depth node = 0 /\ node_all depth_local node /\ node_all depth_within node.
Proof.
  intros H.
  assert (depth node = 0 /\ node_all depth_local node) as [Hd Hall].
  { apply ingest_node_cases in H as [(sz & _ & ->)|(s' & _ & H)].
    - split; [reflexivity|]. apply node_all_leaf; [reflexivity|].
      split; [constructor | reflexivity].
    - destruct (root_node_fresh h query) as [Hroot Hd].
      destruct (processNode_depth _ _ _ _ _ _ _ Hroot H) as [Hd' Hall].
      split; [congruence | exact Hall]. }
  split; [exact Hd|]. split; [exact Hall|].
  apply depth_local_within; [exact Hall|].
  unfold depth_within, MAX_DIRECTORY_DEPTH. lia.
Qed.

Lemma tree_depth_limited_example :
  exists node,
    snd (ingest_node example_host (local_query "/root")) = Ok node /\
    map depth (descendants node) = [1; 1; 1; 1; 2; 1; 2] /\
    node_all depth_within node.
Proof.
  eexists. split; [vm_compute; reflexivity|]. split; [reflexivity|].
  apply (tree_depth_limited example_host (local_query "/root")).
  vm_compute; reflexivity.
Defined.

(** Every node below the root of a returned tree stands for a path that went
    through both pattern tests of the query as [applyGitingestFile] left it:
    no exclude pattern matches it and, when the query carries an include set,
    some include pattern does.  This holds of directories as of files, so a
    file is kept only if every directory between it and the root passed the
    two tests as well.  In particular the relative path of every such node
    stays under the root. *)
Theorem retained_paths_pass_filters h query node :
  snd (ingest_node h query) = Ok node ->
  Forall (fun m =>
            filters_pass h (fst (ingest_node h query)) (path m) = true /\
            inside_root h query (path m))
    (descendants node).
Proof.
  intros H. apply ingest_node_Ok in H as [Hleaf|(root & s' & Hroot & _ & H)].
  - destruct Hleaf as (_ & Hc & _). rewrite (leaf_descendants node Hc). constructor.
  - apply processNode_filtered in H; [|exact Hroot].
    eapply Forall_impl; [exact H|]. intros m Hm. split; [exact Hm|].
    unfold filters_pass in Hm. apply andb_true_iff in Hm as [Hm _].
    apply negb_true_iff in Hm. unfold shouldExclude in Hm.
    unfold inside_root.
    replace (local_path query) with (local_path (fst (ingest_node h query)))
      by (unfold ingest_node; cbn [fst]; apply applyGitingestFile_frame).
    cbv zeta.
    destruct (startsWith _ "..") eqn:Hdots; simpl in Hm; [discriminate|].
    destruct (isAbsolute _) eqn:Habs; simpl in Hm; [discriminate|].
    split; reflexivity.
Qed.

Lemma retained_paths_pass_filters_example :
  exists node,
    snd (ingest_node example_host (local_query "/root")) = Ok node /\
    Forall (fun m =>
              filters_pass example_host
                (fst (ingest_node example_host (local_query "/root")))
                (path m) = true /\
              inside_root example_host (local_query "/root") (path m))
      (descendants node).
Proof.
  eexists. split; [vm_compute; reflexivity|].
  apply (retained_paths_pass_filters example_host (local_query "/root")).
  vm_compute; reflexivity.
Defined.

(** No resolved path stands for two nodes below the root: a target reached a
    second time, through a link or otherwise, is skipped. *)
Theorem retained_targets_distinct h query node :
  snd (ingest_node h query) = Ok node ->
  NoDup (map path (descendants node)).
Proof.
  intros H. apply ingest_node_Ok in H as [Hleaf|(root & s' & Hroot & _ & H)].
  - destruct Hleaf as (_ & Hc & _). rewrite (leaf_descendants node Hc). constructor.
  - apply processNode_distinct in H as (_ & _ & Hnd & _); [exact Hnd | exact Hroot].
Qed.

Lemma retained_targets_distinct_example :
  exists node,
    snd (ingest_node example_host (local_query "/root")) = Ok node /\
    map name (descendants node)
      = ["README.md"; "a.md"; ".env"; "sub"; "b.py"; ".git"; "HEAD"] /\
    NoDup (map path (descendants node)).
Proof.
  eexists. split; [vm_compute; reflexivity|]. split; [reflexivity|].
  apply (retained_targets_distinct example_host (local_query "/root")).
  vm_compute; reflexivity.
Defined.

(** ** Formatting never fails *)

Lemma content_Ok h n : type n = FILE -> exists s, content h n = Ok s.
Proof.
  intros Ht. unfold content. rewrite Ht.
  destruct (isTextFile h (path n)); simpl; [|eauto].
  destruct (str_eqb _ _); [|eauto].
  destruct (processNotebook h (path n) true) as [s|e|] eqn:Hp; eauto.
  exfalso. exact (processNotebook_fuel h _ _ Hp).
Qed.

Lemma gatherFileContents_Ok h :
  forall node, exists s, gatherFileContents h node = Ok s.
Proof.
  induction node as [node IH] using FileSystemNode_tree_ind.
  destruct node as [nm ty ps p sz fc dc d ch]. simpl in IH.
  cbn [gatherFileContents]. destruct ty.
  - match goal with
    | |- exists s, ?f ch ≫= _ = _ =>
        assert (forall l, Forall (fun n => exists s, gatherFileContents h n = Ok s) l ->
                          exists parts, f l = Ok parts) as Hall
    end.
    { induction 1 as [|x l [s Hx] Hl [parts IHl]]; [eexists; reflexivity|].
      simpl. rewrite Hx. simpl. rewrite IHl. simpl. eexists; reflexivity. }
    destruct (Hall ch IH) as [parts ->]. simpl. eexists; reflexivity.
  - destruct (content_Ok h (mkNode nm FILE ps p sz fc dc d ch) eq_refl) as [c Hc].
    unfold contentString. rewrite Hc. simpl. eexists; reflexivity.
Qed.

Lemma formatNode_Ok h node query :
  exists digest, formatNode h node query = Ok digest.
Proof.
  unfold formatNode.
  assert (exists summary,
    match type node with
    | DIRECTORY =>
        Ok (createSummaryPrefix h query (type_eqb (type node) FILE)
            +:+ "Files analyzed: " +:+ pretty (file_count node) +:+ nl)
    | FILE =>
        c ← content h node;
        Ok (createSummaryPrefix h query (type_eqb (type node) FILE)
            +:+ "File: " +:+ name node +:+ nl +:+ "Lines: "
            +:+ toLocaleString h (Z.of_nat (length (split_on "010"%char c)))
            +:+ nl)
    end = Ok summary) as [summary ->].
  { destruct (type node) eqn:Ht; [eexists; reflexivity|].
    destruct (content_Ok h node Ht) as [c ->]. simpl. eexists; reflexivity. }
  simpl. destruct (createTreeStructure query node EmptyString true) as [text node'].
  destruct (gatherFileContents_Ok h node') as [c ->]. simpl.
  eexists; reflexivity.
Qed.

(** Once a node is at hand, the digest is produced without fail: reading a
    file's content answers with a text even when the file cannot be read or
    decoded or its notebook cannot be transcoded, and so formatting any tree
    returns its three texts.  Reading the content of a directory node is the
    one request that throws. *)
Theorem formatting_never_fails :
  (forall h n, type n = FILE -> exists s, content h n = Ok s) /\
  (forall h n, type n = DIRECTORY ->
     content h n = Throw (Error "Cannot read content of a directory node")) /\
  (forall h node, exists s, gatherFileContents h node = Ok s) /\
  (forall h node query, exists digest, formatNode h node query = Ok digest).
Proof.
  split; [exact content_Ok|]. split.
  - intros h n Ht. unfold content. rewrite Ht. reflexivity.
  - split; [exact gatherFileContents_Ok | exact formatNode_Ok].
Qed.

(** ** Failures of a run *)

Lemma bind_Throw {A B} (m : Outcome A) (f : A -> Outcome B) e :
  m ≫= f = Throw e -> m = Throw e \/ exists a, m = Ok a /\ f a = Throw e.
Proof.
  destruct m as [a|e'|]; simpl; intros H; try discriminate;
    [right; eauto | left; injection H as ->; reflexivity].
Qed.

Lemma lift_host_Throw {A} (r : HostResult A) e :
  lift_host r = Throw e -> exists m, r = HFail m /\ e = SystemError m.
Proof. destruct r as [a|m]; simpl; [discriminate|]. intros [= <-]. eauto. Qed.

Section Failures.

Variable h : Host.

Lemma isSafeSymlink_realpath p base :
  isSafeSymlink h p base = true -> exists t, realpath h p = HOk t.
Proof.
  unfold isSafeSymlink. destruct (realpath h p) as [t|]; [eauto | discriminate].
Qed.

Lemma visit_Throw recur query node stats sp target e :
  visit h recur query node stats sp target = Throw e ->
  walk_failure h e \/
  exists c s, type c = DIRECTORY /\ recur c s = Throw e.
Proof.
  unfold visit. destruct (bool_decide _); [discriminate|].
  destruct (shouldExclude _ _ _ _); [discriminate|].
  match goal with |- context [if ?b then _ else _] => destruct b end;
    [discriminate|].
  destruct (stat h target) as [st|m] eqn:Hst; simpl.
  - destruct (st_kind st) eqn:Hk.
    + unfold processFile. rewrite Hst. simpl. repeat case_match; discriminate.
    + intros H. apply bind_Throw in H as [H|([c s] & _ & H)]; [|discriminate].
      right. eexists _, _. split; [|exact H]. destruct sp; reflexivity.
    + intros [= <-]. left. eapply wf_other; eassumption.
  - intros [= <-]. left. eapply wf_stat; eassumption.
Qed.

Lemma process_entries_Throw recur query :
  (forall c s e, type c = DIRECTORY -> recur c s = Throw e -> walk_failure h e) ->
  forall entries node stats e,
    process_entries h recur query entries node stats = Throw e ->
    walk_failure h e.
Proof.
  intros Hrec. induction entries as [|en es IH]; intros node stats e; simpl;
    [discriminate|].
  intros H. apply bind_Throw in H as [H|([n1 s1] & _ & H)]; [|eapply IH, H].
  assert (forall sp t, visit h recur query node stats sp t = Throw e ->
                       walk_failure h e) as Hvisit.
  { intros sp t Hv. apply visit_Throw in Hv as [Hv|(c & s & Hc & Hv)];
      [exact Hv | eapply Hrec; eassumption]. }
  unfold process_entry in H. destruct (d_isSymbolicLink en).
  - destruct (isSafeSymlink _ _ _) eqn:Hsafe; simpl in H; [|discriminate].
    apply isSafeSymlink_realpath in Hsafe as [t Ht]. rewrite Ht in H. simpl in H.
    eapply Hvisit, H.
  - eapply Hvisit, H.
Qed.

Lemma processNode_Throw fuel : forall node query stats e,
  type node = DIRECTORY ->
  processNode h fuel node query stats = Throw e -> walk_failure h e.
Proof.
  induction fuel as [|fuel IH]; intros node query stats e Hd; [discriminate|].
  rewrite processNode_S. destruct (limitExceeded _ _); [discriminate|].
  intros H. apply bind_Throw in H as [H|(entries & Hr & H)].
  { apply lift_host_Throw in H as (m & Hm & ->). eapply wf_readdir, Hm. }
  apply bind_Throw in H as [H|([n1 s1] & Hloop & H)].
  { eapply process_entries_Throw; [|exact H]. intros c s e' Hc. apply IH, Hc. }
  exfalso.
  assert (type n1 = DIRECTORY) as Hn1.
  { eapply (process_entries_invariant h _ query
              (fun n => type n = DIRECTORY) (fun _ => True));
      [| | |exact Hd|exact Hloop].
    - intros n n' child sz Hn _ _ (_ & Ht & _). congruence.
    - intros n n' child Hn _ (_ & Ht & _). congruence.
    - auto. }
  unfold sortChildren in H. rewrite Hn1 in H. discriminate.
Qed.

End Failures.

(** A run that fails does so in one of five ways: the target cannot be
    found; the platform cannot stat it; the query asks for a blob and the
    target is not a regular file; the target is a regular file whose content
    reads as the empty text; or, below a directory, the platform refuses to
    list a directory or to stat an entry, or an entry is neither a file nor a
    directory.  No pattern, no unreadable or undecodable file, no notebook
    and no link makes a run fail. *)
Theorem ingestQuery_failures h query e :
  snd (ingestQuery h query) = Throw e -> ingest_failure h query e.
Proof.
  rewrite ingestQuery_snd. intros H.
  apply bind_Throw in H as [H|(node & _ & H)].
  2: { destruct (formatNode_Ok h node (fst (ingest_node h query))) as [d Hd].
       rewrite Hd in H. discriminate. }
  revert H. unfold ingest_node. cbn [fst snd].
  destruct (applyGitingestFile_fields h (target_path query) query) as [ps Hps].
  fold (target_path query). rewrite Hps.
  change (slug (set_ignore_patterns query ps)) with (slug query).
  change (type_ (set_ignore_patterns query ps)) with (type_ query).
  change (local_path (set_ignore_patterns query ps)) with (local_path query).
  destruct (access h (target_path query)) eqn:Hacc; cbn [negb].
  2: { intros [= <-]. apply if_missing, Hacc. }
  destruct (stat h (target_path query)) as [[k sz]|m] eqn:Hst; simpl.
  2: { intros [= <-]. apply if_stat; assumption. }
  destruct k; simpl.
  - rewrite orb_true_r. simpl. intros H.
    apply bind_Throw in H as [H|(c & H)].
    + destruct (content_Ok h (sole_file_node h query sz) eq_refl) as [c Hc].
      unfold sole_file_node in Hc. rewrite Hc in H. discriminate.
    + destruct H as [Hc H]. destruct c; simpl in H; [|discriminate].
      injection H as <-. eapply if_empty; [exact Hst | exact Hc].
  - rewrite orb_false_r.
    destruct (nonempty (type_ query) && str_eqb (type_ query) "blob") eqn:Hb.
    + intros [= <-]. apply andb_true_iff in Hb as [_ Hb].
      apply String.eqb_eq in Hb. eapply if_not_file; [exact Hb|exact Hst|].
      simpl. discriminate.
    + intros H. apply bind_Throw in H as [H|([root s'] & _ & H)]; [|discriminate].
      apply processNode_Throw in H; [|reflexivity].
      eapply if_walk; [exact Hst| |exact H]. simpl. discriminate.
  - rewrite orb_false_r.
    destruct (nonempty (type_ query) && str_eqb (type_ query) "blob") eqn:Hb.
    + intros [= <-]. apply andb_true_iff in Hb as [_ Hb].
      apply String.eqb_eq in Hb. eapply if_not_file; [exact Hb|exact Hst|].
      simpl. discriminate.
    + intros H. apply bind_Throw in H as [H|([root s'] & _ & H)]; [|discriminate].
      apply processNode_Throw in H; [|reflexivity].
      eapply if_walk; [exact Hst| |exact H]. simpl. discriminate.
Qed.

Lemma ingestQuery_failures_example :
  let h := mem_host [("/r", MDir ["a.txt"; "sock"]);
                     ("/r/a.txt", MFile 1 "a");
                     ("/r/sock", MOther)] (fun _ => None) in
  ingest_failure h (local_query "/r")
    (Error ("Unexpected error: " +:+ "/r/sock"
            +:+ " is neither a file nor a directory")).
Proof.
  cbv zeta.
  apply (ingestQuery_failures
           (mem_host [("/r", MDir ["a.txt"; "sock"]);
                      ("/r/a.txt", MFile 1 "a");
                      ("/r/sock", MOther)] (fun _ => None))
           (local_query "/r")).
  vm_compute. reflexivity.
Defined.

(** ** The root-local configuration *)

Lemma set_add_all_appends xs : forall s,
  exists extra,
    set_add_all s xs = s ++ extra /\
    (forall x, In x extra -> In x xs /\ ~ In x s) /\
    NoDup extra.
Proof.
  unfold set_add_all. induction xs as [|x xs IH]; intros s; simpl.
  - exists []. rewrite app_nil_r. repeat split; try contradiction. constructor.
  - unfold set_add at 2. destruct (set_has s x) eqn:Hx.
    + destruct (IH s) as (extra & He & Hin & Hnd). exists extra.
      split; [exact He|]. split; [|exact Hnd].
      intros y Hy. destruct (Hin y Hy). auto.
    + destruct (IH (s ++ [x])) as (extra & He & Hin & Hnd). exists (x :: extra).
      rewrite He, <- app_assoc. split; [reflexivity|]. split.
      * intros y [<-|Hy].
        -- split; [left; reflexivity|]. intros Hs.
           apply set_has_In in Hs. congruence.
        -- destruct (Hin y Hy) as [Ha Hb]. split; [right; exact Ha|].
           intros Hs. apply Hb, in_or_app. left. exact Hs.
      * apply NoDup_cons. split; [|exact Hnd].
        intros Hx'. apply list_elem_of_In in Hx'. destruct (Hin x Hx') as [_ Hb].
        apply Hb, in_or_app. right. left. reflexivity.
Qed.

Lemma string_items_In patterns x :
  In x (string_items patterns) <-> In (Some (VStr x)) patterns.
Proof.
  unfold string_items. rewrite <- !list_elem_of_In, list_elem_of_omap. split.
  - intros (v & Hv & H). destruct v as [[]|]; try discriminate.
    injection H as <-. exact Hv.
  - intros H. exists (Some (VStr x)). split; [exact H | reflexivity].
Qed.

(** [applyGitingestFile] changes nothing of a query but its exclude set, and
    that only by appending: the patterns the query had stay, in their order,
    and what is appended are strings listed under [config.ignore_patterns] of
    a [.gitingest] file that exists, reads and parses, each once and none
    that the set already had.  They are taken as they stand, neither
    validated nor normalised.  A file that is missing, unreadable or not
    valid TOML leaves the query as it was, and applying the file a second
    time adds nothing. *)
Theorem gitingest_file_only_appends h p query :
  (exists extra,
     applyGitingestFile h p query
       = set_ignore_patterns query (ignore_patterns query ++ extra) /\
     NoDup extra /\
     forall x, In x extra ->
       ~ In x (ignore_patterns query) /\
       exists text data,
         access h (path_join p ".gitingest") = true /\
         readFileSync h (path_join p ".gitingest") "utf-8" = HOk text /\
         toml_parse h text = Some data /\
         In (Some (VStr x))
            (as_list (get_field (get_field (Some data) "config")
                        "ignore_patterns"))) /\
  applyGitingestFile h p (applyGitingestFile h p query)
    = applyGitingestFile h p query.
Proof.
  split; [|apply applyGitingestFile_twice].
  assert (exists extra,
            query = set_ignore_patterns query (ignore_patterns query ++ extra) /\
            NoDup extra /\ forall x : string, In x extra -> False) as Hsame.
  { exists []. rewrite app_nil_r. destruct query. repeat split; [constructor|].
    intros x []. }
  unfold applyGitingestFile.
  destruct (access h _) eqn:Hacc; cbn [negb].
  2: { destruct Hsame as (extra & H1 & H2 & H3). exists extra.
       repeat split; auto; exfalso; eauto. }
  destruct (readFileSync h _ _) as [text|] eqn:Hread.
  2: { destruct Hsame as (extra & H1 & H2 & H3). exists extra.
       repeat split; auto; exfalso; eauto. }
  destruct (toml_parse h text) as [data|] eqn:Hparse.
  2: { destruct Hsame as (extra & H1 & H2 & H3). exists extra.
       repeat split; auto; exfalso; eauto. }
  destruct (truthy _); cbn [negb].
  2: { destruct Hsame as (extra & H1 & H2 & H3). exists extra.
       repeat split; auto; exfalso; eauto. }
  destruct (new_Set _) as [|v vs] eqn:Hset.
  { destruct Hsame as (extra & H1 & H2 & H3). exists extra.
    repeat split; auto; exfalso; eauto. }
  rewrite <- Hset.
  destruct (set_add_all_appends
              (new_Set (string_items
                 (as_list (get_field (get_field (Some data) "config")
                             "ignore_patterns"))))
              (ignore_patterns query)) as (extra & He & Hin & Hnd).
  exists extra. rewrite He. split; [reflexivity|]. split; [exact Hnd|].
  intros x Hx. destruct (Hin x Hx) as [Ha Hb]. split; [exact Hb|].
  exists text, data. repeat split; auto.
  apply In_new_Set, string_items_In in Ha. exact Ha.
Qed.

(** * Further properties of the patterns *)

(** ** Prefixes and suffixes *)

Lemma startsWith_spec s p :
  startsWith s p = true <-> exists post, s = p +:+ post.
Proof.
  revert s. induction p as [|c p IH]; intros s; simpl.
  - split; [intros _; exists s; reflexivity | reflexivity].
  - destruct s as [|d s].
    + split; [discriminate | intros [post H]; discriminate].
    + rewrite andb_true_iff, Ascii.eqb_eq, IH. push_app. split.
      * intros [<- [post ->]]. exists post. reflexivity.
      * intros [post [= <- ->]]. split; [reflexivity | exists post; reflexivity].
Qed.

Lemma str_append_nil_r s : s +:+ EmptyString = s.
Proof. induction s as [|c s IH]; push_app; [reflexivity | rewrite IH; reflexivity]. Qed.

Lemma str_rev_involutive s : str_rev (str_rev s) = s.
Proof.
  induction s as [|c s IH]; [reflexivity|].
  rewrite str_rev_cons, str_rev_append, IH. reflexivity.
Qed.

Lemma endsWith_spec s p :
  endsWith s p = true <-> exists pre, s = pre +:+ p.
Proof.
  unfold endsWith. rewrite startsWith_spec. split.
  - intros [post H]. exists (str_rev post).
    rewrite <- (str_rev_involutive s), H, str_rev_append, str_rev_involutive.
    reflexivity.
  - intros [pre ->]. exists (str_rev pre). apply str_rev_append.
Qed.

Lemma endsWith_cons c s p :
  endsWith (String c s) p = String.eqb (String c s) p || endsWith s p.
Proof.
  apply Bool.eq_iff_eq_true.
  rewrite orb_true_iff, String.eqb_eq, !endsWith_spec. split.
  - intros [[|d pre] H]; rewrite ?str_app_cons, ?str_app_nil in H.
    + left. exact H.
    + right. injection H as _ H. exists pre. exact H.
  - intros [H|[pre H]].
    + exists EmptyString. exact H.
    + exists (String c pre). push_app. rewrite H. reflexivity.
Qed.

Lemma endsWith_nil p : endsWith EmptyString p = String.eqb EmptyString p.
Proof. destruct p as [|c p]; [reflexivity|]. unfold endsWith.
  rewrite str_rev_cons. destruct (str_rev p); reflexivity. Qed.

(** ** Literal patterns and a single star *)

Lemma literal_char_spec c :
  literal_char c = true ->
  glob_char c = true /\ glob_item c = (ALit c, One).
Proof.
  unfold literal_char, glob_item. rewrite !andb_true_iff, !negb_true_iff.
  intros [[Hg Hs] Hq]. rewrite Hs, Hq. auto.
Qed.

Lemma literal_glob lit :
  all_chars literal_char lit = true -> all_chars glob_char lit = true.
Proof.
  induction lit as [|c lit IH]; simpl; [reflexivity|].
  rewrite !andb_true_iff. intros [Hc Hl].
  split; [apply literal_char_spec, Hc | apply IH, Hl].
Qed.

Lemma all_chars_append f a b :
  all_chars f (a +:+ b) = all_chars f a && all_chars f b.
Proof.
  induction a as [|c a IH]; push_app; simpl; [reflexivity|].
  rewrite IH, andb_assoc. reflexivity.
Qed.

Lemma plain_ascii s : all_chars plain_char s = true -> ascii_only s = true.
Proof.
  induction s as [|c s IH]; simpl; [reflexivity|].
  unfold plain_char at 1. rewrite !andb_true_iff. intros [[Ha _] Hs].
  split; [exact Ha | apply IH, Hs].
Qed.

Lemma items_match_literal lit :
  all_chars literal_char lit = true ->
  forall s, items_match (glob_items lit) s = String.eqb s lit.
Proof.
  induction lit as [|c lit IH]; intros Hl s.
  - destruct s; reflexivity.
  - simpl in Hl. apply andb_true_iff in Hl as [Hc Hl].
    cbn [glob_items]. rewrite (proj2 (literal_char_spec c Hc)), items_match_one.
    destruct s as [|d s]; [reflexivity|]. simpl.
    rewrite (IH Hl), (Ascii.eqb_sym c d).
    destruct (Ascii.eqb d c); reflexivity.
Qed.

Lemma star_match_suffix lit :
  all_chars literal_char lit = true ->
  forall s, all_chars plain_char s = true ->
    star_match AAny (glob_items lit) s = endsWith s lit.
Proof.
  intros Hl. induction s as [|c s IH]; intros Hs; simpl.
  - rewrite orb_false_r, (items_match_literal lit Hl), endsWith_nil. reflexivity.
  - simpl in Hs. apply andb_true_iff in Hs as [Hc Hs].
    unfold plain_char in Hc. apply andb_true_iff in Hc as [_ Hc].
    rewrite Hc, (IH Hs), (items_match_literal lit Hl), endsWith_cons. reflexivity.
Qed.

Lemma star_match_all s :
  all_chars plain_char s = true -> star_match AAny [] s = true.
Proof.
  induction s as [|c s IH]; intros Hs; simpl; [reflexivity|].
  simpl in Hs. apply andb_true_iff in Hs as [Hc Hs].
  unfold plain_char in Hc. apply andb_true_iff in Hc as [_ Hc].
  rewrite Hc, (IH Hs). reflexivity.
Qed.

Lemma items_match_prefix lit :
  all_chars literal_char lit = true ->
  forall s, all_chars plain_char s = true ->
    items_match (glob_items (lit +:+ "*")) s = startsWith s lit.
Proof.
  induction lit as [|c lit IH]; intros Hl s Hs.
  - push_app. cbn [glob_items]. unfold glob_item. simpl Ascii.eqb. cbv iota.
    rewrite items_match_star. apply star_match_all, Hs.
  - simpl in Hl. apply andb_true_iff in Hl as [Hc Hl]. push_app.
    cbn [glob_items]. rewrite (proj2 (literal_char_spec c Hc)), items_match_one.
    destruct s as [|d s]; [reflexivity|]. simpl in Hs |- *.
    apply andb_true_iff in Hs as [_ Hs]. rewrite (IH Hl s Hs).
    rewrite (Ascii.eqb_sym c d). reflexivity.
Qed.

(** What the three commonest shapes of pattern match, for a literal [lit] of
    ASCII characters none of which is a wildcard or one of
    [^ $ ( ) [ ] { } | \ +], and a subject of ASCII characters without line
    terminators.  The pattern [lit] matches the relative path equal to it
    and no other: the match is anchored at both ends, so a bare file name
    says nothing about files of that name in subdirectories.  A star
    followed by [lit] matches every path that ends with it, and [lit]
    followed by a star every path that begins with it: the star runs across
    separators.  (A plus, which validation lets through, is a quantifier of
    the regular expression and outside these shapes.) *)
Theorem matchPattern_shapes h s lit :
  all_chars literal_char lit = true ->
  all_chars plain_char s = true ->
  matchPattern h s lit = Some (str_eqb s lit) /\
  matchPattern h s ("*" +:+ lit) = Some (endsWith s lit) /\
  matchPattern h s (lit +:+ "*") = Some (startsWith s lit).
Proof.
  intros Hl Hs. pose proof (literal_glob lit Hl) as Hg.
  pose proof (plain_ascii s Hs) as Ha. split; [|split].
  - rewrite (matchPattern_glob h s lit Hg Ha), (items_match_literal lit Hl).
    reflexivity.
  - push_app. rewrite (matchPattern_glob h s (String "*" lit)) by (simpl; auto).
    cbn [glob_items]. unfold glob_item. simpl Ascii.eqb. cbv iota.
    rewrite items_match_star, (star_match_suffix lit Hl s Hs). reflexivity.
  - rewrite (matchPattern_glob h s (lit +:+ "*"))
      by (rewrite ?all_chars_append, ?Hg; auto).
    rewrite (items_match_prefix lit Hl s Hs). reflexivity.
Qed.

Lemma matchPattern_shapes_example :
  matchPattern example_host "src/util/a.ts" "a.ts" = Some false /\
  matchPattern example_host "src/util/a.ts" "*.ts" = Some true /\
  matchPattern example_host "src/util/a.ts" "src/*" = Some true /\
  matchPattern example_host "src/util/a.ts" "util/*" = Some false.
Proof.
  destruct (matchPattern_shapes example_host "src/util/a.ts" "a.ts" eq_refl eq_refl)
    as (H1 & _ & _).
  destruct (matchPattern_shapes example_host "src/util/a.ts" ".ts" eq_refl eq_refl)
    as (_ & H2 & _).
  destruct (matchPattern_shapes example_host "src/util/a.ts" "src/" eq_refl eq_refl)
    as (_ & _ & H3).
  destruct (matchPattern_shapes example_host "src/util/a.ts" "util/" eq_refl eq_refl)
    as (_ & _ & H4).
  repeat split; assumption.
Defined.

(** ** [shouldInclude] *)

Lemma include_loop_spec h rel patterns :
  include_loop h rel patterns = true <->
  exists front p back,
    patterns = front ++ p :: back /\
    matchPattern h rel p = Some true /\
    Forall (fun q => matchPattern h rel q = Some false) front.
Proof.
  induction patterns as [|p ps IH]; simpl.
  - split; [discriminate|]. intros (front & q & back & H & _).
    destruct front; discriminate.
  - destruct (matchPattern h rel p) as [[|]|] eqn:Hm.
    + split; [|reflexivity]. intros _. exists [], p, ps. repeat split; auto.
    + rewrite IH. split.
      * intros (front & q & back & -> & Hq & Hf).
        exists (p :: front), q, back. repeat split; auto.
      * intros (front & q & back & H & Hq & Hf).
        destruct front as [|f front]; injection H as -> ->; [congruence|].
        apply Forall_cons in Hf as [_ Hf]. exists front, q, back. auto.
    + split; [discriminate|]. intros (front & q & back & H & Hq & Hf).
      destruct front as [|f front]; injection H as -> ->; [congruence|].
      apply Forall_cons in Hf as [Hf _]. congruence.
Qed.

(** [shouldInclude] answers [true] exactly when the relative path neither
    begins with two dots nor is absolute, and the first pattern of the set
    that does not plainly fail to match is one that matches.  A pattern
    whose regular expression cannot be built ends the search with [false],
    whatever follows it; the empty set includes nothing.  On patterns of
    ASCII characters none of which is one of [^ $ ( ) [ ] { } | \ +] and an
    ASCII relative path, the second condition is that some pattern of the
    set glob-matches the relative path itself: as in [shouldExclude], a
    directory is tested under its bare relative path. *)
Theorem shouldInclude_first_match :
  (forall h filePath basePath patterns,
     shouldInclude h filePath basePath patterns = true <->
     let rel := path_relative (cwd h) basePath filePath in
     startsWith rel ".." = false /\ isAbsolute rel = false /\
     exists front p back,
       patterns = front ++ p :: back /\
       matchPattern h rel p = Some true /\
       Forall (fun q => matchPattern h rel q = Some false) front)
  /\
  (forall h filePath basePath patterns,
     let rel := path_relative (cwd h) basePath filePath in
     Forall (fun p => all_chars glob_char p = true) patterns ->
     ascii_only rel = true ->
     (shouldInclude h filePath basePath patterns = true <->
      startsWith rel ".." = false /\ isAbsolute rel = false /\
      exists p, In p patterns /\ glob_match p rel)).
Proof.
  assert (forall h filePath basePath patterns,
     shouldInclude h filePath basePath patterns = true <->
     let rel := path_relative (cwd h) basePath filePath in
     startsWith rel ".." = false /\ isAbsolute rel = false /\
     exists front p back,
       patterns = front ++ p :: back /\
       matchPattern h rel p = Some true /\
       Forall (fun q => matchPattern h rel q = Some false) front) as Hfirst.
  { intros h filePath basePath patterns. cbv zeta. unfold shouldInclude.
    destruct (startsWith _ "..") eqn:Hdots; simpl.
    { split; [discriminate | intros [H _]; discriminate]. }
    destruct (isAbsolute _) eqn:Habs; simpl.
    { split; [discriminate | intros (_ & H & _); discriminate]. }
    rewrite include_loop_spec. split; [auto|]. intros (_ & _ & H). exact H. }
  split; [exact Hfirst|].
  intros h filePath basePath patterns rel Hg Ha. rewrite Hfirst. cbv zeta.
  fold rel. apply and_iff_compat_l, and_iff_compat_l. split.
  - intros (front & p & back & -> & Hp & _). exists p. split.
    + apply in_or_app. right. left. reflexivity.
    + apply Forall_app in Hg as [_ Hg]. apply Forall_cons in Hg as [Hg _].
      rewrite (matchPattern_glob h rel p Hg Ha) in Hp.
      apply items_match_glob. congruence.
  - intros (p & Hin & Hp). clear Hfirst. induction patterns as [|q ps IH];
      [destruct Hin|].
    apply Forall_cons in Hg as [Hq Hg].
    destruct (items_match (glob_items q) rel) eqn:Hm.
    + exists [], q, ps. repeat split; auto.
      rewrite (matchPattern_glob h rel q Hq Ha), Hm. reflexivity.
    + destruct Hin as [->|Hin].
      { apply items_match_glob in Hp. congruence. }
      destruct (IH Hg Hin) as (front & p' & back & -> & Hp' & Hf).
      exists (q :: front), p', back. repeat split; auto.
      constructor; [|exact Hf].
      rewrite (matchPattern_glob h rel q Hq Ha), Hm. reflexivity.
Qed.

(** ** Normal forms of patterns *)

Lemma utils_class_no_space c :
  utils_class c = true -> QueryParserUtils.is_space c = false.
Proof.
  destruct c as [[] [] [] [] [] [] [] []]; try discriminate; reflexivity.
Qed.

Lemma all_chars_rev f s : all_chars f (str_rev s) = all_chars f s.
Proof.
  induction s as [|c s IH]; [reflexivity|].
  rewrite str_rev_cons, all_chars_append, IH. simpl.
  rewrite andb_true_r, andb_comm. reflexivity.
Qed.

Lemma all_chars_impl (f g : ascii -> bool) s :
  (forall c, f c = true -> g c = true) ->
  all_chars f s = true -> all_chars g s = true.
Proof.
  intros Hfg. induction s as [|c s IH]; simpl; [reflexivity|].
  rewrite !andb_true_iff. intros [Hc Hs]. auto.
Qed.

(** No byte of a white-space character of two or three bytes is ASCII. *)
Lemma is_space2_bytes a b :
  QueryParserUtils.is_space2 a b = true -> is_ascii a = false /\ is_ascii b = false.
Proof.
  unfold QueryParserUtils.is_space2, is_ascii.
  rewrite andb_true_iff, !Nat.eqb_eq, !Nat.ltb_ge. lia.
Qed.

Lemma is_space3_bytes a b c :
  QueryParserUtils.is_space3 a b c = true ->
  is_ascii a = false /\ is_ascii b = false /\ is_ascii c = false.
Proof.
  unfold QueryParserUtils.is_space3, is_ascii. cbv zeta.
  rewrite !orb_true_iff, !andb_true_iff, !orb_true_iff, !andb_true_iff,
    !Nat.eqb_eq, !Nat.leb_le, !Nat.ltb_ge.
  lia.
Qed.

Lemma utils_class_ascii c : utils_class c = true -> is_ascii c = true.
Proof.
  destruct c as [[] [] [] [] [] [] [] []]; try discriminate; reflexivity.
Qed.

(** A text that begins with an ASCII character other than white space begins
    with no white-space character, from whichever end it is read. *)
Lemma width_of_ascii w2 w3 c s :
  (forall a b, w2 a b = true -> is_ascii a = false) ->
  (forall a b d, w3 a b d = true -> is_ascii a = false) ->
  is_ascii c = true -> QueryParserUtils.is_space c = false ->
  QueryParserUtils.width_of w2 w3 (String c s) = O.
Proof.
  intros H2 H3 Hc Hs. unfold QueryParserUtils.width_of. rewrite Hs.
  destruct s as [|b s]; [reflexivity|].
  destruct (w2 c b) eqn:E2; [apply H2 in E2; congruence|].
  destruct s as [|d s]; [reflexivity|].
  destruct (w3 c b d) eqn:E3; [apply H3 in E3; congruence|reflexivity].
Qed.

Lemma space_width_ascii c s :
  is_ascii c = true -> QueryParserUtils.is_space c = false ->
  QueryParserUtils.space_width (String c s) = O.
Proof.
  apply width_of_ascii.
  - intros a b H. apply is_space2_bytes in H. tauto.
  - intros a b d H. apply is_space3_bytes in H. tauto.
Qed.

Lemma space_width_back_ascii c s :
  is_ascii c = true -> QueryParserUtils.is_space c = false ->
  QueryParserUtils.space_width_back (String c s) = O.
Proof.
  apply width_of_ascii.
  - intros a b H. apply is_space2_bytes in H. tauto.
  - intros a b d H. apply is_space3_bytes in H. tauto.
Qed.

Lemma trim_id s :
  all_chars utils_class s = true -> QueryParserUtils.trim s = s.
Proof.
  intros Hs.
  assert (forall t, all_chars utils_class t = true ->
                    QueryParserUtils.drop_spaces QueryParserUtils.space_width 0 t = t
                    /\ QueryParserUtils.drop_spaces
                         QueryParserUtils.space_width_back 0 t = t) as Hdrop.
  { intros [|c t]; [split; reflexivity|]. cbn [all_chars].
    rewrite andb_true_iff. intros [Hc _].
    cbn [QueryParserUtils.drop_spaces].
    rewrite space_width_ascii, space_width_back_ascii;
      auto using utils_class_ascii, utils_class_no_space. }
  unfold QueryParserUtils.trim, QueryParserUtils.trim_end,
    QueryParserUtils.trim_start.
  rewrite (proj1 (Hdrop s Hs)).
  rewrite (proj2 (Hdrop (str_rev s) ltac:(rewrite all_chars_rev; exact Hs))).
  apply str_rev_involutive.
Qed.

Lemma strip_leading_slashes_spec s :
  exists k,
    s = slashes k +:+ QueryParserUtils.strip_leading_slashes s /\
    startsWith (QueryParserUtils.strip_leading_slashes s) "/" = false.
Proof.
  induction s as [|c s (k & Hk & Hs)]; cbn [QueryParserUtils.strip_leading_slashes].
  - exists O. split; reflexivity.
  - destruct (Ascii.eqb c sep_char) eqn:Hc.
    + apply Ascii.eqb_eq in Hc. subst c. exists (S k). cbn [slashes]. push_app.
      split; [f_equal; exact Hk | exact Hs].
    + exists O. split; [reflexivity|]. cbn [startsWith].
      rewrite (Ascii.eqb_sym "/"%char c). unfold sep_char in Hc. rewrite Hc.
      reflexivity.
Qed.

Lemma strip_leading_slashes_id s :
  startsWith s "/" = false -> QueryParserUtils.strip_leading_slashes s = s.
Proof.
  destruct s as [|c s]; cbn [QueryParserUtils.strip_leading_slashes startsWith];
    [reflexivity|].
  rewrite (Ascii.eqb_sym "/"%char c). unfold sep_char.
  destruct (Ascii.eqb c "/"); [discriminate | reflexivity].
Qed.

Lemma slashes_rev k : str_rev (slashes k) = slashes k.
Proof.
  induction k as [|k IH]; [reflexivity|]. simpl. rewrite str_rev_cons, IH.
  clear IH. induction k as [|k IH]; [reflexivity|]. simpl. push_app.
  rewrite IH. reflexivity.
Qed.

Lemma normalizePattern_ends p :
  QueryParserUtils.isValidPattern p = true ->
  (exists k j, p = slashes k +:+ QueryParserUtils.normalizePattern p +:+ slashes j) /\
  startsWith (QueryParserUtils.normalizePattern p) "/" = false /\
  endsWith (QueryParserUtils.normalizePattern p) "/" = false /\
  all_chars utils_class (QueryParserUtils.normalizePattern p) = true.
Proof.
  unfold QueryParserUtils.isValidPattern. rewrite andb_true_iff.
  intros [_ Hv].
  destruct (strip_leading_slashes_spec p) as (k & Hk & Ha).
  set (a := QueryParserUtils.strip_leading_slashes p) in *.
  destruct (strip_leading_slashes_spec (str_rev a)) as (j & Hj & Hc).
  set (c := QueryParserUtils.strip_leading_slashes (str_rev a)) in *.
  assert (QueryParserUtils.normalizePattern p = str_rev c) as Hn.
  { unfold QueryParserUtils.normalizePattern. rewrite (trim_id p Hv).
    reflexivity. }
  rewrite !Hn. clear Hn.
  assert (a = str_rev c +:+ slashes j) as Han.
  { rewrite <- (str_rev_involutive a), Hj, str_rev_append, slashes_rev.
    reflexivity. }
  assert (startsWith (str_rev c) "/" = false) as Hstart.
  { destruct (str_rev c) as [|d r] eqn:Hr; [reflexivity|].
    rewrite Han in Ha. rewrite ?str_app_cons, ?str_app_nil in Ha. exact Ha. }
  split; [|split; [|split]].
  - exists k, j. rewrite Hk at 1. rewrite Han. reflexivity.
  - exact Hstart.
  - unfold endsWith. rewrite str_rev_involutive. exact Hc.
  - rewrite Hk, Han, !all_chars_append in Hv.
    apply andb_true_iff in Hv as [_ Hv]. apply andb_true_iff in Hv as [Hv _].
    exact Hv.
Qed.

(** The normal form of a pattern that passed validation: it is the pattern
    with the separators at its two ends removed and nothing else changed; it
    neither begins nor ends with a separator; normalising it again changes
    nothing; and it is itself a valid pattern, unless the pattern was made
    of separators only, in which case its normal form is the empty text. *)
Theorem normalizePattern_valid p :
  QueryParserUtils.isValidPattern p = true ->
  let n := QueryParserUtils.normalizePattern p in
  (exists k j, p = slashes k +:+ n +:+ slashes j) /\
  startsWith n "/" = false /\ endsWith n "/" = false /\
  QueryParserUtils.normalizePattern n = n /\
  (n = EmptyString \/ QueryParserUtils.isValidPattern n = true).
Proof.
  intros Hv n.
  destruct (normalizePattern_ends p Hv) as (Hshape & Hstart & Hend & Hvn).
  fold n in Hshape, Hstart, Hend, Hvn. clearbody n.
  split; [exact Hshape|]. split; [exact Hstart|]. split; [exact Hend|]. split.
  - unfold QueryParserUtils.normalizePattern. rewrite (trim_id n Hvn).
    rewrite (strip_leading_slashes_id _ Hstart).
    rewrite (strip_leading_slashes_id (str_rev n) Hend).
    apply str_rev_involutive.
  - destruct n as [|d r]; [left; reflexivity|].
    right. unfold QueryParserUtils.isValidPattern. rewrite Hvn. reflexivity.
Qed.

Lemma normalizePattern_valid_example :
  let n := QueryParserUtils.normalizePattern "//src/lib/" in
  QueryParserUtils.isValidPattern "//src/lib/" = true /\
  n = "src/lib" /\ QueryParserUtils.normalizePattern n = n /\
  QueryParserUtils.isValidPattern n = true.
Proof.
  destruct (normalizePattern_valid "//src/lib/" eq_refl) as (_ & _ & _ & H & _).
  cbv zeta. split; [reflexivity|]. split; [reflexivity|].
  split; [exact H | reflexivity].
Defined.

(** ** The two forms of a pattern argument *)

Lemma split_from_nonempty s : forall skip b, split_from skip b s <> [].
Proof.
  induction s as [|c s IH]; intros skip b; cbn [split_from]; [discriminate|].
  destruct skip as [|k]; [|apply IH].
  destruct (separator_width (String c s)) as [|k].
  - specialize (IH O false). unfold keep.
    destruct (split_from 0 false s); [contradiction | discriminate].
  - unfold cut. destruct b; [apply IH | discriminate].
Qed.

Lemma is_space2_ascii a b :
  is_ascii a = true \/ is_ascii b = true -> QueryParserUtils.is_space2 a b = false.
Proof.
  intros H. destruct (QueryParserUtils.is_space2 a b) eqn:E; [|reflexivity].
  apply is_space2_bytes in E. destruct H; destruct E; congruence.
Qed.

Lemma is_space3_ascii a b c :
  is_ascii a = true \/ is_ascii b = true \/ is_ascii c = true ->
  QueryParserUtils.is_space3 a b c = false.
Proof.
  intros H. destruct (QueryParserUtils.is_space3 a b c) eqn:E; [|reflexivity].
  apply is_space3_bytes in E. destruct E as (? & ? & ?).
  destruct H as [H|[H|H]]; congruence.
Qed.

(** Whether a separator begins a non-empty text does not depend on what
    follows the text, when that begins with an ASCII character. *)
Lemma separator_width_app p rest :
  p <> EmptyString -> ascii_head rest ->
  separator_width (p +:+ rest) = separator_width p.
Proof.
  intros Hp Hrest. destruct p as [|a p]; [contradiction|]. clear Hp.
  push_app. unfold separator_width.
  destruct (Ascii.eqb a ","%char); [reflexivity|].
  unfold QueryParserUtils.space_width, QueryParserUtils.width_of.
  destruct (QueryParserUtils.is_space a); [reflexivity|].
  destruct p as [|b p]; push_app.
  - destruct rest as [|d rest]; [reflexivity|]. simpl in Hrest.
    rewrite is_space2_ascii by auto.
    destruct rest as [|e rest]; [reflexivity|].
    rewrite is_space3_ascii by auto. reflexivity.
  - destruct (QueryParserUtils.is_space2 a b); [reflexivity|].
    destruct p as [|c p]; push_app; [|reflexivity].
    destruct rest as [|d rest]; [reflexivity|]. simpl in Hrest.
    rewrite is_space3_ascii by auto. reflexivity.
Qed.

Lemma split_runs_item p : forall b rest,
  one_item p = true -> ascii_head rest ->
  split_runs b (p +:+ rest) =
  match split_runs false rest with
  | w :: ws => (p +:+ w) :: ws
  | [] => [p]
  end.
Proof.
  unfold one_item, split_runs.
  induction p as [|c p IH]; intros b rest; [discriminate|].
  cbn [nonempty free_of_separators]. rewrite andb_true_l, andb_true_iff, Nat.eqb_eq.
  intros [Hc Hp] Hrest.
  assert (separator_width (String c p +:+ rest) = O) as Hw
    by (rewrite separator_width_app; [exact Hc | discriminate | exact Hrest]).
  rewrite str_app_cons in Hw |- *. cbn [split_from]. rewrite Hw.
  pose proof (split_from_nonempty rest O false) as Hne.
  destruct p as [|d p].
  - push_app. unfold keep.
    destruct (split_from 0 false rest); [contradiction | reflexivity].
  - rewrite (IH false rest) by (rewrite ?Hp; auto).
    unfold keep. destruct (split_from 0 false rest); [contradiction | reflexivity].
Qed.

Lemma split_runs_join l :
  Forall (fun p => one_item p = true) l -> l <> [] ->
  split_runs false (join "," l) = l.
Proof.
  induction 1 as [|p l Hp Hl IH]; intros Hne; [contradiction|].
  destruct l as [|q l].
  - simpl. rewrite <- (str_append_nil_r p) at 1.
    rewrite (split_runs_item p false EmptyString Hp I). simpl.
    rewrite str_append_nil_r. reflexivity.
  - change (join "," (p :: q :: l)) with (p +:+ "," +:+ join "," (q :: l)).
    rewrite (split_runs_item p false ("," +:+ join "," (q :: l)) Hp)
      by reflexivity.
    push_app. unfold split_runs. cbn [split_from separator_width].
    change (Ascii.eqb "," ",") with true. cbv iota. unfold cut.
    rewrite str_append_nil_r. f_equal.
    specialize (IH ltac:(discriminate)). unfold split_runs in IH.
    rewrite <- IH at 2.
    apply Forall_cons in Hl as [Hq Hl'].
    assert (exists rest, join "," (q :: l) = q +:+ rest /\ ascii_head rest)
      as (rest & -> & Hrest).
    { destruct l as [|r l].
      - exists EmptyString. rewrite str_append_nil_r. split; [reflexivity|exact I].
      - exists ("," +:+ join "," (r :: l)). split; reflexivity. }
    pose proof (split_runs_item q true rest Hq Hrest) as Ht.
    pose proof (split_runs_item q false rest Hq Hrest) as Hf.
    unfold split_runs in Ht, Hf. rewrite Ht, Hf. reflexivity.
Qed.

(** [parsePatterns] gives the same answer for a set of items, each
    non-empty and free of commas and white-space characters, and for the
    text that lists them separated by commas, whether that answer is a set
    or an [InvalidPatternError]: items are taken one by one in their order,
    and the empty text stands for the empty set.  White space is that of the
    class [\s]: the no-break space separates two items as a comma does. *)
Theorem parsePatterns_text_or_set l :
  Forall (fun p => one_item p = true) l ->
  parsePatterns (PString (join "," l)) = parsePatterns (PSet l).
Proof.
  intros Hl. unfold parsePatterns. destruct l as [|p l].
  - reflexivity.
  - rewrite (split_runs_join (p :: l) Hl) by discriminate. reflexivity.
Qed.

Lemma parsePatterns_text_or_set_example :
  join "," ["*.md"; "/docs/"; "src/*"] = "*.md,/docs/,src/*" /\
  parsePatterns (PString (join "," ["*.md"; "/docs/"; "src/*"]))
    = parsePatterns (PSet ["*.md"; "/docs/"; "src/*"]) /\
  parsePatterns (PSet ["*.md"; "/docs/"; "src/*"]) = Ok ["*.md"; "docs"; "src/*"] /\
  one_item ("a" +:+ nbsp +:+ "b") = false /\
  parsePatterns (PString ("a" +:+ nbsp +:+ "b")) = Ok ["a"; "b"].
Proof.
  split; [reflexivity|]. split; [|repeat split; reflexivity].
  apply (parsePatterns_text_or_set ["*.md"; "/docs/"; "src/*"]).
  repeat constructor.
Defined.

(** ** The sets of the query [parseQuery] builds *)

Lemma set_add_all_In xs : forall s x,
  In x (set_add_all s xs) <-> In x s \/ In x xs.
Proof.
  intros s x. rewrite <- !set_has_In, set_has_add_all, orb_true_iff.
  rewrite existsb_exists. split.
  - intros [H|(y & Hy & He)]; [left; exact H|].
    apply String.eqb_eq in He. subst y. right. apply set_has_In.
    apply set_has_In. apply set_has_In, Hy.
  - intros [H|H]; [left; exact H|]. right. apply set_has_In in H.
    exists x. split; [exact H | apply String.eqb_refl].
Qed.

Lemma set_delete_In s x y : In y (set_delete s x) <-> In y s /\ y <> x.
Proof.
  unfold set_delete. rewrite <- !list_elem_of_In, list_elem_of_filter.
  unfold str_eqb. rewrite String.eqb_neq. split; intros [H1 H2]; split; auto.
Qed.

Lemma fold_set_delete_In ps : forall s y,
  In y (fold_left set_delete ps s) <-> In y s /\ ~ In y ps.
Proof.
  induction ps as [|p ps IH]; intros s y; simpl.
  - tauto.
  - rewrite IH, set_delete_In. split.
    + intros [[H1 H2] H3]. split; [exact H1|]. intros [H|H]; [congruence|contradiction].
    + intros [H1 H2]. repeat split; auto.
Qed.

(** The effective exclude set of the query [parseQuery] builds holds exactly
    the default patterns and the parsed exclude patterns that are not among
    the parsed include patterns: the override is by equality of normal
    forms, and it removes a default as readily as a pattern the caller gave.
    An absent or empty-text argument counts as no patterns. *)
Theorem parseQuery_exclude_set defaults uuid base max inc ign q :
  parseQuery_merge defaults uuid base max inc ign = Ok q ->
  exists excl incl,
    (if patterns_truthy ign
     then exists arg, ign = Some arg /\ parsePatterns arg = Ok excl
     else excl = []) /\
    (if patterns_truthy inc
     then exists arg, inc = Some arg /\ parsePatterns arg = Ok incl /\
                      include_patterns q = Some incl
     else incl = [] /\ include_patterns q = None) /\
    forall p, In p (ignore_patterns q) <->
              (In p defaults \/ In p excl) /\ ~ In p incl.
Proof.
  unfold parseQuery_merge. intros H.
  apply bind_Ok in H as (s1 & H1 & H).
  apply bind_Ok in H as ([parsed s2] & H2 & [= <-]). cbn [ignore_patterns include_patterns createIngestionQuery p_ignore_patterns p_include_patterns].
  assert (exists excl,
    (if patterns_truthy ign
     then exists arg, ign = Some arg /\ parsePatterns arg = Ok excl
     else excl = []) /\
    forall p, In p s1 <-> In p defaults \/ In p excl) as (excl & He & Hs1).
  { destruct ign as [arg|].
    - destruct (patterns_truthy (Some arg)).
      + apply bind_Ok in H1 as (ps & Hps & [= <-]). exists ps.
        split; [eauto|]. intros p. rewrite set_add_all_In, In_new_Set. reflexivity.
      + injection H1 as <-. exists []. split; [reflexivity|].
        intros p. rewrite In_new_Set. simpl. tauto.
    - injection H1 as <-. exists []. split; [reflexivity|].
      intros p. rewrite In_new_Set. simpl. tauto. }
  exists excl. destruct inc as [arg|].
  - destruct (patterns_truthy (Some arg)).
    + apply bind_Ok in H2 as (ps & Hps & [= <- <-]). exists ps.
      split; [exact He|]. split; [eauto|].
      intros p. rewrite fold_set_delete_In, Hs1. reflexivity.
    + injection H2 as <- <-. exists []. split; [exact He|]. split; [auto|].
      intros p. rewrite Hs1. simpl. tauto.
  - injection H2 as <- <-. exists []. split; [exact He|]. split; [simpl; auto|].
    intros p. rewrite Hs1. simpl. tauto.
Qed.

Lemma parseQuery_exclude_set_example :
  exists q,
    parseQuery_merge ["*.pyc"; ".git"] "0" (local_query "/r") MAX_FILE_SIZE
      (Some (PString "/.git/")) (Some (PString "*.log, dist/")) = Ok q /\
    ignore_patterns q = ["*.pyc"; "*.log"; "dist"] /\
    include_patterns q = Some [".git"] /\
    exists excl incl,
      forall p, In p (ignore_patterns q) <->
                (In p ["*.pyc"; ".git"] \/ In p excl) /\ ~ In p incl.
Proof.
  eexists. split; [reflexivity|]. split; [reflexivity|]. split; [reflexivity|].
  destruct (parseQuery_exclude_set ["*.pyc"; ".git"] "0" (local_query "/r")
              MAX_FILE_SIZE (Some (PString "/.git/"))
              (Some (PString "*.log, dist/")) _ eq_refl)
    as (excl & incl & _ & _ & H).
  exists excl, incl. exact H.
Defined.

(** ** Queries *)

Lemma or_str_nonempty o d : nonempty d = true -> nonempty (or_str o d) = true.
Proof.
  intros Hd. unfold or_str. destruct o as [s|]; [|exact Hd].
  destruct (nonempty s) eqn:Hs; assumption.
Qed.

Lemma or_str_Some s d : nonempty s = true -> or_str (Some s) d = s.
Proof. intros Hs. unfold or_str. rewrite Hs. reflexivity. Qed.

(** [createIngestionQuery] leaves none of the defaulted fields empty, and a
    query it built goes through the spread [{...query}] and a further
    [createIngestionQuery] unchanged, whatever identifier is drawn the second
    time: the route by which [parseQuery] and [applyPatterns] rebuild a
    query keeps everything they do not set. *)
Theorem createIngestionQuery_round_trip uuid params :
  nonempty uuid = true ->
  let q := createIngestionQuery uuid params in
  well_formed q /\
  forall uuid', createIngestionQuery uuid' (spread q) = q.
Proof.
  intros Hu. cbv zeta.
  assert (well_formed (createIngestionQuery uuid params)) as Hwf.
  { unfold well_formed, createIngestionQuery. cbn.
    repeat split; try (apply or_str_nonempty; try reflexivity; try exact Hu).
    destruct (p_max_file_size params) as [m|]; [|discriminate].
    destruct (Z.eqb_spec m 0); [discriminate | assumption]. }
  split; [exact Hwf|]. intros uuid'.
  destruct Hwf as (Hid & Hslug & Hty & Hsub & Hmax).
  set (q := createIngestionQuery uuid params) in *.
  unfold createIngestionQuery at 1. unfold spread.
  cbn [p_user_name p_repo_name p_local_path p_url p_slug p_id p_subpath p_type
       p_branch p_commit p_max_file_size p_ignore_patterns p_include_patterns].
  rewrite (or_str_Some _ _ Hid), (or_str_Some _ _ Hslug), (or_str_Some _ _ Hty),
    (or_str_Some _ _ Hsub).
  destruct (Z.eqb_spec (max_file_size q) 0) as [H0|_]; [contradiction|].
  assert (or_str (Some (local_path q)) EmptyString = local_path q) as ->.
  { unfold or_str. destruct (local_path q); reflexivity. }
  destruct q. reflexivity.
Qed.

Lemma createIngestionQuery_round_trip_example :
  let q := createIngestionQuery "7d1f"
             {| p_user_name := None; p_repo_name := None;
                p_local_path := Some "/w"; p_url := None; p_slug := None;
                p_id := None; p_subpath := None; p_type := None;
                p_branch := None; p_commit := None;
                p_max_file_size := Some 0;
                p_ignore_patterns := None; p_include_patterns := None |} in
  slug q = "query-7d1f" /\ max_file_size q = MAX_FILE_SIZE /\
  createIngestionQuery "0000" (spread q) = q.
Proof.
  cbv zeta. split; [reflexivity|]. split; [reflexivity|].
  apply (createIngestionQuery_round_trip "7d1f"). reflexivity.
Defined.

(** [applyPatterns], on a query none of whose defaulted fields is empty,
    changes the size limit and the two pattern sets and nothing else.  Every
    exclude pattern of the query stays and the normal form of each given one
    is added; unlike [parseQuery] it removes no exclude pattern on account of
    an include pattern.  An empty list of include patterns leaves the
    query's include set as it was; a non-empty one replaces it. *)
Theorem applyPatterns_frame uuid q m ign inc :
  well_formed q ->
  let q' := applyPatterns uuid q m ign inc in
  same_resource q' q /\
  max_file_size q' = (if m =? 0 then MAX_FILE_SIZE else m) /\
  (forall p, In p (ignore_patterns q') <->
             In p (ignore_patterns q) \/
             exists x, In x ign /\ p = QueryParserUtils.normalizePattern x) /\
  (inc = [] -> include_patterns q' = include_patterns q) /\
  (inc <> [] ->
   include_patterns q'
     = Some (new_Set (map QueryParserUtils.normalizePattern inc))).
Proof.
  intros (Hid & Hslug & Hty & Hsub & Hmax). cbv zeta.
  unfold applyPatterns, createIngestionQuery, spread, same_resource.
  cbn [p_user_name p_repo_name p_local_path p_url p_slug p_id p_subpath p_type
       p_branch p_commit p_max_file_size p_ignore_patterns p_include_patterns].
  rewrite (or_str_Some _ _ Hid), (or_str_Some _ _ Hslug), (or_str_Some _ _ Hty),
    (or_str_Some _ _ Hsub).
  assert (or_str (Some (local_path q)) EmptyString = local_path q) as ->.
  { unfold or_str. destruct (local_path q); reflexivity. }
  cbn [user_name repo_name local_path url slug id subpath type_ branch commit
       max_file_size ignore_patterns include_patterns].
  split; [repeat split|]. split; [reflexivity|]. split; [|split].
  - intros p. rewrite In_new_Set, in_app_iff, In_new_Set, in_map_iff.
    split; (intros [H|(x & H1 & H2)]; [left; exact H | right; exists x; auto]).
  - intros ->. reflexivity.
  - intros Hne. destruct inc as [|x inc]; [contradiction|].
    destruct (new_Set (map QueryParserUtils.normalizePattern (x :: inc)))
      as [|y ys] eqn:Hs; [|reflexivity].
    exfalso. assert (In (QueryParserUtils.normalizePattern x) []) as [].
    rewrite <- Hs. apply In_new_Set. left. reflexivity.
Qed.

Lemma applyPatterns_frame_example :
  let q := set_ignore_patterns (local_query "/w") ["*.ts"] in
  let q' := applyPatterns "0" q 0 ["/dist/"; nbsp +:+ "/a/"] ["*.ts"] in
  ignore_patterns q' = ["*.ts"; "dist"; "a"] /\
  include_patterns q' = Some ["*.ts"] /\
  max_file_size q' = MAX_FILE_SIZE.
Proof.
  cbv zeta.
  destruct (applyPatterns_frame "0"
              (set_ignore_patterns (local_query "/w") ["*.ts"]) 0
              ["/dist/"; nbsp +:+ "/a/"] ["*.ts"])
    as (_ & Hm & _ & _ & Hi).
  { repeat split; discriminate. }
  split; [reflexivity|]. split; [apply Hi; discriminate | exact Hm].
Defined.

(** * References to a repository *)

Lemma is_hex_width c :
  is_hex c = true ->
  (if Nat.leb 240 (nat_of_ascii c) then 2
   else if (Nat.leb 128 (nat_of_ascii c)) && (Nat.ltb (nat_of_ascii c) 192) then 0
   else 1) = 1 /\ utils_class c = true /\ Ascii.eqb c sep_char = false.
Proof.
  destruct c as [[] [] [] [] [] [] [] []]; try discriminate; repeat split.
Qed.

Lemma hex_js_length s :
  all_chars is_hex s = true -> js_length s = Z.of_nat (String.length s).
Proof.
  induction s as [|c s IH]; [reflexivity|].
  cbn [all_chars js_length String.length]. rewrite andb_true_iff.
  intros [Hc Hs]. destruct (is_hex_width c Hc) as (-> & _). rewrite (IH Hs). lia.
Qed.

(** The two validators of commit hashes.  The one [query_parsing] imports
    accepts every text of 7 to 40 hexadecimal digits, abbreviated hashes
    included; its namesake accepts full hashes of 40 digits only, so whatever
    it accepts the other accepts as well.  An accepted hash is a valid
    pattern and holds no separator. *)
Theorem commit_hash_validators :
  (forall c,
     QueryParserUtilsUrl.isValidGitCommitHash c = true <->
     (7 <= String.length c <= 40)%nat /\
     forall x, In x (list_ascii_of_string c) ->
               In x (list_ascii_of_string "0123456789ABCDEFabcdef")) /\
  (forall c,
     QueryParserUrl.isValidGitCommitHash c = true <->
     String.length c = 40%nat /\
     forall x, In x (list_ascii_of_string c) ->
               In x (list_ascii_of_string "0123456789ABCDEFabcdef")) /\
  (forall c,
     QueryParserUrl.isValidGitCommitHash c = true ->
     QueryParserUtilsUrl.isValidGitCommitHash c = true) /\
  (forall c,
     QueryParserUtilsUrl.isValidGitCommitHash c = true ->
     QueryParserUtils.isValidPattern c = true /\
     includes_char c sep_char = false).
Proof.
  assert (forall c, all_chars is_hex c = true <->
            forall x, In x (list_ascii_of_string c) ->
                      In x (list_ascii_of_string "0123456789ABCDEFabcdef")) as Hhex.
  { intros c. rewrite all_chars_spec. unfold is_hex.
    split; intros H x Hx; apply includes_char_spec, H, Hx. }
  assert (forall c,
     QueryParserUtilsUrl.isValidGitCommitHash c = true <->
     (7 <= String.length c <= 40)%nat /\ all_chars is_hex c = true) as Hutils.
  { intros c. unfold QueryParserUtilsUrl.isValidGitCommitHash.
    rewrite !andb_true_iff, !Nat.leb_le. tauto. }
  assert (forall c,
     QueryParserUrl.isValidGitCommitHash c = true <->
     String.length c = 40%nat /\ all_chars is_hex c = true) as Hparser.
  { intros c. unfold QueryParserUrl.isValidGitCommitHash.
    rewrite andb_true_iff, Z.eqb_eq. split.
    - intros [Hl Hc]. rewrite (hex_js_length c Hc) in Hl. split; [lia | exact Hc].
    - intros [Hl Hc]. rewrite (hex_js_length c Hc). split; [lia | exact Hc]. }
  split; [|split; [|split]].
  - intros c. rewrite Hutils, Hhex. reflexivity.
  - intros c. rewrite Hparser, Hhex. reflexivity.
  - intros c. rewrite Hparser, Hutils. intros [-> Hc]. split; [lia | exact Hc].
  - intros c. rewrite Hutils. intros [Hl Hc]. split.
    + unfold QueryParserUtils.isValidPattern. apply andb_true_iff. split.
      * destruct c; [simpl in Hl; lia | reflexivity].
      * revert Hc. apply all_chars_impl. intros x Hx. apply is_hex_width, Hx.
    + clear Hl. induction c as [|x c IH]; [reflexivity|].
      cbn [all_chars includes_char] in Hc |- *.
      apply andb_true_iff in Hc as [Hx Hc].
      destruct (is_hex_width x Hx) as (_ & _ & Hs).
      rewrite Ascii.eqb_sym, Hs. apply IH, Hc.
Qed.

(** ** Segments *)

Lemma segments_app a b :
  segments (a +:+ String sep_char b) = segments a ++ segments b.
Proof. unfold segments. rewrite split_on_app, filter_app. reflexivity. Qed.

Lemma segments_one s :
  nonempty s = true -> includes_char s sep_char = false -> segments s = [s].
Proof.
  intros Hne Hns. unfold segments. rewrite (split_on_no_sep _ _ Hns).
  rewrite filter_cons_True by exact Hne. reflexivity.
Qed.

(** [getUserAndRepoFromPath] reads back the two names a path was built
    from, with or without a leading separator and whatever follows the
    repository name; a path of fewer than two parts is refused. *)
Theorem getUserAndRepoFromPath_round_trip user repo :
  nonempty user = true -> includes_char user sep_char = false ->
  nonempty repo = true -> includes_char repo sep_char = false ->
  QueryParserUtilsUrl.getUserAndRepoFromPath (user +:+ "/" +:+ repo)
    = Ok (user, repo) /\
  (forall rest,
     QueryParserUtilsUrl.getUserAndRepoFromPath
       ("/" +:+ user +:+ "/" +:+ repo +:+ "/" +:+ rest) = Ok (user, repo)) /\
  QueryParserUtilsUrl.getUserAndRepoFromPath ("/" +:+ user +:+ "/")
    = Throw (Error "Invalid repository path. Must be in format: user/repo").
Proof.
  intros Hu Hus Hr Hrs. unfold QueryParserUtilsUrl.getUserAndRepoFromPath.
  pose proof (segments_one user Hu Hus) as Su.
  pose proof (segments_one repo Hr Hrs) as Sr.
  split; [|split].
  - change (user +:+ "/" +:+ repo) with (user +:+ String sep_char repo).
    rewrite segments_app, Su, Sr. reflexivity.
  - intros rest.
    change ("/" +:+ user +:+ "/" +:+ repo +:+ "/" +:+ rest)
      with (EmptyString +:+ String sep_char
              (user +:+ String sep_char (repo +:+ String sep_char rest))).
    rewrite !segments_app, Su, Sr. reflexivity.
  - change ("/" +:+ user +:+ "/")
      with (EmptyString +:+ String sep_char
              (user +:+ String sep_char EmptyString)).
    rewrite !segments_app, Su. reflexivity.
Qed.

Lemma getUserAndRepoFromPath_round_trip_example :
  QueryParserUtilsUrl.getUserAndRepoFromPath "/lakpahana/export-to-llm/tree/main/src"
    = Ok ("lakpahana", "export-to-llm").
Proof.
  destruct (getUserAndRepoFromPath_round_trip "lakpahana" "export-to-llm"
              eq_refl eq_refl eq_refl eq_refl) as (_ & H & _).
  exact (H "tree/main/src").
Defined.

(** ** Resolved paths *)

Lemma split_on_elems sep s :
  Forall (fun w => includes_char w sep = false) (split_on sep s).
Proof.
  induction s as [|c s IH]; simpl; [repeat constructor|].
  destruct (Ascii.eqb c sep) eqn:Hc; [constructor; [reflexivity | exact IH]|].
  destruct (split_on sep s) as [|w ws]; [repeat constructor; simpl|].
  - rewrite Ascii.eqb_sym, Hc. reflexivity.
  - apply Forall_cons in IH as [Hw Hws]. constructor; [|exact Hws].
    simpl. rewrite Ascii.eqb_sym, Hc. exact Hw.
Qed.

Lemma segments_clean p : Forall (fun w => clean_segment w = true) (segments p).
Proof.
  unfold segments. pose proof (split_on_elems sep_char p) as H.
  induction H as [|w ws Hw Hws IH]; [constructor|].
  rewrite filter_cons. destruct (decide (nonempty w = true)) as [Hn|Hn]; [|exact IH].
  constructor; [|exact IH]. unfold clean_segment. rewrite Hn, Hw. reflexivity.
Qed.

Lemma clean_segment_spec w :
  clean_segment w = true ->
  nonempty w = true /\ includes_char w sep_char = false.
Proof. unfold clean_segment. rewrite andb_true_iff, negb_true_iff. tauto. Qed.

Lemma entry_name_clean w : entry_name w = true -> clean_segment w = true.
Proof.
  intros H. destruct (entry_name_spec w H) as (Hn & Hs & _).
  unfold clean_segment. rewrite Hn, Hs. reflexivity.
Qed.

Lemma segments_join l :
  Forall (fun w => clean_segment w = true) l -> segments (join "/" l) = l.
Proof.
  induction 1 as [|w l Hw Hl IH]; [reflexivity|].
  destruct (clean_segment_spec w Hw) as [Hn Hs].
  destruct l as [|v l]; [apply segments_one; assumption|].
  change (join "/" (w :: v :: l)) with (w +:+ String sep_char (join "/" (v :: l))).
  rewrite segments_app, IH, (segments_one w Hn Hs). reflexivity.
Qed.

Lemma normalize_walk_names segs : forall acc,
  Forall (fun w => clean_segment w = true) segs ->
  Forall (fun w => entry_name w = true) acc ->
  Forall (fun w => entry_name w = true) (normalize_walk false acc segs).
Proof.
  induction segs as [|s segs IH]; intros acc Hs Ha; cbn [normalize_walk].
  - apply Forall_rev, Ha.
  - apply Forall_cons in Hs as [Hc Hs].
    destruct (str_eqb s ".") eqn:Hd; [apply IH; assumption|].
    destruct (str_eqb s "..") eqn:Hdd.
    + destruct acc as [|top acc]; [apply IH; assumption|].
      apply Forall_cons in Ha as [Ht Ha].
      destruct (entry_name_spec top Ht) as (_ & _ & _ & ->).
      apply IH; assumption.
    + apply IH; [exact Hs|]. constructor; [|exact Ha].
      destruct (clean_segment_spec s Hc) as [Hn Hns].
      unfold entry_name. rewrite Hn, Hns, Hd, Hdd. reflexivity.
Qed.

Lemma normalize_walk_dot b l :
  Forall (fun w => entry_name w = true) l ->
  forall acc, normalize_walk b acc (l ++ ["."]) = rev acc ++ l.
Proof.
  induction 1 as [|w l Hw Hl IH]; intros acc; cbn [app normalize_walk].
  - change (str_eqb "." ".") with true. cbv iota. cbn [normalize_walk].
    rewrite app_nil_r. reflexivity.
  - destruct (entry_name_spec w Hw) as (_ & _ & -> & ->).
    rewrite IH. cbn [rev]. rewrite <- app_assoc. reflexivity.
Qed.

Lemma path_resolve_shape cwd p :
  exists segs,
    Forall (fun w => entry_name w = true) segs /\
    path_resolve cwd p = "/" +:+ join "/" segs.
Proof.
  unfold path_resolve, normalizeString. eexists. split; [|reflexivity].
  apply normalize_walk_names; [apply segments_clean | constructor].
Qed.

Lemma join_nonempty l :
  Forall (fun w => clean_segment w = true) l -> l <> [] ->
  nonempty (join "/" l) = true.
Proof.
  intros Hl Hne. destruct l as [|w l]; [contradiction|].
  apply Forall_cons in Hl as [Hw _].
  destruct (clean_segment_spec w Hw) as [Hn _].
  destruct w as [|c w]; [discriminate|]. destruct l; reflexivity.
Qed.

(** Joining a resolved path and the current-directory segment gives the
    resolved path back. *)
Lemma path_join_resolved_dot cwd p :
  path_join (path_resolve cwd p) "." = path_resolve cwd p.
Proof.
  destruct (path_resolve_shape cwd p) as (segs & Hsegs & ->).
  assert (Forall (fun w => clean_segment w = true) segs) as Hclean.
  { eapply Forall_impl; [exact Hsegs|]. apply entry_name_clean. }
  unfold path_join, path_join_all.
  rewrite filter_cons_True by reflexivity.
  rewrite filter_cons_True by reflexivity. rewrite filter_nil.
  change (join "/" ["/" +:+ join "/" segs; "."])
    with (("/" +:+ join "/" segs) +:+ "/" +:+ ".").
  unfold path_normalize.
  assert (endsWith (("/" +:+ join "/" segs) +:+ "/" +:+ ".") "/" = false) as ->.
  { rewrite <- str_append_assoc. apply endsWith_sep_append; reflexivity. }
  change (nonempty (("/" +:+ join "/" segs) +:+ "/" +:+ ".")) with true.
  change (isAbsolute (("/" +:+ join "/" segs) +:+ "/" +:+ ".")) with true.
  cbv iota. change (negb true) with false.
  assert (normalizeString (("/" +:+ join "/" segs) +:+ "/" +:+ ".") false
          = join "/" segs) as ->.
  { unfold normalizeString.
    change (("/" +:+ join "/" segs) +:+ "/" +:+ ".")
      with (EmptyString +:+ String sep_char (join "/" segs +:+ String sep_char ".")).
    rewrite !segments_app, (segments_join segs Hclean).
    change (segments EmptyString) with (@nil string).
    change (segments ".") with ["."]. cbn [app].
    rewrite (normalize_walk_dot false segs Hsegs). reflexivity. }
  destruct segs as [|w segs]; [reflexivity|].
  rewrite (join_nonempty (w :: segs) Hclean) by discriminate. reflexivity.
Qed.

Lemma basename_resolved cwd p :
  basename (path_resolve cwd p) = EmptyString -> path_resolve cwd p = "/".
Proof.
  destruct (path_resolve_shape cwd p) as (segs & Hsegs & ->).
  assert (Forall (fun w => clean_segment w = true) segs) as Hclean.
  { eapply Forall_impl; [exact Hsegs|]. apply entry_name_clean. }
  unfold basename.
  change ("/" +:+ join "/" segs) with (EmptyString +:+ String sep_char (join "/" segs)).
  rewrite segments_app, (segments_join segs Hclean).
  change (segments EmptyString) with (@nil string). cbn [app].
  destruct segs as [|w segs] using rev_ind; [reflexivity|].
  rewrite rev_app_distr. cbn [rev app]. intros ->.
  apply Forall_app in Hclean as [_ Hw]. apply Forall_cons in Hw as [Hw _].
  discriminate.
Qed.

(** The query [parseLocalDirPath] builds for a source path names the resolved
    directory, and a run on it starts in that very directory: the default
    subpath adds nothing to the path.  The query carries no exclude pattern
    (the default patterns are added by [parseQuery] alone) and no include
    set.  Its slug is the directory's name; for the root of the file system,
    which has none, [createIngestionQuery] makes one up from the
    identifier. *)
Theorem local_query_target cwd uuid uuid' p :
  let q := parseLocalDirPath cwd uuid uuid' p in
  local_path q = path_resolve cwd p /\
  target_path q = local_path q /\
  subpath q = "/" /\ type_ q = "tree" /\ url q = None /\
  ignore_patterns q = [] /\ include_patterns q = None /\
  max_file_size q = MAX_FILE_SIZE /\
  (slug q = basename (local_path q) \/
   (local_path q = "/" /\ slug q = "query-" +:+ id q)).
Proof.
  cbv zeta.
  assert (local_path (parseLocalDirPath cwd uuid uuid' p) = path_resolve cwd p)
    as Hlp.
  { unfold parseLocalDirPath, createIngestionQuery. cbn.
    unfold path_resolve. reflexivity. }
  split; [exact Hlp|]. split; [|repeat split].
  - unfold target_path. rewrite Hlp.
    change (subpath (parseLocalDirPath cwd uuid uuid' p)) with "/".
    change (path_join_all (segments "/")) with ".".
    apply path_join_resolved_dot.
  - rewrite Hlp. unfold parseLocalDirPath, createIngestionQuery.
    cbn [slug id p_slug p_id]. unfold or_str at 1.
    destruct (basename (path_resolve cwd p)) as [|c b] eqn:Hb.
    + right. split; [apply basename_resolved, Hb | reflexivity].
    + left. reflexivity.
Qed.

(** * Patterns of the extension's default settings *)

Lemma glob_star_iff p s :
  glob_match (String "*" p) s <->
  exists pre post,
    s = pre +:+ post /\
    all_chars (fun c => negb (line_terminator c)) pre = true /\
    glob_match p post.
Proof.
  split.
  - remember (String "*" p) as q eqn:Hq. intros H. revert p Hq.
    induction H as [|p' s H _|p' c s Hc H IH|p' c s Hc H _|c p' s Hs Hq' H _];
      intros p Hq; try discriminate.
    + injection Hq as ->. exists EmptyString, s. auto.
    + injection Hq as ->. destruct (IH p eq_refl) as (pre & post & -> & Hpre & Hp).
      exists (String c pre), post. push_app. simpl. rewrite Hc, Hpre. auto.
    + injection Hq as -> _. congruence.
  - intros (pre & post & -> & Hpre & Hp). induction pre as [|c pre IH]; push_app.
    + apply glob_star_none, Hp.
    + simpl in Hpre. apply andb_true_iff in Hpre as [Hc Hpre].
      apply negb_true_iff in Hc. apply glob_star_more; [exact Hc | apply IH, Hpre].
Qed.

Lemma glob_literal_iff lit p s :
  all_chars literal_char lit = true ->
  (glob_match (lit +:+ p) s <-> exists s', s = lit +:+ s' /\ glob_match p s').
Proof.
  revert s. induction lit as [|c lit IH]; intros s Hl; push_app.
  - split; [intros H; exists s; auto | intros (s' & -> & H); exact H].
  - simpl in Hl. apply andb_true_iff in Hl as [Hc Hl].
    unfold literal_char in Hc. rewrite !andb_true_iff, !negb_true_iff in Hc.
    destruct Hc as [[_ Hstar] Hq]. apply Ascii.eqb_neq in Hstar, Hq. split.
    + intros H. inversion H; subst; try congruence.
      match goal with
      | Hm : glob_match (lit +:+ p) _ |- _ =>
          apply (IH _ Hl) in Hm as (s' & -> & Hm)
      end.
      eexists. split; [reflexivity | eassumption].
    + intros (s' & -> & H). push_app. apply glob_literal; auto.
      apply (IH _ Hl). eauto.
Qed.

Lemma plain_no_terminator s :
  all_chars plain_char s = true ->
  all_chars (fun c => negb (line_terminator c)) s = true.
Proof.
  apply all_chars_impl. intros c. unfold plain_char. rewrite andb_true_iff. tauto.
Qed.

Lemma count_sep_append a b : count_sep (a +:+ b) = (count_sep a + count_sep b)%nat.
Proof. induction a as [|c a IH]; push_app; simpl; [reflexivity | rewrite IH; lia]. Qed.

Lemma count_sep_none s : includes_char s sep_char = false -> count_sep s = O.
Proof.
  induction s as [|c s IH]; cbn [count_sep includes_char]; [reflexivity|].
  intros H. apply orb_false_iff in H as [Hc Hs].
  rewrite Ascii.eqb_sym, Hc, (IH Hs). reflexivity.
Qed.

(** For a directory name [d] of ASCII characters none of which is a
    wildcard, a separator, a line terminator or one of
    [^ $ ( ) [ ] { } | \ +], and a relative path of ASCII characters without
    line terminators: the pattern [**/d/**] matches the path exactly when
    the path holds [/d/] somewhere, the name needing a separator on either
    side.  So it matches nothing at the top of the tree: not the directory
    [d] itself that lies directly in the root, nor a file directly inside
    it.  The patterns of the extension's default settings ([.git],
    [node_modules], [__pycache__]) have this shape. *)
Theorem anywhere_under_needs_parent h d s :
  all_chars literal_char d = true -> all_chars plain_char d = true ->
  includes_char d sep_char = false ->
  all_chars plain_char s = true ->
  (matchPattern h s (anywhere_under d) = Some true <->
   exists pre post, s = pre +:+ "/" +:+ d +:+ "/" +:+ post) /\
  matchPattern h s (anywhere_under d) <> None /\
  matchPattern h d (anywhere_under d) = Some false /\
  (includes_char s sep_char = false ->
   matchPattern h (d +:+ "/" +:+ s) (anywhere_under d) = Some false).
Proof.
  intros Hlit Hpd Hnd Hps.
  assert (all_chars glob_char (anywhere_under d) = true) as Hglob.
  { unfold anywhere_under. rewrite !all_chars_append, (literal_glob d Hlit).
    reflexivity. }
  assert (all_chars literal_char ("/" +:+ d +:+ "/") = true) as Hlit'.
  { rewrite !all_chars_append, Hlit. reflexivity. }
  assert (forall t, all_chars plain_char t = true ->
            (matchPattern h t (anywhere_under d) = Some true <->
             exists pre post, t = pre +:+ "/" +:+ d +:+ "/" +:+ post) /\
            matchPattern h t (anywhere_under d) <> None) as Hmain.
  { intros t Ht.
    rewrite (matchPattern_glob h t _ Hglob (plain_ascii t Ht)).
    split; [|discriminate].
    transitivity (glob_match (anywhere_under d) t).
    { rewrite <- items_match_glob. split; [congruence | intros ->; reflexivity]. }
    assert (anywhere_under d
            = String "*" (String "*" (("/" +:+ d +:+ "/") +:+ "**"))) as ->.
    { unfold anywhere_under. push_app. rewrite str_append_assoc. reflexivity. }
    rewrite glob_star_iff. split.
    - intros (pre1 & post1 & -> & _ & H). apply glob_star_iff in H
        as (pre2 & post2 & -> & _ & H).
      apply (glob_literal_iff _ _ _ Hlit') in H as (s3 & -> & _).
      exists (pre1 +:+ pre2), s3. push_app. rewrite !str_append_assoc.
      reflexivity.
    - intros (pre & post & ->).
      assert (all_chars plain_char pre = true /\ all_chars plain_char post = true)
        as [Hpre Hpost].
      { rewrite !all_chars_append in Ht. cbn [all_chars] in Ht.
        rewrite !andb_true_iff in Ht. tauto. }
      exists pre, ("/" +:+ d +:+ "/" +:+ post).
      split; [reflexivity|]. split; [apply plain_no_terminator, Hpre|].
      apply glob_star_iff. exists EmptyString, ("/" +:+ d +:+ "/" +:+ post).
      split; [reflexivity|]. split; [reflexivity|].
      apply (glob_literal_iff _ _ _ Hlit'). exists post.
      split; [push_app; rewrite str_append_assoc; reflexivity|].
      apply glob_star_iff. exists post, EmptyString.
      rewrite str_append_nil_r. split; [reflexivity|].
      split; [apply plain_no_terminator, Hpost|].
      apply glob_star_none, glob_end. }
  assert (forall t, all_chars plain_char t = true -> (count_sep t < 2)%nat ->
            matchPattern h t (anywhere_under d) = Some false) as Hfew.
  { intros t Ht Hcount. destruct (Hmain t Ht) as [Hiff Hnone].
    destruct (matchPattern h t (anywhere_under d)) as [[|]|]; try congruence.
    destruct (proj1 Hiff eq_refl) as (pre & post & ->). exfalso.
    rewrite !count_sep_append in Hcount. simpl in Hcount. lia. }
  split; [apply Hmain, Hps|]. split; [apply Hmain, Hps|]. split.
  - apply Hfew; [exact Hpd|]. rewrite (count_sep_none d Hnd). lia.
  - intros Hns. apply Hfew.
    + rewrite !all_chars_append, Hpd, Hps. reflexivity.
    + rewrite !count_sep_append, (count_sep_none d Hnd), (count_sep_none s Hns).
      simpl. lia.
Qed.

Lemma anywhere_under_needs_parent_example :
  anywhere_under "node_modules" = "**/node_modules/**" /\
  matchPattern example_host "node_modules" "**/node_modules/**" = Some false /\
  matchPattern example_host ("node_modules" +:+ "/" +:+ "left-pad")
    "**/node_modules/**" = Some false.
Proof.
  destruct (anywhere_under_needs_parent example_host "node_modules" "left-pad"
              eq_refl eq_refl eq_refl eq_refl) as (_ & _ & H1 & H2).
  split; [reflexivity|]. split; [exact H1 | exact (H2 eq_refl)].
Defined.

(** * Further properties of file contents *)

Lemma isTextFile_loop_content h p encodings :
  isTextFile_loop h p encodings = true ->
  exists encoding text,
    In encoding encodings /\
    readFileSync h p encoding = HOk text /\
    content_loop h p encodings = text.
Proof.
  induction encodings as [|e es IH]; simpl; [discriminate|].
  destruct (readFileSync h p e) as [text|m] eqn:Hr.
  - intros _. exists e, text. auto.
  - destruct (str_includes m "encoding") eqn:Hm; [|discriminate].
    rewrite orb_true_r. intros H.
    destruct (IH H) as (enc & text & Hin & Hread & Hc).
    exists enc, text. auto.
Qed.

(** The two scans of the encoding list agree.  When the text test accepted a
    file on the strength of a successful read (its sample was not empty),
    the content of its node is the text of such a read, under one of the
    listed encodings, and never one of the accessor's error messages.  An
    unreadable or undecodable file does not get that far: the text test
    rejected it, and its content is the non-text marker. *)
Theorem text_content_is_file_text h n chunk :
  type n = FILE ->
  readSample h (path n) = Some chunk -> nonempty chunk = true ->
  extname (path n) <> ".ipynb" ->
  (isTextFile h (path n) = true ->
   exists encoding text,
     In encoding getEncodingList /\
     readFileSync h (path n) encoding = HOk text /\
     content h n = Ok text) /\
  (isTextFile h (path n) = false -> content h n = Ok "[Non-text file]").
Proof.
  intros Ht Hs Hne Hext. unfold content. rewrite Ht. split.
  - intros Htext. rewrite Htext. cbn [negb].
    destruct (str_eqb (extname (path n)) ".ipynb") eqn:He.
    { apply String.eqb_eq in He. contradiction. }
    unfold isTextFile in Htext. rewrite Hs, Hne in Htext. cbn [negb] in Htext.
    destruct (includes_char chunk "000" || includes_char chunk "255");
      [discriminate|].
    destruct (isTextFile_loop_content h (path n) _ Htext)
      as (enc & text & Hin & Hread & Hc).
    exists enc, text. rewrite Hc. auto.
  - intros ->. reflexivity.
Qed.

Lemma text_content_is_file_text_example :
  isTextFile example_host (path (file_named "a.md")) = true /\
  exists encoding text,
    In encoding getEncodingList /\
    readFileSync example_host (path (file_named "a.md")) encoding = HOk text /\
    content example_host (file_named "a.md") = Ok text.
Proof.
  split; [reflexivity|].
  destruct (text_content_is_file_text example_host (file_named "a.md") "# hi")
    as [H _]; [reflexivity | reflexivity | reflexivity | discriminate |].
  exact (H eq_refl).
Defined.

(** A file requested on its own whose content reads as the empty text is
    refused: the run fails with "File <name> has no content".  An empty
    regular file that is no notebook is such a file. *)
Theorem empty_file_has_no_content h query sz :
  access h (target_path query) = true ->
  stat h (target_path query) = HOk (mkStats KFile sz) ->
  readSample h (target_path query) = Some EmptyString ->
  readFileSync h (target_path query) "utf-8" = HOk EmptyString ->
  extname (target_path query) <> ".ipynb" ->
  snd (ingestQuery h query)
    = Throw (Error ("File " +:+ basename (target_path query)
                    +:+ " has no content")).
Proof.
  intros Hacc Hst Hs Hr Hext. rewrite ingestQuery_snd.
  unfold ingest_node. cbn [fst snd]. fold (target_path query).
  rewrite Hacc, Hst. cbn [negb lift_host mbind Outcome_bind st_kind st_size].
  rewrite orb_true_r. cbn [negb].
  assert (forall rel,
            content h
              (set_file_count
                 (set_size
                    (new_FileSystemNode (basename (target_path query)) FILE rel
                       (target_path query)) sz) 1) = Ok EmptyString) as Hc.
  { intros rel. unfold content. cbn [type path set_file_count set_size
      new_FileSystemNode]. unfold isTextFile. rewrite Hs. cbn [nonempty negb].
    destruct (str_eqb (extname (target_path query)) ".ipynb") eqn:He.
    { apply String.eqb_eq in He. contradiction. }
    cbn [getEncodingList content_loop]. rewrite Hr. reflexivity. }
  rewrite (Hc _). reflexivity.
Qed.

Lemma empty_file_has_no_content_example :
  let h := mem_host [("/r", MDir ["empty.txt"]); ("/r/empty.txt", MFile 0 EmptyString)]
             (fun _ => None) in
  snd (ingestQuery h
         (mkQuery None None "/r" None "r" "0" "/empty.txt" "blob" None None
            MAX_FILE_SIZE [] None))
    = Throw (Error "File empty.txt has no content").
Proof.
  cbv zeta.
  apply (empty_file_has_no_content
           (mem_host [("/r", MDir ["empty.txt"]);
                      ("/r/empty.txt", MFile 0 EmptyString)] (fun _ => None))
           (mkQuery None None "/r" None "r" "0" "/empty.txt" "blob" None None
              MAX_FILE_SIZE [] None) 0);
    try reflexivity.
  vm_compute. discriminate.
Defined.

(** * The tree text *)

Lemma count_nl_append a b : count_nl (a +:+ b) = (count_nl a + count_nl b)%nat.
Proof.
  induction a as [|c a IH]; push_app; cbn [count_nl]; [reflexivity|].
  rewrite IH. lia.
Qed.

(** The tree text has one line for every node of the tree, the root
    included, provided no name (nor the slug, which stands in for a missing
    name) holds a line feed. *)
Theorem createTreeStructure_lines query :
  count_nl (slug query) = O ->
  forall node prefix is_last,
    count_nl prefix = O ->
    node_all printable node ->
    count_nl (fst (createTreeStructure query node prefix is_last))
      = S (length (descendants node)).
Proof.
  intros Hslug. induction node as [node IH] using FileSystemNode_tree_ind.
  intros prefix is_last Hpre Hall.
  apply node_all_unfold in Hall as [[Hname Hleaf] Hch].
  rewrite descendants_unfold.
  destruct node as [nm ty ps p sz fc dc d ch].
  cbn [name type children] in *. cbn [createTreeStructure].
  assert (count_nl (if nonempty nm then nm else slug query) = O) as Hnm
    by (destruct (nonempty nm); assumption).
  assert (count_nl (if is_last then "└── " else "├── ") = O) as Hcur
    by (destruct is_last; reflexivity).
  assert (count_nl (prefix +:+ (if is_last then "    " else "│   ")) = O) as Hnew
    by (rewrite count_nl_append, Hpre; destruct is_last; reflexivity).
  destruct ty.
  - match goal with
    | |- context [?f ch] =>
        is_fix f;
        assert (forall l,
                  Forall (fun n => forall pre b,
                            count_nl pre = O -> node_all printable n ->
                            count_nl (fst (createTreeStructure query n pre b))
                            = S (length (descendants n))) l ->
                  Forall (node_all printable) l ->
                  count_nl (fst (f l))
                  = length (flat_map (fun c => c :: descendants c) l)) as Heach;
          [|specialize (Heach ch IH Hch); destruct (f ch) as [text ch']]
    end.
    { induction 1 as [|x l Hx Hl IHl]; intros Hp; [reflexivity|].
      apply Forall_cons in Hp as [Hpx Hpl]. specialize (IHl Hpl).
      cbn [flat_map]. rewrite length_app. cbn [length]. rewrite <- IHl.
      rewrite <- (Hx (prefix +:+ (if is_last then "    " else "│   "))
                    (match l with [] => true | _ => false end) Hnew Hpx).
      simpl.
      repeat match goal with
             | |- context [let '(_, _) := ?e in _] => destruct e
             end.
      cbn [fst]. rewrite count_nl_append. reflexivity. }
    cbn [fst] in Heach. destruct ch as [|c ch].
    + cbn [fst flat_map length].
      rewrite !count_nl_append, Hpre, Hcur, Hnm. reflexivity.
    + cbn [fst]. rewrite !count_nl_append, Hpre, Hcur, Hnm, Heach. reflexivity.
  - rewrite (Hleaf eq_refl). cbn [fst flat_map length].
    rewrite !count_nl_append, Hpre, Hcur, Hnm. reflexivity.
Qed.

Lemma createTreeStructure_lines_example :
  count_nl example_tree_text = 6%nat.
Proof.
  apply (createTreeStructure_lines (local_query "/root") eq_refl
           (set_children (dir_named "root") example_sorted) EmptyString true
           eq_refl).
  repeat constructor; discriminate.
Defined.

(** * Labels of the nodes *)




(** * Links *)

Lemma processNode_arrivals h query fuel node stats n' s' :
  fresh_dir node ->
  processNode h fuel node query stats = Ok (n', s') ->
  path n' = path node /\ node_all (children_arrive h query) n'.
Proof.
  apply (processNode_walk h query
    (fun n0 s0 n s =>
       path n = path n0 /\
       Forall (fun c => (exists sp, arrives h query (path n) sp (path c)) /\
                        node_all (children_arrive h query) c) (children n))
    (fun n0 s0 n s =>
       path n = path n0 /\ node_all (children_arrive h query) n)).
  - intros n s (_ & Hc & _) _. split; [reflexivity|].
    apply node_all_leaf; [exact Hc|]. unfold children_arrive. rewrite Hc. constructor.
  - intros n s (_ & Hc & _) _. rewrite Hc. split; [reflexivity|constructor].
  - intros n0 s0 n s target H _. exact H.
  - intros n0 s0 n s target st H _ _ _ _. exact H.
  - intros n0 s0 n s sp target st (H1 & H2) Harr _ _ _ _ _. simpl.
    split; [exact H1|]. apply Forall_app. split; [exact H2|].
    constructor; [|constructor]. split; [exists sp; exact Harr|].
    apply node_all_leaf; [reflexivity|]. constructor.
  - intros n0 s0 n s target sp child s2 (H1 & H2) Harr _ _ (C1 & C2). simpl.
    split; [exact H1|]. apply Forall_app. split; [exact H2|].
    constructor; [|constructor]. split; [|exact C2].
    exists sp. rewrite C1. destruct sp; exact Harr.
  - intros n0 s0 n s (H1 & H2). split; [exact H1|].
    pose proof (array_sort_perm (compareChildren h) (children n)) as Hp.
    rewrite Hp in H2. apply node_all_unfold. simpl. split.
    + unfold children_arrive. simpl.
      eapply Forall_impl; [exact H2|]. intros c [Hc _]. exact Hc.
    + eapply Forall_impl; [exact H2|]. intros c [_ Hc]. exact Hc.
Qed.

(** Every node of a returned tree was come by in the directory its parent
    stands for: its path is that directory's path joined with the name of an
    entry that [readdir] lists there and that is no link, or it is the real
    path of a link listed there which [isSafeSymlink] accepted for the
    query's root.  No link is followed unless it passed that test, and a
    link whose real path cannot be resolved is never followed. *)
Theorem links_followed_when_safe h query node :
  snd (ingest_node h query) = Ok node ->
  node_all (children_arrive h query) node.
Proof.
  intros H.
  assert (local_path (fst (ingest_node h query)) = local_path query) as Hlp
    by (unfold ingest_node; cbn [fst]; apply applyGitingestFile_frame).
  apply ingest_node_cases in H as [(sz & _ & ->)|(s' & _ & H)].
  - apply node_all_leaf; [reflexivity|]. constructor.
  - destruct (root_node_fresh h query) as [Hroot _].
    apply processNode_arrivals in H as [_ H]; [|exact Hroot].
    unfold node_all in *. eapply Forall_impl; [exact H|].
    intros m Hm. unfold children_arrive in *.
    eapply Forall_impl; [exact Hm|]. intros c [sp Hsp]. exists sp.
    unfold arrives in *. rewrite Hlp in Hsp. exact Hsp.
Qed.

Lemma links_followed_when_safe_example :
  let h := mem_host [("/r", MDir ["in"; "out"; "d"]);
                     ("/r/in", MLink "/r/d");
                     ("/r/out", MLink "/etc");
                     ("/r/d", MDir ["f"]);
                     ("/r/d/f", MFile 1 "x");
                     ("/etc", MDir ["passwd"]);
                     ("/etc/passwd", MFile 1 "y")] (fun _ => None) in
  exists node,
    snd (ingest_node h (local_query "/r")) = Ok node /\
    map (fun m => (name m, path m)) (descendants node)
      = [("in", "/r/d"); ("f", "/r/d/f")] /\
    node_all (children_arrive h (local_query "/r")) node.
Proof.
  cbv zeta. eexists. split; [vm_compute; reflexivity|]. split; [reflexivity|].
  apply (links_followed_when_safe
           (mem_host [("/r", MDir ["in"; "out"; "d"]);
                      ("/r/in", MLink "/r/d");
                      ("/r/out", MLink "/etc");
                      ("/r/d", MDir ["f"]);
                      ("/r/d/f", MFile 1 "x");
                      ("/etc", MDir ["passwd"]);
                      ("/etc/passwd", MFile 1 "y")] (fun _ => None))
           (local_query "/r")).
  vm_compute; reflexivity.
Defined.

(** * The other normaliser *)

Lemma strip_leading_sep_same s :
  QueryParser.strip_leading_sep s = QueryParserUtils.strip_leading_slashes s.
Proof.
  induction s as [|c s IH]; [reflexivity|].
  cbn [QueryParser.strip_leading_sep QueryParserUtils.strip_leading_slashes].
  rewrite IH. reflexivity.
Qed.

Lemma endsWith_append_star b : endsWith (b +:+ "*") "/" = false.
Proof.
  unfold endsWith. rewrite str_rev_append. reflexivity.
Qed.

Lemma slashes_snoc j : slashes (S j) = slashes j +:+ "/".
Proof.
  induction j as [|j IH]; [reflexivity|].
  cbn [slashes] in IH |- *. push_app. rewrite <- IH. reflexivity.
Qed.

Lemma endsWith_slashes_r a j :
  endsWith (a +:+ slashes (S j)) "/" = true.
Proof.
  apply endsWith_spec. exists (a +:+ slashes j).
  rewrite str_append_assoc, slashes_snoc. reflexivity.
Qed.

Lemma strip_slashes_prefix k body :
  startsWith body "/" = false ->
  QueryParserUtils.strip_leading_slashes (slashes k +:+ body) = body.
Proof.
  intros Hb. induction k as [|k IH]; cbn [slashes]; push_app.
  - apply strip_leading_slashes_id, Hb.
  - cbn [QueryParserUtils.strip_leading_slashes]. rewrite Ascii.eqb_refl. exact IH.
Qed.

(** The normaliser of [utils/query_parser], which [query_parsing] does not
    use, never leaves a separator at either end of a pattern: it removes the
    leading ones and, where the used normaliser removes the trailing ones,
    appends a star to them.  On a valid pattern that does not end with a
    separator the two normalisers agree. *)
Theorem normalizers_compared :
  (forall p,
     startsWith (QueryParser.normalizePattern p) "/" = false /\
     endsWith (QueryParser.normalizePattern p) "/" = false) /\
  (forall p,
     QueryParserUtils.isValidPattern p = true -> endsWith p "/" = false ->
     QueryParser.normalizePattern p = QueryParserUtils.normalizePattern p) /\
  (forall p,
     QueryParserUtils.isValidPattern p = true -> endsWith p "/" = true ->
     QueryParserUtils.normalizePattern p <> EmptyString ->
     endsWith (QueryParser.normalizePattern p) "/*" = true /\
     startsWith (QueryParser.normalizePattern p)
       (QueryParserUtils.normalizePattern p) = true).
Proof.
  split; [|split].
  - intros p. unfold QueryParser.normalizePattern. rewrite strip_leading_sep_same.
    destruct (strip_leading_slashes_spec p) as (k & _ & Hs).
    set (b := QueryParserUtils.strip_leading_slashes p) in *.
    destruct (endsWith b "/") eqn:He.
    + split; [|apply endsWith_append_star].
      destruct b as [|c b]; [discriminate He|]. push_app. exact Hs.
    + split; [exact Hs | exact He].
  - intros p Hv He.
    destruct (normalizePattern_ends p Hv) as ((k & j & Hp) & Hs & _).
    set (n := QueryParserUtils.normalizePattern p) in *.
    destruct j as [|j].
    2: { rewrite Hp, <- str_append_assoc, endsWith_slashes_r in He. discriminate. }
    cbn [slashes] in Hp. rewrite str_append_nil_r in Hp.
    clearbody n. subst p.
    unfold QueryParser.normalizePattern. rewrite strip_leading_sep_same.
    rewrite (strip_slashes_prefix k n Hs).
    assert (endsWith n "/" = false) as ->; [|reflexivity].
    destruct (endsWith n "/") eqn:Hn; [|reflexivity].
    apply endsWith_spec in Hn as [pre Hn].
    rewrite Hn, <- str_append_assoc in He.
    assert (endsWith ((slashes k +:+ pre) +:+ "/") "/" = true) as Ht
      by (apply endsWith_spec; eexists; reflexivity).
    congruence.
  - intros p Hv He Hne.
    destruct (normalizePattern_ends p Hv) as ((k & j & Hp) & Hs & Hend & _).
    set (n := QueryParserUtils.normalizePattern p) in *.
    destruct j as [|j].
    { cbn [slashes] in Hp. rewrite str_append_nil_r in Hp.
      clearbody n. subst p.
      apply endsWith_spec in He as [pre He].
      destruct n as [|c n]; [contradiction|].
      assert (endsWith (String c n) "/" = true) as Ht.
      { apply endsWith_spec.
        assert (exists pre', String c n = pre' +:+ "/") as [pre' Hpre'].
        { clear Hs Hend Hne Hv. revert pre He.
          induction k as [|k IH]; intros pre He; cbn [slashes] in He;
            rewrite ?str_app_nil, ?str_app_cons in He; [eauto|].
          destruct pre as [|d pre]; rewrite ?str_app_nil, ?str_app_cons in He.
          - injection He as He. destruct k; discriminate.
          - injection He as _ He. eapply IH, He. }
        eauto. }
      congruence. }
    clearbody n. subst p.
    unfold QueryParser.normalizePattern. rewrite strip_leading_sep_same.
    rewrite (strip_slashes_prefix k _).
    2: { destruct n as [|c n]; [contradiction|]. push_app. exact Hs. }
    rewrite endsWith_slashes_r. split.
    + apply endsWith_spec. exists (n +:+ slashes j).
      rewrite slashes_snoc, !str_append_assoc. reflexivity.
    + apply startsWith_spec. eexists. rewrite str_append_assoc. reflexivity.
Qed.

Lemma normalizers_compared_example :
  QueryParser.normalizePattern "/src/lib" = QueryParserUtils.normalizePattern "/src/lib" /\
  endsWith (QueryParser.normalizePattern "build/") "/*" = true /\
  startsWith (QueryParser.normalizePattern "build/")
    (QueryParserUtils.normalizePattern "build/") = true.
Proof.
  destruct normalizers_compared as (_ & Hsame & Hstar). split.
  - apply Hsame; reflexivity.
  - apply Hstar; [reflexivity | reflexivity | discriminate].
Defined.

(** * Notebooks *)



